(** * cosmos-registrar: the fetch / reconcile / persist pipeline of [DumpInfo]

    A shallow embedding of [pkg/node] (DumpInfo, sortedGenesis, NewLightRoot,
    dedupe, stringsFromPeers, the repoDir path helpers, updateFile, writeFile,
    createDirIfNotExist) and of [pkg/config] (Config, Binary), together with
    the library behaviour they rely on.

    - Byte slices and Go strings are both [string], a list of 8-bit
      characters.  Go maps are [gmap]s.
    - The file system is a finite map from clean paths to files and
      directories, together with the directories that are always there:
      the root, the working directory and the directories above it.
      What exists has directories above it.  [os] and [io/ioutil] fail on
      it as they do for a missing directory or a file on the way to the
      path, a file in the place of a directory or the reverse, an existing
      target and a directory that is not empty.  Permissions, symbolic
      links and I/O errors are not modelled.
    - A JSON text is the tree of its values.  [float64], its parsing and
      its printing are parameters, and so are [sha256.Sum256],
      [json.Marshal] on a genesis document and [json.Unmarshal] into a
      [[]string].
    - The node is given by its answers to the four RPC calls of a run.
    - A closure handed to [eg.Go] is a resumption ([Prog]).  A schedule
      says which goroutine takes the next step; a step holds at most one
      access to the variable [err], which the closures share.  Of the
      package-level [errgroup.Group] the first error is kept, as its
      [sync.Once] has it. *)

From Stdlib Require Import ZArith Lia Permutation Ascii String.
From stdpp Require Import base option list strings pretty gmap sorting.

Set Warnings "-register-all".
Set Default Proof Using "Type".

(** ** Errors *)

(** The errno values the file system model can report. *)
Inductive Errno :=
  ENOENT | EEXIST | ENOTDIR | EISDIR | ENOTEMPTY | EINVAL | EBUSY.

(** A Go [error] value: an [*os.PathError], or an error carrying only a
    message ([fmt.Errorf], errors of the RPC client and of
    [encoding/json]). *)
Inductive error :=
| PathError (op path : string) (errno : Errno)
| Errorf (msg : string).

Definition errno_Error (e : Errno) : string :=
  match e with
  | ENOENT => "no such file or directory"
  | EEXIST => "file exists"
  | ENOTDIR => "not a directory"
  | EISDIR => "is a directory"
  | ENOTEMPTY => "directory not empty"
  | EINVAL => "invalid argument"
  | EBUSY => "device or resource busy"
  end.

(** [err.Error()], which is what the verb [%s] prints for an error. *)
Definition Error (e : error) : string :=
  match e with
  | PathError op path errno => op +:+ " " +:+ path +:+ ": " +:+ errno_Error errno
  | Errorf msg => msg
  end.

(** [os.IsNotExist(err)]; [err] may be nil. *)
Definition os_IsNotExist (err : option error) : bool :=
  match err with
  | Some (PathError _ _ ENOENT) => true
  | _ => false
  end.

(** A call that returns [(T, error)]. *)
Definition result (T : Type) : Type := (error + T)%type.
Definition Ok {T} (x : T) : result T := inr x.
Definition Err {T} (e : error) : result T := inl e.

(** ** Paths: package [path] *)

(** [split_last c s] cuts [s] at its last occurrence of the character [c]:
    [Some (before, after)], or [None] when [c] does not occur. *)
Fixpoint split_last (c : ascii) (s : string) : option (string * string) :=
  match s with
  | EmptyString => None
  | String a s' =>
      match split_last c s' with
      | Some (d, b) => Some (String a d, b)
      | None => if Ascii.eqb a c then Some (EmptyString, s') else None
      end
  end.

Definition slash : ascii := "/"%char.

(** [strings.Split(s, sep)] for a separator of one character: the pieces
    of [s] between the occurrences of [c]; there is at least one. *)
Fixpoint split_on (c : ascii) (s : string) : list string :=
  match s with
  | EmptyString => [EmptyString]
  | String a s' =>
      if Ascii.eqb a c then EmptyString :: split_on c s'
      else match split_on c s' with
           | x :: l => String a x :: l
           | [] => [String a EmptyString]
           end
  end.

(** Does the character [c] occur in [s]? *)
Fixpoint occurs (c : ascii) (s : string) : bool :=
  match s with
  | EmptyString => false
  | String a s' => Ascii.eqb a c || occurs c s'
  end.

(** A name of one element: not empty, without a slash, and neither [.]
    nor [..]. *)
Definition simple_name (n : string) : bool :=
  negb (String.eqb n EmptyString) && negb (String.eqb n ".")
  && negb (String.eqb n "..") && negb (occurs slash n).

Definition is_rooted (p : string) : bool :=
  match p with
  | String a _ => Ascii.eqb a slash
  | EmptyString => false
  end.

(** One element of a path meets the elements kept so far, the last one
    first.  An empty element (of a doubled or trailing slash) and [.] are
    dropped; [..] takes away the element before it, unless there is none
    or it is [..] itself: then a rooted path drops the [..] and another
    path keeps it. *)
Definition clean_push (rooted : bool) (kept : list string) (e : string)
    : list string :=
  if String.eqb e EmptyString || String.eqb e "." then kept
  else if String.eqb e ".." then
    match kept with
    | top :: rest => if String.eqb top ".." then e :: kept else rest
    | [] => if rooted then [] else [e]
    end
  else e :: kept.

Definition clean_elems (rooted : bool) (elems : list string) : list string :=
  rev (foldl (clean_push rooted) [] elems).

(** The text of a path from its elements.  A rooted path starts with a
    slash; another path without an element is written [.]. *)
Definition render (rooted : bool) (elems : list string) : string :=
  if rooted then String slash (String.concat "/" elems)
  else match elems with
       | [] => "."
       | _ => String.concat "/" elems
       end.

(** [path.Clean(p)]: the shortest path that names what [p] names by its
    text alone.  The result ends in a slash only when it is the root, and
    it is [.] when nothing is left. *)
Definition path_Clean (p : string) : string :=
  render (is_rooted p) (clean_elems (is_rooted p) (split_on slash p)).

(** [path.Join(a, b)]: empty elements are ignored, the others are joined
    with a slash and the result is cleaned; when both are empty the result
    is empty. *)
Definition path_Join (a b : string) : string :=
  match a, b with
  | EmptyString, EmptyString => EmptyString
  | EmptyString, _ => path_Clean b
  | _, _ => path_Clean (a +:+ "/" +:+ b)
  end.

(** [s] without the slashes at its end. *)
Fixpoint strip_slashes (s : string) : string :=
  match s with
  | EmptyString => EmptyString
  | String a s' =>
      match strip_slashes s' with
      | EmptyString => if Ascii.eqb a slash then EmptyString
                       else String a EmptyString
      | t => String a t
      end
  end.

(** [path.Base(p)]: the last element of [p], [.] for the empty path and
    [/] for a path of slashes. *)
Definition path_Base (p : string) : string :=
  match p with
  | EmptyString => "."
  | _ =>
      let q := strip_slashes p in
      match match split_last slash q with
            | Some (_, b) => b
            | None => q
            end with
      | EmptyString => "/"
      | b => b
      end
  end.

(** ** The file system: packages [os] and [io/ioutil] *)

Inductive Node :=
| File (data : string)
| Dir.

(** The file system maps every existing path to its node. *)
Abbreviation FS := (gmap string Node).

(** The directories that exist whatever the map holds: the root, the
    working directory, and the directories above the working directory
    ([..], [../..] and so on). *)
Definition always_dir (p : string) : bool :=
  String.eqb p "/" || String.eqb p "."
  || forallb (String.eqb "..") (split_on slash p).

(** What the path [p] names, if anything.  The empty path names
    nothing. *)
Definition node_at (fs : FS) (p : string) : option Node :=
  if always_dir p then Some Dir
  else match p with
       | EmptyString => None
       | _ => fs !! p
       end.

Inductive ParentState := PDir | PFile | PMissing.

(** The way to [p], as the kernel walks it, from the directory that
    would hold [p] upwards, with [n] the elements it may still look at.
    A relative path without a slash lives in the working directory and a
    path directly under the root lives in the root; both exist.
    Otherwise the directory that would hold [p] is there ([PDir]), or a
    regular file has its name ([PFile]), or it is missing; when it is
    missing, the way to it decides in the same manner: a regular file on
    the way makes the path a path through a file ([PFile]), and else an
    element of the path is missing ([PMissing]). *)
Fixpoint parent_state_from (n : nat) (fs : FS) (p : string) : ParentState :=
  match n with
  | 0 => PMissing
  | S n' =>
      match split_last slash p with
      | None => PDir
      | Some (EmptyString, _) => PDir
      | Some (d, _) =>
          match node_at fs d with
          | Some Dir => PDir
          | Some (File _) => PFile
          | None =>
              match parent_state_from n' fs d with
              | PFile => PFile
              | _ => PMissing
              end
          end
      end
  end.

(** The state of the directory that would hold [p]: [PFile] is what
    the kernel reports as [ENOTDIR], [PMissing] as [ENOENT].  Nothing holds
    the empty path. *)
Definition parent_state (fs : FS) (p : string) : ParentState :=
  match p with
  | EmptyString => PMissing
  | _ => parent_state_from (String.length p) fs p
  end.

Definition parent_errno (fs : FS) (p : string) : option Errno :=
  match parent_state fs p with
  | PDir => None
  | PFile => Some ENOTDIR
  | PMissing => Some ENOENT
  end.

(** The errno of a path that names nothing. *)
Definition missing_errno (fs : FS) (p : string) : Errno :=
  match parent_state fs p with
  | PFile => ENOTDIR
  | _ => ENOENT
  end.

(** [os.Stat(p)], keeping only the error. *)
Definition os_Stat (fs : FS) (p : string) : option error :=
  match node_at fs p with
  | Some _ => None
  | None => Some (PathError "stat" p (missing_errno fs p))
  end.

(** [os.Mkdir(p, os.ModePerm)]. *)
Definition os_Mkdir (fs : FS) (p : string) : option error * FS :=
  match node_at fs p with
  | Some _ => (Some (PathError "mkdir" p EEXIST), fs)
  | None =>
      match parent_errno fs p with
      | Some e => (Some (PathError "mkdir" p e), fs)
      | None => (None, <[p := Dir]> fs)
      end
  end.

(** [ioutil.WriteFile(p, data, 0644)]: create or truncate, then write. *)
Definition ioutil_WriteFile (fs : FS) (p data : string) : option error * FS :=
  match node_at fs p with
  | Some Dir => (Some (PathError "open" p EISDIR), fs)
  | Some (File _) => (None, <[p := File data]> fs)
  | None =>
      match parent_errno fs p with
      | Some e => (Some (PathError "open" p e), fs)
      | None => (None, <[p := File data]> fs)
      end
  end.

(** Does the directory [p] hold an entry? *)
Definition has_children (fs : FS) (p : string) : bool :=
  existsb (fun q => match split_last slash q with
                    | Some (d, _) => String.eqb d p
                    | None => false
                    end) (map_to_list fs).*1.

(** A directory that [os.Remove] refuses: one that holds an entry, and
    the root, the working directory and the directories above it. *)
Definition dir_in_use (fs : FS) (p : string) : bool :=
  always_dir p || has_children fs p.

(** [os.Remove(p)]: unlink a file, or remove an empty directory. *)
Definition os_Remove (fs : FS) (p : string) : option error * FS :=
  match node_at fs p with
  | None => (Some (PathError "remove" p (missing_errno fs p)), fs)
  | Some (File _) => (None, delete p fs)
  | Some Dir =>
      if dir_in_use fs p then
        (Some (PathError "remove" p
                 (if String.eqb p "/" then EBUSY
                  else if String.eqb p "." then EINVAL
                  else ENOTEMPTY)), fs)
      else (None, delete p fs)
  end.

(** [os.Open(p)] followed by [ioutil.ReadAll]: opening succeeds on any
    existing node, reading fails on a directory. *)
Definition os_Open (fs : FS) (p : string) : result Node :=
  match node_at fs p with
  | Some n => Ok n
  | None => Err (PathError "open" p (missing_errno fs p))
  end.

Definition ioutil_ReadAll (p : string) (n : Node) : result string :=
  match n with
  | File data => Ok data
  | Dir => Err (PathError "read" p EISDIR)
  end.

(** ** Package [encoding/json] *)

Definition dquote : ascii := "034"%char.
Definition backslash : ascii := "\"%char.
Definition newline : ascii := "010"%char.

Definition hex_lower (n : N) : ascii :=
  match n with
  | 0 => "0" | 1 => "1" | 2 => "2" | 3 => "3" | 4 => "4" | 5 => "5"
  | 6 => "6" | 7 => "7" | 8 => "8" | 9 => "9" | 10 => "a" | 11 => "b"
  | 12 => "c" | 13 => "d" | 14 => "e" | _ => "f"
  end%N%char.

Definition hex_upper (n : N) : ascii :=
  match n with
  | 0 => "0" | 1 => "1" | 2 => "2" | 3 => "3" | 4 => "4" | 5 => "5"
  | 6 => "6" | 7 => "7" | 8 => "8" | 9 => "9" | 10 => "A" | 11 => "B"
  | 12 => "C" | 13 => "D" | 14 => "E" | _ => "F"
  end%N%char.

(** Two hex digits per byte: [hex.EncodeToString], and the verb [%x] on a
    byte array. *)
Fixpoint hex_encode (digit : N -> ascii) (s : string) : string :=
  match s with
  | EmptyString => EmptyString
  | String a s' =>
      let n := N_of_ascii a in
      String (digit (n / 16)%N) (String (digit (n mod 16)%N) (hex_encode digit s'))
  end.

(** One byte of a string inside a JSON string literal, as [json.Marshal]
    writes it (HTML escaping is on): quote and backslash get a
    backslash, newline, carriage return and tab their short form, the other
    control characters and [<], [>], [&] the form [\u00XX].  Bytes from
    0x80 on are copied: the text is taken to be valid UTF-8 without U+2028
    and U+2029. *)
Definition escape_byte (a : ascii) : string :=
  let n := N_of_ascii a in
  if (n =? 34)%N then String backslash (String dquote EmptyString)
  else if (n =? 92)%N then String backslash (String backslash EmptyString)
  else if (n =? 10)%N then String backslash "n"
  else if (n =? 13)%N then String backslash "r"
  else if (n =? 9)%N then String backslash "t"
  else if ((n <? 32) || (n =? 60) || (n =? 62) || (n =? 38))%N
       then String backslash ("u00" +:+ hex_encode hex_lower (String a EmptyString))
  else String a EmptyString.

Fixpoint escape (s : string) : string :=
  match s with
  | EmptyString => EmptyString
  | String a s' => escape_byte a +:+ escape s'
  end.

Definition encodeString (s : string) : string :=
  String dquote (escape s +:+ String dquote EmptyString).

(** The line break that [json.Indent] writes with an empty prefix and an
    indent of two spaces, at nesting depth [depth]. *)
Definition indent_nl (depth : nat) : string :=
  String newline (String.concat EmptyString (replicate depth "  ")).

(** The layout of an array or an object whose elements are already
    encoded; an empty one is written without a line break. *)
Definition encode_seq (opening closing : string) (depth : nat)
    (items : list string) : string :=
  match items with
  | [] => opening +:+ closing
  | _ => opening +:+ indent_nl (S depth)
         +:+ String.concat ("," +:+ indent_nl (S depth)) items
         +:+ indent_nl depth +:+ closing
  end.

Definition encode_member (kv : string * string) : string :=
  encodeString kv.1 +:+ ": " +:+ kv.2.

(** [json.MarshalIndent] of a struct, with an empty prefix and an indent
    of two spaces: the fields in declaration order, each value already
    encoded. *)
Definition MarshalIndent_struct (fields : list (string * string)) : string :=
  encode_seq "{" "}" 0 (encode_member <$> fields).

(** [json.MarshalIndent] of a [[]string], with an empty prefix and an
    indent of two spaces; a nil slice is written [null]. *)
Definition MarshalIndent_strings (l : list string) : string :=
  match l with
  | [] => "null"
  | _ => encode_seq "[" "]" 0 (encodeString <$> l)
  end.

(** A JSON text as a tree.  The members of an object are in the order in
    which the text has them, and a key may occur more than once. *)
Inductive json :=
| JNull
| JBool (b : bool)
| JNumber (lit : string)
| JString (s : string)
| JArray (elems : list json)
| JObject (members : list (string * json)).

(** The order of map keys in the output: [sort.Slice] by [<] on the key
    strings, which compares them byte by byte. *)
Definition key_le (a b : string * string) : Prop := String.leb a.1 b.1.

Global Instance key_le_dec a b : Decision (key_le a b).
Proof. unfold key_le. apply _. Defined.

Section json_generic.
(** [float64], with [strconv.ParseFloat] on a JSON number literal (an
    error when the value is out of range) and the encoder's formatting
    of a float. *)
Context {float64 : Type}.
Variable parseFloat : string -> option float64.
Variable formatFloat : float64 -> string.

(** The value [json.Unmarshal] stores into an [interface{}]. *)
Inductive value :=
| VNil
| VBool (b : bool)
| VFloat (f : float64)
| VString (s : string)
| VSlice (elems : list value)
| VMap (m : gmap string value).

(** [json.Unmarshal(data, &c)] with [c] an [interface{}], on the tree of
    [data].  Object members are stored into the map in order, so the
    last of several members with one key wins. *)
Fixpoint Unmarshal (d : json) : result value :=
  match d with
  | JNull => Ok VNil
  | JBool b => Ok (VBool b)
  | JNumber lit =>
      match parseFloat lit with
      | Some f => Ok (VFloat f)
      | None =>
          Err (Errorf ("json: cannot unmarshal number " +:+ lit
                       +:+ " into Go value of type float64"))
      end
  | JString s => Ok (VString s)
  | JArray elems =>
      (fix go (l : list json) (acc : list value) : result value :=
         match l with
         | [] => Ok (VSlice (rev acc))
         | d' :: l' =>
             match Unmarshal d' with
             | inl e => inl e
             | inr v => go l' (v :: acc)
             end
         end) elems []
  | JObject members =>
      (fix go (l : list (string * json)) (acc : gmap string value)
         : result value :=
         match l with
         | [] => Ok (VMap acc)
         | (k, d') :: l' =>
             match Unmarshal d' with
             | inl e => inl e
             | inr v => go l' (<[k := v]> acc)
             end
         end) members ∅
  end.

(** [json.MarshalIndent] of a generic value, with an empty prefix and
    an indent of two spaces, at nesting depth [depth]. *)
Fixpoint encode (depth : nat) (v : value) : string :=
  match v with
  | VNil => "null"
  | VBool true => "true"
  | VBool false => "false"
  | VFloat f => formatFloat f
  | VString s => encodeString s
  | VSlice elems => encode_seq "[" "]" depth (encode (S depth) <$> elems)
  | VMap m =>
      encode_seq "{" "}" depth
        (encode_member <$>
           merge_sort key_le (map_to_list (encode (S depth) <$> m)))
  end.

Definition MarshalIndent (v : value) : string := encode 0 v.
End json_generic.

Arguments VNil {float64}.
Arguments VBool {float64} b.
Arguments VString {float64} s.

(** The result of a fallible call without the error value. *)
Definition to_option {T} (r : result T) : option T :=
  match r with
  | inl _ => None
  | inr x => Some x
  end.

(** ** The canonicalizer: [sortedGenesis] *)

Section canonicalizer.
Context {float64 : Type}.
Variable parseFloat : string -> option float64.
Variable formatFloat : float64 -> string.

(** [tmtypes.GenesisDoc] and [json.Marshal] on it (the tree of the text
    it returns); the type is declared in Tendermint. *)
Context {GenesisDoc : Type}.
Variable json_Marshal : GenesisDoc -> result json.

(** [sha256.Sum256]: the 32 bytes of the digest. *)
Variable sha256_Sum256 : string -> string.

(** [sortedGenesis(gen)] returns [(sum, indented, err)].  [MarshalIndent]
    cannot fail on a value that [Unmarshal] has built, so the third step
    has no error case. *)
Definition sortedGenesis (gen : GenesisDoc) : result (string * string) :=
  match json_Marshal gen with
  | inl e => inl e
  | inr doc =>
      match Unmarshal parseFloat doc with
      | inl e => inl e
      | inr c =>
          let indented := MarshalIndent formatFloat c in
          Ok (hex_encode hex_lower (sha256_Sum256 indented), indented)
      end
  end.
End canonicalizer.

(** ** Structural equality of JSON texts

    Two texts are structurally equal when they are the same tree of
    key/value data up to the order of the members of each object.  A key
    occurs once in an object of such a tree. *)
Inductive struct_eq : json -> json -> Prop :=
| se_null : struct_eq JNull JNull
| se_bool b : struct_eq (JBool b) (JBool b)
| se_number lit : struct_eq (JNumber lit) (JNumber lit)
| se_string s : struct_eq (JString s) (JString s)
| se_array l1 l2 :
    struct_eq_elems l1 l2 -> struct_eq (JArray l1) (JArray l2)
| se_object ms1 ms ms2 :
    struct_eq_members ms1 ms -> ms ≡ₚ ms2 -> NoDup ms1.*1 ->
    struct_eq (JObject ms1) (JObject ms2)
with struct_eq_elems : list json -> list json -> Prop :=
| se_elems_nil : struct_eq_elems [] []
| se_elems_cons d1 d2 l1 l2 :
    struct_eq d1 d2 -> struct_eq_elems l1 l2 ->
    struct_eq_elems (d1 :: l1) (d2 :: l2)
with struct_eq_members : list (string * json) -> list (string * json) -> Prop :=
| se_members_nil : struct_eq_members [] []
| se_members_cons k d1 d2 ms1 ms2 :
    struct_eq d1 d2 -> struct_eq_members ms1 ms2 ->
    struct_eq_members ((k, d1) :: ms1) ((k, d2) :: ms2).

Scheme struct_eq_mut := Induction for struct_eq Sort Prop
  with struct_eq_elems_mut := Induction for struct_eq_elems Sort Prop
  with struct_eq_members_mut := Induction for struct_eq_members Sort Prop.

(** Every number literal of the text fits a float64. *)
Fixpoint numbers_parse {float64} (parseFloat : string -> option float64)
    (d : json) : bool :=
  match d with
  | JNumber lit => bool_decide (is_Some (parseFloat lit))
  | JArray elems => forallb (numbers_parse parseFloat) elems
  | JObject members =>
      forallb (fun kv => numbers_parse parseFloat kv.2) members
  | _ => true
  end.

(** ** Light-client roots and the binary descriptor *)

(** The verb [%d] on an [int64]. *)
Definition itoa (n : Z) : string := pretty n.

(** What [DumpInfo] reads of a [tmtypes.Header] and of a
    [tmtypes.Commit]: [Height], and the bytes of [BlockID.Hash]. *)
Record tmtypes_Header := { Header_Height : Z }.
Record tmtypes_Commit := { Commit_BlockID_Hash : string }.

(** [tmtypes.SignedHeader] holds two pointers, the embedded [*Header] and
    [Commit *Commit]; either may be nil, also in a commit that the node
    returned without error. *)
Record SignedHeader := {
  SignedHeader_Header : option tmtypes_Header;
  SignedHeader_Commit : option tmtypes_Commit
}.

(** [tmbytes.HexBytes.String]: upper-case hex. *)
Definition HexBytes_String (bz : string) : string := hex_encode hex_upper bz.

Record LightRoot := {
  TrustHeight : Z;
  TrustHash : string
}.

(** [json.MarshalIndent] of a [LightRoot], with its field tags. *)
Definition MarshalIndent_LightRoot (lr : LightRoot) : string :=
  MarshalIndent_struct
    [("trust-height", itoa (TrustHeight lr));
     ("trust-hash", encodeString (TrustHash lr))].

(** [NewLightRoot(sh)]: the indented JSON of
    [LightRoot{sh.Header.Height, sh.Commit.BlockID.Hash.String()}].
    [None] is the panic of a nil pointer dereference, when [sh.Header] or
    [sh.Commit] is nil. *)
Definition NewLightRoot (sh : SignedHeader) : option string :=
  match SignedHeader_Header sh with
  | None => None
  | Some hd =>
      match SignedHeader_Commit sh with
      | None => None
      | Some cm =>
          Some (MarshalIndent_LightRoot
                  {| TrustHeight := Header_Height hd;
                     TrustHash := HexBytes_String (Commit_BlockID_Hash cm) |})
      end
  end.

(** [registrar.Config]. *)
Record Config := {
  RPCAddr : string;
  ChainID : string;
  BuildRepo : string;
  BuildCommand : string;
  BinaryName : string;
  BuildVersion : string;
  GithubAccessToken : string;
  RegistryRoot : string;
  RegistryRepo : string;
  RegistryRepoBranch : string;
  GitName : string;
  GitEmail : string;
  CommitMessage : string;
  Workspace : string
}.

(** [(c *Config).Binary()]: the indented JSON of
    [Binary{Name, Repo, Build, Version}]. *)
Definition Config_Binary (c : Config) : string :=
  MarshalIndent_struct
    [("name", encodeString (BinaryName c));
     ("repo", encodeString (BuildRepo c));
     ("build", encodeString (BuildCommand c));
     ("version", encodeString (BuildVersion c))].

(** ** Peers *)

(** What [stringsFromPeers] reads of a [ctypes.Peer]: [p.NodeInfo.ID()],
    [p.RemoteIP] and [p.NodeInfo.ListenAddr]. *)
Record Peer := {
  NodeInfo_ID : string;
  RemoteIP : string;
  NodeInfo_ListenAddr : string
}.

(** The last element of [strings.Split(s, ":")]. *)
Definition last_segment (s : string) : string :=
  match split_last ":"%char s with
  | Some (_, b) => b
  | None => s
  end.

Definition stringsFromPeers (ni : list Peer) : list string :=
  (fun p => NodeInfo_ID p +:+ "@" +:+ RemoteIP p +:+ ":"
            +:+ last_segment (NodeInfo_ListenAddr p)) <$> ni.

(** The order in which a [for k := range e] loop visits the keys of a map
    is not specified: it is some arrangement of the keys. *)
Record MapOrder := {
  range_keys : gmap string bool -> list string;
  range_keys_perm : forall e, range_keys e ≡ₚ (map_to_list e).*1
}.

Definition dedupe (ord : MapOrder) (ele : list string) : list string :=
  let e := foldl (fun e v => <[v := true]> e) ∅ ele in
  range_keys ord e.

(** The peer merge of [DumpInfo]: [dedupe(append(fp, qp...))]. *)
Definition merge_peers (ord : MapOrder) (fp qp : list string) : list string :=
  dedupe ord (fp ++ qp).

(** ** The registry paths: [repoDir] *)

Record repoDir := {
  dir : string;
  chainID : string
}.

Definition chainPath (r : repoDir) : string := path_Join (dir r) (chainID r).
Definition genesisPath (r : repoDir) : string := path_Join (chainPath r) "genesis.json".
Definition genesisSumPath (r : repoDir) : string := path_Join (chainPath r) "genesis.json.sum".
Definition lrpath (r : repoDir) : string := path_Join (chainPath r) "light-roots".
Definition latestPath (r : repoDir) : string := path_Join (lrpath r) "latest.json".
Definition heightPath (r : repoDir) (h : Z) : string := path_Join (lrpath r) (itoa h +:+ ".json").
Definition binariesPath (r : repoDir) : string := path_Join (chainPath r) "binaries.json".
Definition peersPath (r : repoDir) : string := path_Join (chainPath r) "peers.json".

(** ** The node: the RPC client *)

(** What [DumpInfo] reads of a [ctypes.ResultStatus]. *)
Record ResultStatus := {
  NodeInfo_Network : string;
  SyncInfo_CatchingUp : bool;
  SyncInfo_LatestBlockHeight : Z
}.

(** The answers of the node to the four calls of one run.  A call that
    fails returns a nil result and the error. *)
Record Client {GenesisDoc : Type} := {
  Status : result ResultStatus;
  Genesis : result GenesisDoc;
  Commit : Z -> result SignedHeader;
  NetInfo : result (list Peer)
}.
Arguments Client GenesisDoc : clear implicits.

(** ** What a run does: calls, file operations, log lines *)

Inductive Event :=
| RPC_Status
| RPC_Genesis
| RPC_Commit (h : Z)
| RPC_NetInfo
| FS_Stat (p : string)
| FS_Mkdir (p : string)
| FS_Remove (p : string)
| FS_WriteFile (p data : string)
| FS_Open (p : string)
| Log (msg : string) (keyvals : list string).

Definition is_fs_event (e : Event) : bool :=
  match e with
  | FS_Stat _ | FS_Mkdir _ | FS_Remove _ | FS_WriteFile _ _ | FS_Open _ => true
  | _ => false
  end.

(** What [DumpInfo] does to its caller: it returns [err], or the process
    panics on a nil pointer. *)
Inductive Outcome :=
| Returned (err : option error)
| Panicked.

Section pipeline.
Context {float64 : Type}.
Variable parseFloat : string -> option float64.
Variable formatFloat : float64 -> string.
Context {GenesisDoc : Type}.
Variable json_Marshal : GenesisDoc -> result json.
Variable sha256_Sum256 : string -> string.

(** [json.Unmarshal(data, &fp)] with [fp] a [[]string]. *)
Variable json_Unmarshal_strings : string -> result (list string).

(** The state that outlives a call of [DumpInfo]: the disk, the
    package-level variables [gen], [commit], [netInfo] and [eg], and
    the record of what has been done.  Of [eg], an [errgroup.Group],
    only the error is kept: it is set by the first task that fails, under
    a [sync.Once], and [Wait] returns it.  (The package-level [rdir]
    is never read: [DumpInfo] declares its own.) *)
Record World := {
  disk : FS;
  eg : option error;
  gen : option GenesisDoc;
  commit : option SignedHeader;
  netInfo : option (list Peer);
  trace : list Event
}.

Definition w_emit (evs : list Event) (w : World) : World :=
  {| disk := disk w; eg := eg w; gen := gen w; commit := commit w;
     netInfo := netInfo w; trace := trace w ++ evs |}.

Definition w_set_disk (d : FS) (w : World) : World :=
  {| disk := d; eg := eg w; gen := gen w; commit := commit w;
     netInfo := netInfo w; trace := trace w |}.

Definition w_set_gen (g : option GenesisDoc) (w : World) : World :=
  {| disk := disk w; eg := eg w; gen := g; commit := commit w;
     netInfo := netInfo w; trace := trace w |}.

Definition w_set_commit (c : option SignedHeader) (w : World) : World :=
  {| disk := disk w; eg := eg w; gen := gen w; commit := c;
     netInfo := netInfo w; trace := trace w |}.

Definition w_set_netInfo (n : option (list Peer)) (w : World) : World :=
  {| disk := disk w; eg := eg w; gen := gen w; commit := commit w;
     netInfo := n; trace := trace w |}.

(** [g.errOnce.Do(func() { g.err = err })]. *)
Definition w_record (e : error) (w : World) : World :=
  {| disk := disk w;
     eg := match eg w with Some e0 => Some e0 | None => Some e end;
     gen := gen w; commit := commit w; netInfo := netInfo w;
     trace := trace w |}.

(** The state the goroutines of one call share: the world and the
    variable [err], the named result of [DumpInfo], which every closure
    that assigns [err] with [=] captures. *)
Record Frame := {
  world : World;
  err : option error
}.

Definition on_world (f : World -> World) (s : Frame) : Frame :=
  {| world := f (world s); err := err s |}.

Definition set_err (e : option error) (s : Frame) : Frame :=
  {| world := world s; err := e |}.

Definition err_of {T} (r : result T) : option error :=
  match r with
  | inl e => Some e
  | inr _ => None
  end.

(** ** Goroutines

    The body of a goroutine is a resumption: it has returned, it has
    panicked, or it takes one step.  A step started in state [s] leaves
    the state [upd s] and goes on as [k s].  A step holds at most one
    access to the shared variable [err]. *)
Inductive Prog :=
| Ret (r : option error)
| Panic
| Step (upd : Frame -> Frame) (k : Frame -> Prog).

(** Run a body to its end without interference. *)
Fixpoint drive (p : Prog) (s : Frame) : Frame * Prog :=
  match p with
  | Step upd k => drive (k s) (upd s)
  | _ => (s, p)
  end.

Definition is_panic (p : Prog) : bool :=
  match p with
  | Panic => true
  | _ => false
  end.

(** The goroutines of one [errgroup]: the bodies as far as they have
    come, the shared state, and whether one of them has panicked, which
    ends the process. *)
Record Goroutines := {
  pool : list Prog;
  frame : Frame;
  crashed : bool
}.

(** Task [i] has come to [p] in state [s]: when it has returned an
    error, [eg.Go] hands it to the group. *)
Definition settle (i : nat) (p : Prog) (s : Frame) (g : Goroutines)
    : Goroutines :=
  {| pool := <[i := p]> (pool g);
     frame := match p with
              | Ret (Some e) => on_world (w_record e) s
              | _ => s
              end;
     crashed := is_panic p |}.

(** One step of task [i]; no step when it has ended. *)
Definition step_task (g : Goroutines) (i : nat) : Goroutines :=
  if crashed g then g
  else match pool g !! i with
       | Some (Step upd k) => settle i (k (frame g)) (upd (frame g)) g
       | _ => g
       end.

(** Task [i] runs to its end. *)
Definition finish_task (g : Goroutines) (i : nat) : Goroutines :=
  if crashed g then g
  else match pool g !! i with
       | Some (Step upd k) =>
           let '(s, p) := drive (Step upd k) (frame g) in settle i p s g
       | _ => g
       end.

(** [eg.Go] for each of [tasks], then [eg.Wait()].  The schedule names
    the task that takes the next step; when it is used up, the tasks that
    have not ended run to their end one after the other.  Every
    interleaving of the steps is the run of some schedule. *)
Definition run_group (sched : list nat) (tasks : list Prog) (s : Frame)
    : Goroutines :=
  foldl finish_task
    (foldl step_task {| pool := tasks; frame := s; crashed := false |} sched)
    (seq 0 (length tasks)).

(** ** Writing files *)

(** [writeFile(pth, payload, log)]; [cont] receives what it returns. *)
Definition writeFile (pth payload : string) (cont : option error -> Prog)
    : Prog :=
  Step
    (on_world (fun w =>
       w_set_disk (ioutil_WriteFile (disk w) pth payload).2
         (w_emit [Log ("writing pth " +:+ path_Base pth) [];
                  FS_WriteFile pth payload] w)))
    (fun s =>
       cont match (ioutil_WriteFile (disk (world s)) pth payload).1 with
            | Some e => Some (Errorf ("writing " +:+ pth +:+ ": " +:+ Error e))
            | None => None
            end).

(** [updateFile(pth, payload, log)]: [os.Remove], whose error is
    dropped, then [writeFile]. *)
Definition updateFile (pth payload : string) (cont : option error -> Prog)
    : Prog :=
  Step
    (on_world (fun w =>
       w_set_disk (os_Remove (disk w) pth).2
         (w_emit [Log ("deleting pth " +:+ path_Base pth) [];
                  FS_Remove pth] w)))
    (fun _ => writeFile pth payload cont).

(** [updateFileGo(pth, payload, log)]: the closure handed to [eg.Go]. *)
Definition updateFileGo (pth payload : string) : Prog :=
  updateFile pth payload Ret.

(** [createDirIfNotExist(pth, log)]; it runs in the goroutine of
    [DumpInfo] while no task is running, and its [err] is its own. *)
Definition createDirIfNotExist (pth : string) (w : World)
    : option error * World :=
  let w1 := w_emit [FS_Stat pth] w in
  if os_IsNotExist (os_Stat (disk w) pth) then
    let w2 := w_emit [Log "creating directory" ["dir"; path_Base pth];
                      FS_Mkdir pth] w1 in
    match os_Mkdir (disk w) pth with
    | (Some e, _) =>
        (Some (Errorf ("making dir " +:+ pth +:+ ": " +:+ Error e)), w2)
    | (None, d) => (None, w_set_disk d w2)
    end
  else (None, w1).

(** ** The tasks of the fetch phase *)

(** [if err != nil { return fmt.Errorf(prefix, err) }], then the log
    line and [return nil]: one read of the shared [err]. *)
Definition check_fetched (prefix : string) (line : Event) : Prog :=
  Step
    (fun s => match err s with
              | Some _ => s
              | None => on_world (w_emit [line]) s
              end)
    (fun s => match err s with
              | Some e => Ret (Some (Errorf (prefix +:+ Error e)))
              | None => Ret None
              end).

(** [gen, err = client.Genesis()]. *)
Definition fetchGenesis (client : Client GenesisDoc) (config : Config)
    : Prog :=
  Step
    (fun s => set_err (err_of (Genesis client))
                (on_world (fun w => w_set_gen (to_option (Genesis client))
                                      (w_emit [RPC_Genesis] w)) s))
    (fun _ => check_fetched "genesis file: "
                (Log "GET /genesis" ["rpc-addr"; RPCAddr config])).

(** [h := stat.SyncInfo.LatestBlockHeight; commit, err = client.Commit(&h)]. *)
Definition fetchCommit (client : Client GenesisDoc) (config : Config)
    (stat : ResultStatus) : Prog :=
  let h := SyncInfo_LatestBlockHeight stat in
  Step
    (fun s => set_err (err_of (Commit client h))
                (on_world (fun w => w_set_commit (to_option (Commit client h))
                                      (w_emit [RPC_Commit h] w)) s))
    (fun _ => check_fetched "commit: "
                (Log ("GET /commit?height=" +:+ itoa h)
                     ["rpc-addr"; RPCAddr config])).

(** [netInfo, err = client.NetInfo()]. *)
Definition fetchNetInfo (client : Client GenesisDoc) (config : Config)
    : Prog :=
  Step
    (fun s => set_err (err_of (NetInfo client))
                (on_world (fun w => w_set_netInfo (to_option (NetInfo client))
                                      (w_emit [RPC_NetInfo] w)) s))
    (fun _ => check_fetched "net-info: "
                (Log "GET /net_info" ["rpc-addr"; RPCAddr config])).

(** ** The tasks of the persist phase *)

(** The body of [if os.IsNotExist(err)] of the genesis task: here [err]
    is the task's own, declared by [sum, write, err := ...]. *)
Definition writeGenesis (rdir : repoDir) (s : Frame) : Prog :=
  match gen (world s) with
  | None => Panic
  | Some g =>
      match sortedGenesis parseFloat formatFloat json_Marshal
              sha256_Sum256 g with
      | inl e => Ret (Some (Errorf ("sorting genesis file: " +:+ Error e)))
      | inr (sum, write) =>
          writeFile (genesisSumPath rdir) sum
            (fun r => match r with
                      | Some e => Ret (Some e)
                      | None => writeFile (genesisPath rdir) write Ret
                      end)
      end
  end.

(** The genesis task: [_, err = os.Stat(rdir.genesisPath())] assigns the
    shared [err], and [os.IsNotExist(err)] reads it. *)
Definition persistGenesis (rdir : repoDir) : Prog :=
  Step
    (fun s => set_err (os_Stat (disk (world s)) (genesisPath rdir))
                (on_world (w_emit [FS_Stat (genesisPath rdir)]) s))
    (fun _ =>
       Step (fun s => s)
         (fun s => if os_IsNotExist (err s) then writeGenesis rdir s
                   else Ret None)).

(** The peers task when [os.IsNotExist(err)]: the discovered list is
    written as it is. *)
Definition populatePeers (rdir : repoDir) (qp : list string) : Prog :=
  Step
    (on_world (w_emit [Log "no peers file, popoulating from /net_info"
                         ["num"; itoa (Z.of_nat (length qp))]]))
    (fun _ => writeFile (peersPath rdir) (MarshalIndent_strings qp) Ret).

(** The peers task otherwise: read the file, merge, replace the file.
    From [pf, err := os.Open(...)] on, [err] is the task's own. *)
Definition mergePeers (ord : MapOrder) (rdir : repoDir) (qp : list string)
    : Prog :=
  Step
    (on_world (w_emit [FS_Open (peersPath rdir)]))
    (fun s =>
       match os_Open (disk (world s)) (peersPath rdir) with
       | inl e => Ret (Some (Errorf ("opening peer file: " +:+ Error e)))
       | inr pf =>
           match ioutil_ReadAll (peersPath rdir) pf with
           | inl e => Ret (Some (Errorf ("reading peer file: " +:+ Error e)))
           | inr pfb =>
               match json_Unmarshal_strings pfb with
               | inl e =>
                   Ret (Some (Errorf ("unmarshaling peer strings: "
                                      +:+ Error e)))
               | inr fp =>
                   let ps := dedupe ord (fp ++ qp) in
                   Step
                     (on_world (w_emit
                        [Log ("added "
                              +:+ itoa (Z.of_nat (length ps)
                                        - Z.of_nat (length fp))
                              +:+ " new peers to "
                              +:+ path_Base (peersPath rdir)) []]))
                     (fun _ => updateFile (peersPath rdir)
                                 (MarshalIndent_strings ps) Ret)
               end
           end
       end).

(** The peers task: [qp := stringsFromPeers(netInfo.Peers)] panics when
    [netInfo] is nil; [_, err = os.Stat(rdir.peersPath())] assigns the
    shared [err], and [os.IsNotExist(err)] reads it. *)
Definition persistPeers (ord : MapOrder) (rdir : repoDir) : Prog :=
  Step
    (fun s => match netInfo (world s) with
              | None => s
              | Some _ =>
                  set_err (os_Stat (disk (world s)) (peersPath rdir))
                    (on_world (w_emit [FS_Stat (peersPath rdir)]) s)
              end)
    (fun s0 =>
       match netInfo (world s0) with
       | None => Panic
       | Some peers =>
           let qp := stringsFromPeers peers in
           Step (fun s => s)
             (fun s => if os_IsNotExist (err s) then populatePeers rdir qp
                       else mergePeers ord rdir qp)
       end).

(** ** The orchestrator *)

(** What one run meets: the result of [config.Client()] with the answers
    of the node, the interleaving of the tasks of each phase, and the
    order in which [dedupe] ranges over its map. *)
Record Env := {
  dial : result (Client GenesisDoc);
  fetch_schedule : list nat;
  persist_schedule : list nat;
  map_order : MapOrder
}.

Definition fetch_tasks (client : Client GenesisDoc) (config : Config)
    (stat : ResultStatus) : list Prog :=
  [fetchGenesis client config; fetchCommit client config stat;
   fetchNetInfo client config].

(** The closures of the persist phase.  [h] is
    [commit.SignedHeader.Header.Height] and [root] is
    [NewLightRoot(commit.SignedHeader)]: [DumpInfo] has them before it
    hands a closure to [eg.Go]. *)
Definition persist_tasks (ord : MapOrder) (rdir : repoDir)
    (config : Config) (h : Z) (root : string) : list Prog :=
  [updateFileGo (latestPath rdir) root;
   updateFileGo (heightPath rdir h) root;
   updateFileGo (binariesPath rdir) (Config_Binary config);
   persistGenesis rdir;
   persistPeers ord rdir].

(** What [DumpInfo] returns once a group has been waited for. *)
Definition after_group (g : Goroutines) (k : World -> Outcome * World)
    : Outcome * World :=
  if crashed g then (Panicked, world (frame g))
  else k (world (frame g)).

Definition DumpInfo (env : Env) (base chainID : string) (config : Config)
    (w : World) : Outcome * World :=
  match dial env with
  | inl e =>
      (Returned (Some (Errorf ("error creating tendermint client: "
                               +:+ Error e))), w)
  | inr client =>
      let w := w_emit [RPC_Status] w in
      match Status client with
      | inl e =>
          (Returned (Some (Errorf ("error fetching client status: "
                                   +:+ Error e))), w)
      | inr stat =>
          if negb (String.eqb (NodeInfo_Network stat) chainID) then
            (Returned (Some (Errorf
               ("node(" +:+ RPCAddr config +:+ ") is on chain("
                +:+ NodeInfo_Network stat +:+ ") not configured chain("
                +:+ chainID +:+ ")"))), w)
          else if SyncInfo_CatchingUp stat then
            (Returned (Some (Errorf
               ("node(" +:+ RPCAddr config +:+ ") on chain("
                +:+ chainID +:+ ") still catching up"))), w)
          else
            let w := w_emit [Log "GET /status" ["rpc-addr"; RPCAddr config]] w in
            after_group
              (run_group (fetch_schedule env)
                 (fetch_tasks client config stat)
                 {| world := w; err := None |})
              (fun w =>
                 match eg w with
                 | Some e =>
                     (Returned (Some (Errorf ("fetching: " +:+ Error e))), w)
                 | None =>
                     let rdir := {| dir := base; chainID := chainID |} in
                     match createDirIfNotExist (chainPath rdir) w with
                     | (Some e, w) => (Returned (Some e), w)
                     | (None, w) =>
                         match createDirIfNotExist (lrpath rdir) w with
                         | (Some e, w) => (Returned (Some e), w)
                         | (None, w) =>
                             match commit w with
                             | None => (Panicked, w)
                             | Some sh =>
                                 match SignedHeader_Header sh,
                                       NewLightRoot sh with
                                 | Some hd, Some root =>
                                     after_group
                                       (run_group (persist_schedule env)
                                          (persist_tasks (map_order env)
                                             rdir config (Header_Height hd)
                                             root)
                                          {| world := w; err := None |})
                                       (fun w => (Returned (eg w), w))
                                 | _, _ => (Panicked, w)
                                 end
                             end
                         end
                     end
                 end)
      end
  end.
End pipeline.

(** ** The loops of [Unmarshal], by name *)

Section unmarshal_loops.
Context {float64 : Type}.
Variable parseFloat : string -> option float64.

Fixpoint Unmarshal_elems (l : list json) (acc : list value) : result value :=
  match l with
  | [] => Ok (VSlice (rev acc))
  | d :: l' =>
      match Unmarshal parseFloat d with
      | inl e => inl e
      | inr v => Unmarshal_elems l' (v :: acc)
      end
  end.

Fixpoint Unmarshal_members (l : list (string * json))
    (acc : gmap string value) : result value :=
  match l with
  | [] => Ok (VMap acc)
  | (k, d) :: l' =>
      match Unmarshal parseFloat d with
      | inl e => inl e
      | inr v => Unmarshal_members l' (<[k := v]> acc)
      end
  end.

End unmarshal_loops.

(** ** Clean paths *)

(** An element that [path.Clean] keeps. *)
Definition good_elem (e : string) : bool :=
  negb (String.eqb e EmptyString) && negb (String.eqb e ".")
  && negb (occurs slash e).

(** The elements of a clean path, the last one first: [..] stands only
    at the start of a path that is not rooted. *)
Fixpoint normal_kept (rooted : bool) (kept : list string) : bool :=
  match kept with
  | [] => true
  | e :: rest =>
      good_elem e
      && (if String.eqb e ".."
          then negb rooted
               && match rest with
                  | [] => true
                  | top :: _ => String.eqb top ".."
                  end
          else true)
      && normal_kept rooted rest
  end.

(** [c] is the text of a clean path. *)
Definition clean_path (c : string) : Prop :=
  exists rooted elems,
    normal_kept rooted (rev elems) = true /\ c = render rooted elems.

(** What [path.Join] returns: the empty string, or a clean path. *)
Definition joined (c : string) : Prop := c = EmptyString \/ clean_path c.

(** The path of [name] under the directory [c]. *)
Definition under (c name : string) : string :=
  if String.eqb c EmptyString || String.eqb c "." then name
  else if String.eqb c "/" then String slash name
  else c +:+ String slash name.

(** A path that names what the map holds there: it is not empty and none
    of the directories that are always there. *)
Definition is_entry (p : string) : bool :=
  negb (always_dir p) && negb (String.eqb p EmptyString).
(** ** Properties of goroutine bodies *)

Section progs.
Context {GenesisDoc : Type}.
Local Abbreviation Frame := (@Frame GenesisDoc).
Local Abbreviation Prog := (@Prog GenesisDoc).

(** Every step the body may still take, from whatever state, is in [R]. *)
Fixpoint always (R : Frame -> Frame -> Prop) (p : Prog) : Prop :=
  match p with
  | Step upd k => forall s, R s (upd s) /\ always R (k s)
  | _ => True
  end.

(** Whenever the body returns nil, the step that ends it leaves a state
    in [Q]. *)
Fixpoint ensures (Q : Frame -> Prop) (p : Prog) : Prop :=
  match p with
  | Step upd k => forall s, (k s = Ret None -> Q (upd s)) /\ ensures Q (k s)
  | _ => True
  end.

Definition is_step (p : Prog) : bool :=
  match p with
  | Step _ _ => true
  | _ => false
  end.

(** The step leaves the file system entry at [p] as it is. *)
Definition keeps (p : string) (s s' : Frame) : Prop :=
  disk (world s') !! p = disk (world s) !! p.

(** The step leaves the error of the group as it is. *)
Definition keeps_eg (s s' : Frame) : Prop :=
  eg (world s') = eg (world s).

(** From [s] to [s'] the disk has not changed and no file operation
    has been recorded. *)
Definition quiet (s s' : Frame) : Prop :=
  disk (world s') = disk (world s)
  /\ exists evs, trace (world s') = trace (world s) ++ evs
                 /\ existsb is_fs_event evs = false.

(** The files directly under the chain directory are in [w'] as in
    [w]. *)
Definition chain_files_kept (rdir : repoDir) (w w' : @World GenesisDoc)
    : Prop :=
  forall name : string,
    simple_name name = true -> name <> "light-roots" ->
    disk w' !! path_Join (chainPath rdir) name
    = disk w !! path_Join (chainPath rdir) name.

(** The error of the first fetch that fails when the three fetches run
    one after the other in the order in which [DumpInfo] starts them,
    under the name of its artifact. *)
Definition first_fetch_error (client : Client GenesisDoc)
    (stat : ResultStatus) : option string :=
  match Genesis client with
  | inl e => Some ("genesis file: " +:+ Error e)
  | inr _ =>
      match Commit client (SyncInfo_LatestBlockHeight stat) with
      | inl e => Some ("commit: " +:+ Error e)
      | inr _ =>
          match NetInfo client with
          | inl e => Some ("net-info: " +:+ Error e)
          | inr _ => None
          end
      end
  end.

(** While no task has panicked, no body in the pool is [Panic]. *)
Definition no_panic (g : @Goroutines GenesisDoc) : Prop :=
  crashed g = false -> forall i, pool g !! i <> Some Panic.
End progs.

(** ** Decimal digits *)

Definition is_digit (a : ascii) : bool :=
  let n := N_of_ascii a in ((48 <=? n) && (n <=? 57))%N.

Fixpoint all_digits (s : string) : bool :=
  match s with
  | EmptyString => true
  | String a s' => is_digit a && all_digits s'
  end.

(** ** Concrete inputs

    The examples fix what the development leaves open: a float64 is kept
    as its literal, a genesis document is given by the tree of its JSON
    text, the digest is a stand-in, and the decoder of [peers.json] knows
    one text. *)

Definition ex_parseFloat (lit : string) : option string := Some lit.
Definition ex_formatFloat (f : string) : string := f.
Definition ex_Marshal (d : json) : result json := Ok d.
Definition ex_digest (data : string) : string :=
  String (ascii_of_nat (String.length data)) "registrar".

Definition ex_prior : list string := ["a@1.2.3.4:26656"].

(** A peer that the node does not report. *)
Definition ex_prior_gone : list string := ["c@9.9.9.9:26656"].

Definition ex_Unmarshal_strings (data : string) : result (list string) :=
  if String.eqb data (MarshalIndent_strings ex_prior) then Ok ex_prior
  else if String.eqb data (MarshalIndent_strings ex_prior_gone)
       then Ok ex_prior_gone
  else Err (Errorf "invalid character 'o' in literal null (expecting 'u')").

Definition ex_order : MapOrder :=
  {| range_keys := fun e => (map_to_list e).*1;
     range_keys_perm := fun e => reflexivity _ |}.

Definition ex_genesis : json :=
  JObject [("genesis_time", JString "2020-09-01T00:00:00Z");
           ("chain_id", JString "chain-A");
           ("app_state", JObject [("staking", JObject [("bond", JString "uatom")]);
                                  ("auth", JArray [JBool true; JNull])])].

(** The same document with the members of two objects in another order. *)
Definition ex_genesis_reordered : json :=
  JObject [("chain_id", JString "chain-A");
           ("genesis_time", JString "2020-09-01T00:00:00Z");
           ("app_state", JObject [("auth", JArray [JBool true; JNull]);
                                  ("staking", JObject [("bond", JString "uatom")])])].

(** Another genesis document. *)
Definition ex_genesis_other : json :=
  JObject [("chain_id", JString "chain-A"); ("app_state", JObject [])].

Definition ex_config : Config :=
  {| RPCAddr := "http://node:26657"; ChainID := "chain-A";
     BuildRepo := "https://github.com/cosmos/gaia";
     BuildCommand := "make install"; BinaryName := "gaiad";
     BuildVersion := "v2.0.0"; GithubAccessToken := EmptyString;
     RegistryRoot := EmptyString; RegistryRepo := EmptyString;
     RegistryRepoBranch := EmptyString; GitName := EmptyString;
     GitEmail := EmptyString; CommitMessage := EmptyString;
     Workspace := EmptyString |}.

Definition ex_status (network : string) : ResultStatus :=
  {| NodeInfo_Network := network; SyncInfo_CatchingUp := false;
     SyncInfo_LatestBlockHeight := 100 |}.

Definition ex_header (hash : string) (h : Z) : SignedHeader :=
  {| SignedHeader_Header := Some {| Header_Height := h |};
     SignedHeader_Commit := Some {| Commit_BlockID_Hash := hash |} |}.

Definition ex_peers : list Peer :=
  [{| NodeInfo_ID := "a"; RemoteIP := "1.2.3.4";
      NodeInfo_ListenAddr := "tcp://0.0.0.0:26656" |};
   {| NodeInfo_ID := "b"; RemoteIP := "5.6.7.8";
      NodeInfo_ListenAddr := "tcp://0.0.0.0:26656" |}].

(** A node on chain-A that answers every call. *)
Definition ex_client (genesis : json) (hash : string) : Client json :=
  {| Status := Ok (ex_status "chain-A");
     Genesis := Ok genesis;
     Commit := fun h => Ok (ex_header hash h);
     NetInfo := Ok ex_peers |}.

(** The same node when the commit call fails. *)
Definition ex_client_commit_down : Client json :=
  {| Status := Ok (ex_status "chain-A");
     Genesis := Ok ex_genesis;
     Commit := fun _ => Err (Errorf "connection refused");
     NetInfo := Ok ex_peers |}.

(** A node on another chain. *)
Definition ex_client_chain_B : Client json :=
  {| Status := Ok (ex_status "chain-B");
     Genesis := Ok ex_genesis;
     Commit := fun h => Ok (ex_header "AB" h);
     NetInfo := Ok ex_peers |}.

Definition ex_env (client : Client json) (fetch persist : list nat) : Env :=
  {| dial := Ok client; fetch_schedule := fetch; persist_schedule := persist;
     map_order := ex_order |}.

Definition ex_world (d : FS) : World (GenesisDoc := json) :=
  {| disk := d; eg := None; gen := None; commit := None; netInfo := None;
     trace := [] |}.

Definition ex_rdir : repoDir := {| dir := "/registry"; chainID := "chain-A" |}.

(** A registry that holds nothing for the chain yet. *)
Definition ex_disk_empty : FS := {[ "/registry" := Dir ]}.

(** A registry whose chain directories exist. *)
Definition ex_disk_dirs : FS :=
  <["/registry/chain-A/light-roots" := Dir]>
    (<["/registry/chain-A" := Dir]> ex_disk_empty).

(** A registry with a genesis file and its checksum, and no peers file. *)
Definition ex_disk_genesis : FS :=
  <["/registry/chain-A/genesis.json.sum" := File "0a"]>
    (<["/registry/chain-A/genesis.json" := File "{}"]> ex_disk_dirs).

(** A registry with a peers file that holds [ex_prior]. *)
Definition ex_disk_peers : FS :=
  <["/registry/chain-A/peers.json" := File (MarshalIndent_strings ex_prior)]>
    ex_disk_dirs.

(** A registry with a peers file that holds [ex_prior_gone], and no
    genesis file. *)
Definition ex_disk_peers_gone : FS :=
  <["/registry/chain-A/peers.json"
    := File (MarshalIndent_strings ex_prior_gone)]> ex_disk_dirs.

(** A registry with a peers file that is not JSON. *)
Definition ex_disk_peers_corrupt : FS :=
  <["/registry/chain-A/peers.json" := File "not json"]> ex_disk_dirs.

Abbreviation ex_DumpInfo env w :=
  (DumpInfo ex_parseFloat ex_formatFloat ex_Marshal ex_digest
     ex_Unmarshal_strings env "/registry" "chain-A" ex_config w).

(** The persist phase about to start, on [ex_disk_peers]. *)
Definition ex_frame_peers : Frame (GenesisDoc := json) :=
  {| world := {| disk := ex_disk_peers; eg := None; gen := Some ex_genesis;
                 commit := Some (ex_header "AB" 100);
                 netInfo := Some ex_peers; trace := [] |};
     err := None |}.

Definition ex_frame_dirs : Frame (GenesisDoc := json) :=
  {| world := ex_world ex_disk_dirs; err := None |}.

(** A run on the empty registry against the healthy node, its tasks
    interleaved. *)
Abbreviation ex_run :=
  (ex_DumpInfo (ex_env (ex_client ex_genesis "AB") [2; 0; 1] [4; 1; 3; 0; 4])
     (ex_world ex_disk_empty)).

(** ** Classes of characters *)

(** Is every character of [s] in the class [P]? *)
Fixpoint all_chars (P : ascii -> bool) (s : string) : bool :=
  match s with
  | EmptyString => true
  | String a s' => P a && all_chars P s'
  end.

(** The characters [%d] writes. *)
Definition is_decimal (a : ascii) : bool := is_digit a || Ascii.eqb a "-".

(** The value of an upper-case hex digit. *)
Definition unhex (a : ascii) : N :=
  let n := N_of_ascii a in
  if (n <? 58)%N then (n - 48)%N else (n - 55)%N.

Definition is_hex_upper (a : ascii) : bool :=
  let n := N_of_ascii a in
  ((48 <=? n) && (n <? 58) || (65 <=? n) && (n <? 71))%N.

(** ** Bodies that cannot panic *)

Section progs_safety.
Context {GenesisDoc : Type}.

(** Started in a state in [Inv] and stepping through states in [Inv],
    the body keeps [Inv] with each step and never panics. *)
Fixpoint safe (Inv : @Frame GenesisDoc -> Prop) (p : @Prog GenesisDoc)
    : Prop :=
  match p with
  | Step upd k => forall s, Inv s -> Inv (upd s) /\ safe Inv (k s)
  | Panic => False
  | Ret _ => True
  end.
End progs_safety.

(** ** More concrete inputs *)

(** A node on chain-A that is still catching up. *)
Definition ex_client_catching_up : Client json :=
  {| Status := Ok {| NodeInfo_Network := "chain-A";
                     SyncInfo_CatchingUp := true;
                     SyncInfo_LatestBlockHeight := 100 |};
     Genesis := Ok ex_genesis;
     Commit := fun h => Ok (ex_header "AB" h);
     NetInfo := Ok ex_peers |}.

(** A registry where a regular file has the name of the chain directory. *)
Definition ex_disk_file_in_the_way : FS :=
  <["/registry/chain-A" := File "not a directory"]> ex_disk_empty.

(** A process whose group holds the error of an earlier call. *)
Definition ex_world_stale (d : FS) : World (GenesisDoc := json) :=
  {| disk := d; eg := Some (Errorf "commit: connection refused");
     gen := None; commit := None; netInfo := None; trace := [] |}.

(** A registry with a genesis file, its checksum and a peers file that
    holds [ex_prior]. *)
Definition ex_disk_full : FS :=
  <["/registry/chain-A/peers.json" := File (MarshalIndent_strings ex_prior)]>
    ex_disk_genesis.

(** The same node when it stops answering after the status call. *)
Definition ex_client_down : Client json :=
  {| Status := Ok (ex_status "chain-A");
     Genesis := Err (Errorf "connection refused");
     Commit := fun _ => Err (Errorf "connection reset by peer");
     NetInfo := Err (Errorf "context deadline exceeded") |}.

(** A float64 parser that rejects one literal as out of range, and a
    genesis document that holds it. *)
Definition ex_parseFloat_strict (lit : string) : option string :=
  if String.eqb lit "1e999" then None else Some lit.

Definition ex_genesis_overflow : json :=
  JObject [("chain_id", JString "chain-A");
           ("app_state", JObject [("supply", JNumber "1e999")])].

(** ** How far the tasks of a run have come

    The bodies of the tasks as they stand between two steps, and, for runs
    in which the tasks meet what they expect, what holds of the state
    while a task stands at each of them. *)

Section stages.
Context {float64 : Type}.
Variable parseFloat : string -> option float64.
Variable formatFloat : float64 -> string.
Context {GenesisDoc : Type}.
Variable json_Marshal : GenesisDoc -> result json.
Variable sha256_Sum256 : string -> string.
Variable json_Unmarshal_strings : string -> result (list string).

Local Abbreviation Frame := (@Frame GenesisDoc).
Local Abbreviation Prog := (@Prog GenesisDoc).

Variable client : Client GenesisDoc.
Variable config : Config.
Variable stat : ResultStatus.
Variable ord : MapOrder.
Variable rdir : repoDir.
Variable h : Z.
Variable root : string.

(** *** The fetch phase against a node that answers every call *)

Definition fetch_stage (i : nat) (p : Prog) (s : Frame) : Prop :=
  err s = None /\ eg (world s) = None
  /\ (fetch_tasks client config stat !! i = Some p
      \/ (exists prefix line, p = check_fetched prefix line)
      \/ p = Ret None).

(** *** A task [updateFileGo(pth, payload)] *)

Definition update_stage (pth payload : string) (p : Prog) (s : Frame)
    : Prop :=
  (p = updateFileGo pth payload /\ disk (world s) !! pth <> Some Dir)
  \/ (p = writeFile pth payload Ret /\ disk (world s) !! pth = None)
  \/ (p = Ret None /\ disk (world s) !! pth = Some (File payload)).

(** *** The genesis task *)

(** The genesis task about to evaluate [os.IsNotExist(err)]. *)
Definition genesis_check : Prog :=
  Step (fun s => s)
    (fun s => if os_IsNotExist (err s)
              then writeGenesis parseFloat formatFloat json_Marshal
                     sha256_Sum256 rdir s
              else Ret None).

(** The genesis task about to write the checksum. *)
Definition genesis_write (sum bytes : string) : Prog :=
  writeFile (genesisSumPath rdir) sum
    (fun r => match r with
              | Some e => Ret (Some e)
              | None => writeFile (genesisPath rdir) bytes Ret
              end).

(** No [genesis.json] yet. *)
Definition genesis_stage_fresh (sum bytes : string) (p : Prog) (s : Frame)
    : Prop :=
  let gp := disk (world s) !! genesisPath rdir in
  let sp := disk (world s) !! genesisSumPath rdir in
  (p = persistGenesis parseFloat formatFloat json_Marshal sha256_Sum256 rdir
   /\ gp = None /\ sp <> Some Dir)
  \/ (p = genesis_check /\ os_IsNotExist (err s) = true
      /\ gp = None /\ sp <> Some Dir)
  \/ (p = genesis_write sum bytes /\ gp = None /\ sp <> Some Dir)
  \/ (p = writeFile (genesisPath rdir) bytes Ret
      /\ gp = None /\ sp = Some (File sum))
  \/ (p = Ret None /\ gp = Some (File bytes) /\ sp = Some (File sum)).

(** [genesis.json] exists. *)
Definition genesis_stage_steady (n : Node) (osum : option Node) (p : Prog)
    (s : Frame) : Prop :=
  disk (world s) !! genesisPath rdir = Some n
  /\ disk (world s) !! genesisSumPath rdir = osum
  /\ (p = persistGenesis parseFloat formatFloat json_Marshal sha256_Sum256
            rdir
      \/ (p = genesis_check /\ os_IsNotExist (err s) = false)
      \/ p = Ret None).

(** *** The peers task *)

(** The peers task about to evaluate [os.IsNotExist(err)]. *)
Definition peers_check (qp : list string) : Prog :=
  Step (fun s => s)
    (fun s => if os_IsNotExist (err s) then populatePeers rdir qp
              else mergePeers json_Unmarshal_strings ord rdir qp).

(** The peers task about to log what it has merged. *)
Definition peers_merged (fp ps : list string) : Prog :=
  Step
    (on_world (w_emit
       [Log ("added "
             +:+ itoa (Z.of_nat (length ps) - Z.of_nat (length fp))
             +:+ " new peers to " +:+ path_Base (peersPath rdir)) []]))
    (fun _ => updateFile (peersPath rdir) (MarshalIndent_strings ps) Ret).

(** No [peers.json] yet. *)
Definition peers_stage_fresh (qp : list string) (p : Prog) (s : Frame)
    : Prop :=
  let pp := disk (world s) !! peersPath rdir in
  (p = persistPeers json_Unmarshal_strings ord rdir /\ pp = None)
  \/ (p = peers_check qp /\ os_IsNotExist (err s) = true /\ pp = None)
  \/ (p = populatePeers rdir qp /\ pp = None)
  \/ (p = writeFile (peersPath rdir) (MarshalIndent_strings qp) Ret
      /\ pp = None)
  \/ (p = Ret None /\ pp = Some (File (MarshalIndent_strings qp))).

(** [peers.json] holds [data], which decodes to [fp]. *)
Definition peers_stage_steady (qp : list string) (data : string)
    (fp : list string) (p : Prog) (s : Frame) : Prop :=
  let pp := disk (world s) !! peersPath rdir in
  let ps := dedupe ord (fp ++ qp) in
  (p = persistPeers json_Unmarshal_strings ord rdir
   /\ pp = Some (File data))
  \/ (p = peers_check qp /\ os_IsNotExist (err s) = false
      /\ pp = Some (File data))
  \/ (p = mergePeers json_Unmarshal_strings ord rdir qp
      /\ pp = Some (File data))
  \/ (p = peers_merged fp ps /\ pp = Some (File data))
  \/ (p = updateFile (peersPath rdir) (MarshalIndent_strings ps) Ret
      /\ pp = Some (File data))
  \/ (p = writeFile (peersPath rdir) (MarshalIndent_strings ps) Ret
      /\ pp = None)
  \/ (p = Ret None /\ pp = Some (File (MarshalIndent_strings ps))).

(** *** The persist phase *)

(** A step from [s] to [s'] that writes no path outside [X], leaves the
    package-level variables alone, and after which [os.IsNotExist(err)]
    is [b] if it was before. *)
Definition changes_only (X : list string) (b : bool) (s s' : Frame)
    : Prop :=
  eg (world s') = eg (world s)
  /\ gen (world s') = gen (world s)
  /\ netInfo (world s') = netInfo (world s)
  /\ (forall q, q ∉ X -> disk (world s') !! q = disk (world s) !! q)
  /\ (os_IsNotExist (err s) = b -> os_IsNotExist (err s') = b).

(** [stage] describes a task that writes no path outside [X]: from a
    ready state each step moves the task to a stage again, without a
    panic, as a step of the kind above; a stage holds on as long as
    the other tasks keep off [X]; it does not look at the group; and
    when it is a return with an error, that error is [failure]. *)
Definition task_stages (b : bool) (ready : Frame -> Prop) (X : list string)
    (failure : option error) (stage : Prog -> Frame -> Prop) : Prop :=
  (forall upd k s,
      ready s -> stage (Step upd k) s ->
      stage (k s) (upd s) /\ k s <> Panic /\ changes_only X b s (upd s))
  /\ (forall Y t s s',
        changes_only Y b s s' -> (forall q, q ∈ X -> q ∉ Y) ->
        stage t s -> stage t s')
  /\ (forall e t s, stage t s -> stage t (on_world (w_record e) s))
  /\ (forall e s, stage (Ret (Some e)) s -> failure = Some e).

(** What no step of the persist phase changes: the fetched documents
    are there and both directories exist.  The group holds no error,
    or [failure], the error of the one task that is to fail. *)
Definition persist_ready (failure : option error) (g : GenesisDoc)
    (peers : list Peer) (s : Frame) : Prop :=
  (eg (world s) = None \/ eg (world s) = failure)
  /\ gen (world s) = Some g
  /\ netInfo (world s) = Some peers
  /\ node_at (disk (world s)) (chainPath rdir) = Some Dir
  /\ disk (world s) !! lrpath rdir = Some Dir.

(** The stage of task [i]: the three [updateFileGo] tasks, then the
    genesis task and the peers task, each at a stage of the kind the
    registry calls for. *)
Definition persist_stage (failure : option error) (g : GenesisDoc)
    (peers : list Peer) (genesis_stage peers_stage : Prog -> Frame -> Prop)
    (i : nat) (p : Prog) (s : Frame) : Prop :=
  persist_ready failure g peers s
  /\ match i with
     | 0 => update_stage (latestPath rdir) root p s
     | 1 => update_stage (heightPath rdir h) root p s
     | 2 => update_stage (binariesPath rdir) (Config_Binary config) p s
     | 3 => genesis_stage p s
     | 4 => peers_stage p s
     | _ => False
     end.

(** [peers.json] holds [data], which [json.Unmarshal] rejects: the task
    ends with [failure]. *)
Definition peers_stage_corrupt (qp : list string) (data : string)
    (failure : error) (p : Prog) (s : Frame) : Prop :=
  disk (world s) !! peersPath rdir = Some (File data)
  /\ (p = persistPeers json_Unmarshal_strings ord rdir
      \/ (p = peers_check qp /\ os_IsNotExist (err s) = false)
      \/ p = mergePeers json_Unmarshal_strings ord rdir qp
      \/ p = Ret (Some failure)).

(** No [genesis.json] yet, and a genesis document that [sortedGenesis]
    rejects: the task ends with [failure] and writes nothing. *)
Definition genesis_stage_unsortable (osum : option Node) (failure : error)
    (p : Prog) (s : Frame) : Prop :=
  disk (world s) !! genesisPath rdir = None
  /\ disk (world s) !! genesisSumPath rdir = osum
  /\ (p = persistGenesis parseFloat formatFloat json_Marshal sha256_Sum256
            rdir
      \/ (p = genesis_check /\ os_IsNotExist (err s) = true)
      \/ p = Ret (Some failure)).
End stages.

(** ** The peers task wherever it stands *)

Section peers_anywhere.
Context {GenesisDoc : Type}.
Variable json_Unmarshal_strings : string -> result (list string).
Variable ord : MapOrder.
Variable rdir : repoDir.

(** The peers task of a run that discovered [qp], at any of the points
    it can reach whichever way [os.IsNotExist(err)] goes: once it has
    decided what to write, that is a list [l] with every string of [qp],
    and when it has returned nil, [peers.json] holds [l]. *)
Definition peers_stage_any (qp : list string) (p : @Prog GenesisDoc)
    (s : @Frame GenesisDoc) : Prop :=
  p = persistPeers json_Unmarshal_strings ord rdir
  \/ p = peers_check json_Unmarshal_strings ord rdir qp
  \/ p = populatePeers rdir qp
  \/ p = mergePeers json_Unmarshal_strings ord rdir qp
  \/ (exists l,
        (forall x, x ∈ qp -> x ∈ l)
        /\ ((exists fp, p = peers_merged rdir fp l)
            \/ p = updateFile (peersPath rdir) (MarshalIndent_strings l) Ret
            \/ p = writeFile (peersPath rdir) (MarshalIndent_strings l) Ret
            \/ (p = Ret None
                /\ disk (world s) !! peersPath rdir
                   = Some (File (MarshalIndent_strings l)))))
  \/ (exists e, p = Ret (Some e)).
End peers_anywhere.

Local Arguments String.append : simpl nomatch.

(** * The canonicalizer *)

Section canonicalizer_facts.
Context {float64 : Type}.
Variable parseFloat : string -> option float64.
Variable formatFloat : float64 -> string.

Lemma Unmarshal_array l :
  Unmarshal parseFloat (JArray l) = Unmarshal_elems parseFloat l [].
Proof. reflexivity. Qed.

Lemma Unmarshal_object ms :
  Unmarshal parseFloat (JObject ms) = Unmarshal_members parseFloat ms ∅.
Proof. reflexivity. Qed.

(** Members with distinct keys may be stored in any order. *)
Lemma Unmarshal_members_perm ms ms' :
  ms ≡ₚ ms' -> NoDup ms.*1 ->
  forall acc, to_option (Unmarshal_members parseFloat ms acc)
              = to_option (Unmarshal_members parseFloat ms' acc).
Proof.
  induction 1 as [|[k d] ms ms' Hp IH|[k1 d1] [k2 d2] ms|ms ms' ms'' Hp1 IH1 Hp2 IH2];
    intros Hnd acc.
  - reflexivity.
  - cbn. destruct (Unmarshal parseFloat d); [reflexivity|].
    apply IH. by inversion Hnd.
  - cbn. destruct (Unmarshal parseFloat d1), (Unmarshal parseFloat d2);
      try reflexivity.
    rewrite insert_insert_ne; [reflexivity|].
    cbn in Hnd. inversion Hnd as [|?? Hin _]; subst.
    intros ->. apply Hin. left.
  - rewrite IH1 by done. apply IH2.
    by rewrite <-Hp1.
Qed.

Lemma struct_eq_members_keys ms1 ms2 :
  struct_eq_members ms1 ms2 -> ms1.*1 = ms2.*1.
Proof. induction 1; cbn; congruence. Qed.

(** Structurally equal texts decode to the same value. *)
Lemma Unmarshal_struct_eq d1 d2 :
  struct_eq d1 d2 ->
  to_option (Unmarshal parseFloat d1) = to_option (Unmarshal parseFloat d2).
Proof.
  intros H.
  induction H using struct_eq_mut with
    (P0 := fun l1 l2 _ =>
             forall acc, to_option (Unmarshal_elems parseFloat l1 acc)
                         = to_option (Unmarshal_elems parseFloat l2 acc))
    (P1 := fun ms1 ms2 _ =>
             forall acc, to_option (Unmarshal_members parseFloat ms1 acc)
                         = to_option (Unmarshal_members parseFloat ms2 acc));
    try reflexivity.
  - rewrite !Unmarshal_array. apply IHstruct_eq.
  - rewrite !Unmarshal_object, IHstruct_eq.
    apply Unmarshal_members_perm; [done|].
    by rewrite <-(struct_eq_members_keys _ _ s).
  - intros acc. cbn.
    destruct (Unmarshal parseFloat d1), (Unmarshal parseFloat d2);
      cbn in IHstruct_eq; try discriminate; try reflexivity.
    injection IHstruct_eq as ->. apply IHstruct_eq0.
  - intros acc. cbn.
    destruct (Unmarshal parseFloat d1), (Unmarshal parseFloat d2);
      cbn in IHstruct_eq; try discriminate; try reflexivity.
    injection IHstruct_eq as ->. apply IHstruct_eq0.
Qed.

Lemma json_ind' (P : json -> Prop) :
  P JNull -> (forall b, P (JBool b)) -> (forall lit, P (JNumber lit)) ->
  (forall s, P (JString s)) ->
  (forall l, Forall P l -> P (JArray l)) ->
  (forall ms, Forall (fun kv => P kv.2) ms -> P (JObject ms)) ->
  forall d, P d.
Proof.
  intros Hnull Hbool Hnum Hstr Harr Hobj.
  fix IH 1. intros [|b|lit|s|l|ms].
  - exact Hnull.
  - apply Hbool.
  - apply Hnum.
  - apply Hstr.
  - apply Harr. induction l as [|d l IHl]; constructor; [apply IH|apply IHl].
  - apply Hobj. induction ms as [|[k d] ms IHms]; constructor;
      [apply IH|apply IHms].
Qed.

(** A text whose numbers all fit a float64 decodes. *)
Lemma Unmarshal_total d :
  numbers_parse parseFloat d = true ->
  exists v, Unmarshal parseFloat d = inr v.
Proof.
  induction d as [| | | |l IH|ms IH] using json_ind'; cbn [numbers_parse];
    intros Hn; try (eexists; reflexivity).
  - apply bool_decide_eq_true in Hn as [f Hf]. exists (VFloat f).
    cbn. by rewrite Hf.
  - rewrite Unmarshal_array. generalize (@nil (@value float64)).
    induction IH as [|d l Hd _ IHl]; intros acc; [by eexists|].
    cbn in Hn. apply andb_true_iff in Hn as [Hn1 Hn2].
    destruct (Hd Hn1) as [v Hv]. cbn. rewrite Hv. by apply IHl.
  - rewrite Unmarshal_object. generalize (∅ : gmap string (@value float64)).
    induction IH as [|[k d] ms Hd _ IHms]; intros acc; [by eexists|].
    cbn in Hn. apply andb_true_iff in Hn as [Hn1 Hn2].
    destruct (Hd Hn1) as [v Hv]. cbn in Hv |- *. rewrite Hv. by apply IHms.
Qed.

Context {GenesisDoc : Type}.
Variable json_Marshal : GenesisDoc -> result json.
Variable sha256_Sum256 : string -> string.

(** C1. Two genesis documents whose JSON texts are structurally equal
    (the same tree of key/value data, the members of each object in any
    order) get the same canonical bytes and the same hex SHA-256
    checksum from [sortedGenesis]; and when the numbers of the text fit a
    float64, [sortedGenesis] does return them. *)
Theorem sortedGenesis_deterministic (g1 g2 : GenesisDoc) (d1 d2 : json) :
  json_Marshal g1 = Ok d1 ->
  json_Marshal g2 = Ok d2 ->
  struct_eq d1 d2 ->
  to_option (sortedGenesis parseFloat formatFloat json_Marshal sha256_Sum256 g1)
  = to_option (sortedGenesis parseFloat formatFloat json_Marshal sha256_Sum256 g2)
  /\ (numbers_parse parseFloat d1 = true ->
      exists sum indented,
        sortedGenesis parseFloat formatFloat json_Marshal sha256_Sum256 g1
        = Ok (sum, indented)
        /\ sortedGenesis parseFloat formatFloat json_Marshal sha256_Sum256 g2
           = Ok (sum, indented)).
Proof.
  intros H1 H2 Heq. unfold sortedGenesis. rewrite H1, H2. cbn.
  pose proof (Unmarshal_struct_eq _ _ Heq) as Hu.
  split.
  - destruct (Unmarshal parseFloat d1), (Unmarshal parseFloat d2);
      cbn in Hu; try discriminate; try reflexivity.
    by injection Hu as ->.
  - intros Hn. destruct (Unmarshal_total _ Hn) as [v Hv].
    rewrite Hv in Hu |- *.
    destruct (Unmarshal parseFloat d2); cbn in Hu; [discriminate|].
    injection Hu as <-. by eexists _, _.
Qed.
End canonicalizer_facts.

(** * Paths *)

(** ** Strings *)

Lemma append_assoc (a b c : string) : (a +:+ b) +:+ c = a +:+ (b +:+ c).
Proof. induction a; cbn; congruence. Qed.

Lemma append_inv_head (a b c : string) : a +:+ b = a +:+ c -> b = c.
Proof. induction a; cbn; [done|]. intros [= H]. auto. Qed.

Lemma append_nonempty (a b : string) : b <> EmptyString -> a +:+ b <> EmptyString.
Proof. destruct a; cbn; [done|]. discriminate. Qed.

Lemma append_eq_self (a b : string) : a +:+ b = a -> b = EmptyString.
Proof. induction a as [|x a IH]; cbn; [done|]. intros [= H]. auto. Qed.

Lemma append_length (a b : string) :
  String.length (a +:+ b) = String.length a + String.length b.
Proof. induction a as [|x a IH]; cbn; [done|]. by rewrite IH. Qed.

Lemma append_empty_r (a : string) : a +:+ EmptyString = a.
Proof. induction a; cbn; congruence. Qed.

Lemma occurs_append c (a b : string) :
  occurs c (a +:+ b) = occurs c a || occurs c b.
Proof.
  induction a as [|x a IH]; cbn; [done|]. by rewrite IH, orb_assoc.
Qed.

(** ** The last occurrence of a character *)

Lemma split_last_shorter c p d b :
  split_last c p = Some (d, b) -> String.length d < String.length p.
Proof.
  revert d b. induction p as [|a p IH]; intros d b; cbn; [discriminate|].
  destruct (split_last c p) as [[d' b']|] eqn:Hs.
  - intros [= <- <-]. cbn. specialize (IH _ _ eq_refl). lia.
  - destruct (Ascii.eqb a c); [|discriminate]. intros [= <- <-]. cbn. lia.
Qed.

Lemma split_last_ne c p d b : split_last c p = Some (d, b) -> d <> p.
Proof. intros H%split_last_shorter ->. lia. Qed.

Lemma split_last_None c s : split_last c s = None -> occurs c s = false.
Proof.
  induction s as [|a s IH]; cbn; [done|].
  destruct (split_last c s) as [[d b]|]; [done|].
  destruct (Ascii.eqb a c); [done|]. intros _. by apply IH.
Qed.

Lemma split_last_Some c s d b :
  split_last c s = Some (d, b) -> s = d +:+ String c b /\ occurs c b = false.
Proof.
  revert d b. induction s as [|a s IH]; intros d b; cbn; [done|].
  destruct (split_last c s) as [[d' b']|] eqn:Hs.
  - intros [= <- <-]. destruct (IH _ _ eq_refl) as [-> Hb]. by split.
  - destruct (Ascii.eqb a c) eqn:Ha; [|done]. intros [= <- <-].
    apply Ascii.eqb_eq in Ha as ->. split; [done|]. by apply split_last_None.
Qed.

Lemma split_last_append c (a b : string) :
  occurs c b = false -> split_last c (a +:+ String c b) = Some (a, b).
Proof.
  intros Hb. induction a as [|x a IH]; cbn.
  - destruct (split_last c b) as [[d b']|] eqn:Hs.
    + apply split_last_Some in Hs as [-> Hs]. rewrite occurs_append in Hb.
      cbn in Hb. rewrite Ascii.eqb_refl, orb_true_r in Hb. done.
    + by rewrite Ascii.eqb_refl.
  - by rewrite IH.
Qed.

Lemma split_last_no_occurrence c s : occurs c s = false -> split_last c s = None.
Proof.
  intros Hs. destruct (split_last c s) as [[d b]|] eqn:H; [|done].
  apply split_last_Some in H as [-> H]. rewrite occurs_append in Hs.
  cbn in Hs. by rewrite Ascii.eqb_refl, orb_true_r in Hs.
Qed.

(** ** The pieces between the occurrences of a character *)

Lemma split_on_nonempty c s : split_on c s <> [].
Proof.
  destruct s as [|a s]; cbn; [done|].
  destruct (Ascii.eqb a c); [done|]. by destruct (split_on c s).
Qed.

Lemma split_on_app c (a b : string) :
  split_on c (a +:+ String c b) = split_on c a ++ split_on c b.
Proof.
  induction a as [|x a IH]; cbn.
  - by rewrite Ascii.eqb_refl.
  - destruct (Ascii.eqb x c); [by rewrite IH|]. rewrite IH.
    pose proof (split_on_nonempty c a). by destruct (split_on c a).
Qed.

Lemma split_on_no_occurrence c s : occurs c s = false -> split_on c s = [s].
Proof.
  induction s as [|a s IH]; cbn; [done|].
  intros [Ha Hs]%orb_false_iff. rewrite Ha. by rewrite IH.
Qed.

Lemma split_on_no_sep c s : Forall (fun e => occurs c e = false) (split_on c s).
Proof.
  induction s as [|a s IH]; cbn; [by constructor|].
  destruct (Ascii.eqb a c) eqn:Ha; [by constructor|].
  destruct (split_on c s) as [|y l]; inversion IH; subst;
    constructor; cbn; rewrite ?Ha; done.
Qed.

Lemma concat_cons2 (sep e e' : string) l :
  String.concat sep (e :: e' :: l)
  = e +:+ sep +:+ String.concat sep (e' :: l).
Proof. reflexivity. Qed.

Lemma split_on_concat c (l : list string) :
  l <> [] -> Forall (fun e => occurs c e = false) l ->
  split_on c (String.concat (String c EmptyString) l) = l.
Proof.
  induction l as [|e l IH]; [done|]. intros _ Hf.
  inversion Hf as [|?? He Hl]; subst.
  destruct l as [|e' l'].
  - cbn. by apply split_on_no_occurrence.
  - rewrite concat_cons2.
    change (e +:+ String c EmptyString +:+ String.concat (String c EmptyString) (e' :: l'))
      with (e +:+ String c (String.concat (String c EmptyString) (e' :: l'))).
    rewrite split_on_app, split_on_no_occurrence by done.
    by rewrite IH.
Qed.

Lemma concat_snoc (sep : string) (l : list string) (n : string) :
  l <> [] ->
  String.concat sep (l ++ [n]) = String.concat sep l +:+ sep +:+ n.
Proof.
  induction l as [|e l IH]; [done|]. intros _.
  destruct l as [|e' l'].
  - reflexivity.
  - change ((e :: e' :: l') ++ [n]) with (e :: (e' :: l') ++ [n]).
    change ((e' :: l') ++ [n]) with (e' :: (l' ++ [n])).
    rewrite concat_cons2.
    change (e' :: l' ++ [n]) with ((e' :: l') ++ [n]).
    rewrite IH by done. rewrite concat_cons2. by rewrite !append_assoc.
Qed.

(** ** [path.Clean] *)

Lemma good_elem_spec e :
  good_elem e = true
  <-> e <> EmptyString /\ e <> "." /\ occurs slash e = false.
Proof.
  unfold good_elem.
  rewrite !andb_true_iff, !negb_true_iff, !String.eqb_neq. tauto.
Qed.

Lemma simple_name_spec n :
  simple_name n = true
  <-> n <> EmptyString /\ n <> "." /\ n <> ".." /\ occurs slash n = false.
Proof.
  unfold simple_name.
  rewrite !andb_true_iff, !negb_true_iff, !String.eqb_neq. tauto.
Qed.

Lemma simple_good n : simple_name n = true -> good_elem n = true.
Proof. rewrite simple_name_spec, good_elem_spec. tauto. Qed.

Lemma clean_push_simple r kept n :
  simple_name n = true -> clean_push r kept n = n :: kept.
Proof.
  intros (H1 & H2 & H3 & _)%simple_name_spec. unfold clean_push.
  apply String.eqb_neq in H1, H2, H3. by rewrite H1, H2, H3.
Qed.

Lemma normal_kept_unfold r e kept :
  normal_kept r (e :: kept)
  = good_elem e
    && (if String.eqb e ".."
        then negb r && match kept with
                       | [] => true
                       | top :: _ => String.eqb top ".."
                       end
        else true)
    && normal_kept r kept.
Proof. reflexivity. Qed.

Lemma normal_kept_cons r e kept :
  normal_kept r (e :: kept) = true ->
  good_elem e = true /\ normal_kept r kept = true
  /\ (e = ".." -> r = false /\ (kept = [] \/ exists rest, kept = ".." :: rest)).
Proof.
  cbn [normal_kept]. rewrite !andb_true_iff. intros [[Hg Hd] Hn].
  split; [done|]. split; [done|]. intros ->. cbn in Hd.
  apply andb_true_iff in Hd as [Hr Ht]. apply negb_true_iff in Hr.
  split; [done|]. destruct kept as [|top rest]; [by left|].
  apply String.eqb_eq in Ht as ->. right. by eexists.
Qed.

Lemma clean_push_keep r kept e :
  normal_kept r (e :: kept) = true -> clean_push r kept e = e :: kept.
Proof.
  intros (Hg & _ & Hd)%normal_kept_cons.
  apply good_elem_spec in Hg as (H1 & H2 & _).
  unfold clean_push. apply String.eqb_neq in H1, H2. rewrite H1, H2. cbn.
  destruct (String.eqb e "..") eqn:He; [|done].
  apply String.eqb_eq in He. destruct (Hd He) as [-> [->|[rest ->]]]; done.
Qed.

Lemma clean_push_normal r kept e :
  occurs slash e = false -> normal_kept r kept = true ->
  normal_kept r (clean_push r kept e) = true.
Proof.
  intros Hs Hk. unfold clean_push.
  destruct (String.eqb e EmptyString || String.eqb e ".") eqn:H1; [done|].
  apply orb_false_iff in H1 as [H1 H2].
  destruct (String.eqb e "..") eqn:H3.
  - apply String.eqb_eq in H3 as ->.
    destruct kept as [|top rest]; [by destruct r|].
    destruct (String.eqb top "..") eqn:Ht.
    + apply String.eqb_eq in Ht as ->.
      destruct (normal_kept_cons _ _ _ Hk) as (_ & _ & Hd).
      destruct (Hd eq_refl) as [-> _].
      by rewrite normal_kept_unfold, Hk.
    + by destruct (normal_kept_cons _ _ _ Hk) as (_ & ? & _).
  - rewrite normal_kept_unfold, H3, Hk.
    unfold good_elem. by rewrite H1, H2, Hs.
Qed.

Lemma foldl_clean_normal r (elems kept : list string) :
  Forall (fun e => occurs slash e = false) elems ->
  normal_kept r kept = true ->
  normal_kept r (foldl (clean_push r) kept elems) = true.
Proof.
  intros Hf. revert kept. induction Hf as [|e l He _ IH]; intros kept Hk;
    [done|].
  cbn. apply IH. by apply clean_push_normal.
Qed.

Lemma foldl_clean_keep r kept :
  normal_kept r kept = true -> foldl (clean_push r) [] (rev kept) = kept.
Proof.
  induction kept as [|e kept IH]; [done|]. intros Hk.
  cbn [rev]. rewrite foldl_app. cbn.
  destruct (normal_kept_cons _ _ _ Hk) as (_ & Hn & _).
  rewrite IH by done. by apply clean_push_keep.
Qed.

Lemma clean_elems_keep r elems :
  normal_kept r (rev elems) = true -> clean_elems r elems = elems.
Proof.
  intros H. unfold clean_elems.
  rewrite <-(rev_involutive elems) at 1.
  by rewrite foldl_clean_keep, rev_involutive.
Qed.

Lemma clean_elems_snoc r elems n :
  simple_name n = true ->
  clean_elems r (elems ++ [n]) = clean_elems r elems ++ [n].
Proof.
  intros Hn. unfold clean_elems. rewrite foldl_app. cbn.
  by rewrite clean_push_simple.
Qed.

Lemma clean_elems_skip r elems :
  clean_elems r (EmptyString :: elems) = clean_elems r elems.
Proof. reflexivity. Qed.

Lemma normal_kept_good r kept :
  normal_kept r kept = true -> Forall (fun e => good_elem e = true) kept.
Proof.
  induction kept as [|e kept IH]; [by constructor|].
  intros (? & ? & _)%normal_kept_cons. constructor; auto.
Qed.

Lemma normal_good r elems :
  normal_kept r (rev elems) = true ->
  Forall (fun e => good_elem e = true) elems.
Proof.
  intros H%normal_kept_good. rewrite Forall_forall in H |- *.
  intros x Hx. apply H. apply list_elem_of_In, in_rev.
  rewrite rev_involutive. by apply list_elem_of_In.
Qed.

Lemma normal_no_slash r elems :
  normal_kept r (rev elems) = true ->
  Forall (fun e => occurs slash e = false) elems.
Proof.
  intros H%normal_good. eapply Forall_impl; [exact H|].
  by intros e (_ & _ & ?)%good_elem_spec.
Qed.

Lemma normal_snoc r elems n :
  simple_name n = true ->
  normal_kept r (rev elems) = true ->
  normal_kept r (rev (elems ++ [n])) = true.
Proof.
  intros Hn Hk. rewrite rev_app_distr. cbn [rev app].
  rewrite normal_kept_unfold, Hk, (simple_good _ Hn).
  apply simple_name_spec in Hn as (_ & _ & Hn & _).
  apply String.eqb_neq in Hn. by rewrite Hn.
Qed.

Lemma good_not_rooted e : good_elem e = true -> is_rooted e = false.
Proof.
  intros (He & _ & Hs)%good_elem_spec. destruct e as [|a e]; [done|].
  cbn in Hs |- *. by apply orb_false_iff in Hs as [-> _].
Qed.

Lemma is_rooted_append (e s : string) :
  e <> EmptyString -> is_rooted (e +:+ s) = is_rooted e.
Proof. by destruct e. Qed.

Lemma concat_head (sep e : string) l :
  exists s, String.concat sep (e :: l) = e +:+ s.
Proof.
  destruct l as [|e' l]; [exists EmptyString; cbn; by rewrite append_empty_r|].
  rewrite concat_cons2. by eexists.
Qed.

Lemma concat_not_rooted (elems : list string) :
  elems <> [] -> Forall (fun e => good_elem e = true) elems ->
  is_rooted (String.concat "/" elems) = false
  /\ String.concat "/" elems <> EmptyString
  /\ String.concat "/" elems <> ".".
Proof.
  destruct elems as [|e l]; [done|]. intros _ Hf.
  inversion Hf as [|?? He Hl]; subst.
  pose proof (good_not_rooted _ He) as Hr.
  apply good_elem_spec in He as (H1 & H2 & H3).
  destruct (concat_head "/" e l) as [s Hs].
  split; [|split].
  - rewrite Hs. by rewrite is_rooted_append.
  - rewrite Hs. by destruct e.
  - destruct l as [|e' l'].
    + exact H2.
    + rewrite concat_cons2. intros H.
      apply (f_equal String.length) in H. rewrite !append_length in H.
      cbn in H. destruct e; [done|]. cbn in H. lia.
Qed.

Lemma render_relative (elems : list string) :
  elems <> [] -> render false elems = String.concat "/" elems.
Proof. by destruct elems. Qed.

Lemma render_rooted r elems :
  normal_kept r (rev elems) = true -> is_rooted (render r elems) = r.
Proof.
  intros Hk. destruct r; [done|]. cbn.
  destruct elems as [|e l] eqn:E; [done|]. rewrite <-E in *.
  apply concat_not_rooted; [by rewrite E|by eapply normal_good].
Qed.

Lemma render_nonempty r elems :
  normal_kept r (rev elems) = true -> render r elems <> EmptyString.
Proof.
  intros Hk. destruct r; [done|]. cbn.
  destruct elems as [|e l] eqn:E; [done|]. rewrite <-E in *.
  apply concat_not_rooted; [by rewrite E|by eapply normal_good].
Qed.

Lemma split_render r elems :
  normal_kept r (rev elems) = true ->
  clean_elems r (split_on slash (render r elems)) = elems.
Proof.
  intros Hk. pose proof (normal_no_slash _ _ Hk) as Hs.
  destruct elems as [|e l] eqn:E.
  - by destruct r.
  - rewrite <-E in *.
    assert (split_on slash (String.concat "/" elems) = elems) as Hsplit.
    { apply (split_on_concat slash); [by rewrite E|done]. }
    destruct r.
    + cbn [render split_on]. rewrite Ascii.eqb_refl, clean_elems_skip, Hsplit.
      by apply clean_elems_keep.
    + rewrite render_relative by by rewrite E.
      rewrite Hsplit. by apply clean_elems_keep.
Qed.

(** [path.Clean] leaves a clean path as it is. *)
Lemma path_Clean_render r elems :
  normal_kept r (rev elems) = true ->
  path_Clean (render r elems) = render r elems.
Proof.
  intros Hk. unfold path_Clean. by rewrite render_rooted, split_render.
Qed.

Lemma path_Clean_clean p : clean_path (path_Clean p).
Proof.
  exists (is_rooted p), (clean_elems (is_rooted p) (split_on slash p)).
  split; [|done]. unfold clean_elems. rewrite rev_involutive.
  apply foldl_clean_normal; [apply split_on_no_sep|done].
Qed.

Lemma path_Clean_idempotent p : path_Clean (path_Clean p) = path_Clean p.
Proof.
  destruct (path_Clean_clean p) as (r & elems & Hk & ->).
  by apply path_Clean_render.
Qed.

Lemma path_Join_joined a b : joined (path_Join a b).
Proof.
  destruct a as [|x a], b as [|y b]; [by left|right..]; apply path_Clean_clean.
Qed.

(** ** An entry of a clean directory *)

Lemma under_render r elems n :
  normal_kept r (rev elems) = true -> simple_name n = true ->
  under (render r elems) n = render r (elems ++ [n]).
Proof.
  intros Hk Hn. unfold under.
  destruct elems as [|e l] eqn:E.
  - by destruct r.
  - rewrite <-E in *.
    assert (elems <> []) as Hne by by rewrite E.
    destruct (concat_not_rooted elems Hne (normal_good _ _ Hk))
      as (Hr & H1 & H2).
    destruct r.
    + cbn [render]. rewrite concat_snoc by done.
      destruct (String.concat "/" elems) as [|a s] eqn:Hc; [done|].
      reflexivity.
    + rewrite !render_relative by (try done; by destruct elems).
      rewrite concat_snoc by done.
      apply String.eqb_neq in H1, H2. rewrite H1, H2. cbn [orb].
      destruct (String.eqb (String.concat "/" elems) "/") eqn:H3; [|done].
      apply String.eqb_eq in H3. by rewrite H3 in Hr.
Qed.

Lemma path_Clean_entry r elems n :
  normal_kept r (rev elems) = true -> simple_name n = true ->
  path_Clean (render r elems +:+ String slash n) = render r (elems ++ [n]).
Proof.
  intros Hk Hn. unfold path_Clean.
  rewrite is_rooted_append by by apply render_nonempty.
  rewrite render_rooted by done.
  rewrite split_on_app.
  apply simple_name_spec in Hn as Hn'. destruct Hn' as (_ & _ & _ & Hs).
  rewrite (split_on_no_occurrence _ n Hs).
  by rewrite clean_elems_snoc, split_render.
Qed.

Lemma path_Join_nonempty (a b : string) :
  a <> EmptyString -> path_Join a b = path_Clean (a +:+ String slash b).
Proof. by destruct a, b. Qed.

Lemma path_Clean_simple n : simple_name n = true -> path_Clean n = n.
Proof.
  intros Hn. unfold path_Clean.
  rewrite (good_not_rooted _ (simple_good _ Hn)).
  apply simple_name_spec in Hn as Hn'. destruct Hn' as (_ & _ & _ & Hs).
  rewrite (split_on_no_occurrence _ n Hs).
  pose proof (clean_elems_snoc false [] n Hn) as H. cbn [app] in H.
  by rewrite H.
Qed.

(** [path.Join] of what [path.Join] has returned and a name of one
    element. *)
Lemma path_Join_under c n :
  joined c -> simple_name n = true -> path_Join c n = under c n.
Proof.
  intros [->|(r & elems & Hk & ->)] Hn.
  - rewrite <-(path_Clean_simple n Hn) at 2.
    apply simple_name_spec in Hn as (H1 & _). by destruct n.
  - rewrite path_Join_nonempty by by apply render_nonempty.
    by rewrite path_Clean_entry, under_render.
Qed.

Lemma under_joined c n :
  joined c -> simple_name n = true -> clean_path (under c n).
Proof.
  intros [->|(r & elems & Hk & ->)] Hn.
  - exists false, [n]. split; [by apply (normal_snoc false [])|done].
  - exists r, (elems ++ [n]). split; [by apply normal_snoc|].
    by apply under_render.
Qed.

(** ** [under] as a string *)

Lemma under_cases c n :
  (under c n = n /\ (c = EmptyString \/ c = "."))
  \/ (under c n = String slash n /\ c = "/")
  \/ (under c n = c +:+ String slash n
      /\ c <> EmptyString /\ c <> "." /\ c <> "/").
Proof.
  unfold under.
  destruct (String.eqb c EmptyString) eqn:H1;
    [apply String.eqb_eq in H1; left; by auto|].
  destruct (String.eqb c ".") eqn:H2;
    [apply String.eqb_eq in H2; left; by auto|].
  destruct (String.eqb c "/") eqn:H3;
    [apply String.eqb_eq in H3; right; left; by auto|].
  apply String.eqb_neq in H1, H2, H3. cbn. right. right. by auto.
Qed.

Lemma under_inj c a b : under c a = under c b -> a = b.
Proof.
  destruct (under_cases c a) as [[-> Hc]|[[-> Hc]|[-> Hc]]],
    (under_cases c b) as [[-> Hc']|[[-> Hc']|[-> Hc']]];
    try done; try (by intros [= ->]); try (destruct_and?; destruct_or?; by subst).
  intros H%append_inv_head. by injection H.
Qed.

Lemma under_ne_self c n : n <> EmptyString -> n <> "." -> under c n <> c.
Proof.
  intros H1 H2.
  destruct (under_cases c n) as [[-> [->| ->]]|[[-> ->]|[-> _]]];
    [done|done|by intros [= ->]|].
  by intros H%append_eq_self.
Qed.

Lemma under_entry x b :
  x <> EmptyString -> x <> "." -> x <> "/" ->
  under x b = x +:+ String slash b.
Proof.
  intros H1 H2 H3.
  by destruct (under_cases x b) as [[_ [?|?]]|[[_ ?]|[-> _]]].
Qed.

Lemma under_simple_ne c a :
  simple_name a = true ->
  under c a <> EmptyString /\ under c a <> "." /\ under c a <> "/".
Proof.
  intros (H1 & H2 & _ & Hs)%simple_name_spec.
  destruct (under_cases c a) as [[-> _]|[[-> _]|[-> (Hc & _)]]].
  - repeat split; try done. intros ->. done.
  - repeat split; try done. by intros [= ->].
  - repeat split; intros H; apply (f_equal String.length) in H;
      rewrite append_length in H; cbn in H; destruct c; try done;
      cbn in H; lia.
Qed.

(** The path of an entry of an entry. *)
Lemma under_under c a b :
  simple_name a = true ->
  under (under c a) b = under c (a +:+ String slash b).
Proof.
  intros Ha. destruct (under_simple_ne c a Ha) as (H1 & H2 & H3).
  rewrite (under_entry (under c a)) by done.
  destruct (under_cases c a) as [[-> Hc]|[[-> Hc]|[-> Hc]]];
    destruct (under_cases c (a +:+ String slash b))
      as [[-> Hc']|[[-> Hc']|[-> Hc']]];
    try done; try (destruct_and?; destruct_or?; by subst).
  by rewrite append_assoc.
Qed.

(** * Decimal numbers *)

Lemma pretty_N_go_digits x : forall s,
  all_digits s = true -> all_digits (pretty_N_go x s) = true.
Proof.
  induction (N.lt_wf_0 x) as [x _ IH]. intros s Hs.
  destruct (decide (x = 0)%N) as [->|Hx]; [by rewrite pretty_N_go_0|].
  rewrite pretty_N_go_step by lia. apply IH.
  - apply N.div_lt; lia.
  - cbn. rewrite Hs, andb_true_r.
    unfold pretty_N_char. by repeat case_match.
Qed.

(** [%d] writes an optional minus sign and decimal digits. *)
Lemma itoa_digits (n : Z) :
  all_digits (itoa n) = true
  \/ exists s, itoa n = String "-" s /\ all_digits s = true.
Proof.
  unfold itoa, pretty, pretty_Z. destruct n as [|p|p].
  - by left.
  - left. unfold pretty, pretty_positive, pretty, pretty_N.
    case_decide; [done|]. by apply pretty_N_go_digits.
  - right. eexists. split; [reflexivity|].
    unfold pretty, pretty_positive, pretty, pretty_N.
    case_decide; [done|]. by apply pretty_N_go_digits.
Qed.

Lemma all_chars_mono (P Q : ascii -> bool) s :
  (forall a, P a = true -> Q a = true) ->
  all_chars P s = true -> all_chars Q s = true.
Proof.
  intros HPQ. induction s as [|a s IH]; cbn; [done|].
  intros [Ha Hs]%andb_true_iff. rewrite (HPQ _ Ha). by apply IH.
Qed.

Lemma all_digits_chars s : all_digits s = all_chars is_digit s.
Proof. induction s as [|a s IH]; cbn; [done|]. by rewrite IH. Qed.

Lemma itoa_decimal h : all_chars is_decimal (itoa h) = true.
Proof.
  destruct (itoa_digits h) as [Hd|(s & -> & Hd)]; rewrite all_digits_chars in Hd.
  - eapply all_chars_mono; [|exact Hd]. unfold is_decimal. by intros a ->.
  - cbn. eapply all_chars_mono; [|exact Hd]. unfold is_decimal. by intros a ->.
Qed.

Lemma itoa_json_nonempty h : itoa h +:+ ".json" <> EmptyString.
Proof. by apply append_nonempty. Qed.

Lemma itoa_json_not_latest h : itoa h +:+ ".json" <> "latest.json".
Proof.
  destruct (itoa_digits h) as [Hd|(s & Hs & Hd)].
  - destruct (itoa h) as [|a s]; [done|]. cbn. intros [= -> _]. done.
  - rewrite Hs. done.
Qed.

Lemma itoa_json_no_slash h : occurs slash (itoa h +:+ ".json") = false.
Proof.
  rewrite occurs_append. cbn. rewrite orb_false_r.
  pose proof (itoa_decimal h) as Hd.
  induction (itoa h) as [|a s IH]; cbn in *; [done|].
  apply andb_true_iff in Hd as [Ha Hs]. rewrite (IH Hs), orb_false_r.
  destruct (Ascii.eqb a slash) eqn:E; [|done].
  apply Ascii.eqb_eq in E as ->. done.
Qed.

(** The name of a light-root file is a name of one element. *)
Lemma itoa_json_simple h : simple_name (itoa h +:+ ".json") = true.
Proof.
  apply simple_name_spec. split; [apply itoa_json_nonempty|].
  split; [|split; [|apply itoa_json_no_slash]].
  - intros H. apply (f_equal String.length) in H.
    rewrite append_length in H. cbn in H. lia.
  - intros H. apply (f_equal String.length) in H.
    rewrite append_length in H. cbn in H. lia.
Qed.

(** * The file system *)

(** ** What a path names *)

Lemma node_at_entry (fs : FS) p :
  is_entry p = true -> node_at fs p = fs !! p.
Proof.
  unfold is_entry, node_at. intros [Ha Hp]%andb_true_iff.
  apply negb_true_iff in Ha. rewrite Ha. by destruct p.
Qed.

Lemma node_at_insert_ne (fs : FS) q x d :
  d <> q -> node_at (<[q := x]> fs) d = node_at fs d.
Proof. intros H. unfold node_at. by rewrite lookup_insert_ne. Qed.

Lemma node_at_delete_ne (fs : FS) q d :
  d <> q -> node_at (delete q fs) d = node_at fs d.
Proof. intros H. unfold node_at. by rewrite lookup_delete_ne. Qed.

Lemma node_at_file_entry (fs : FS) p data :
  node_at fs p = Some (File data) -> is_entry p = true.
Proof.
  unfold node_at, is_entry. destruct (always_dir p); [done|].
  by destruct p.
Qed.

Lemma node_at_None_entry (fs : FS) p :
  node_at fs p = None -> p <> EmptyString -> is_entry p = true.
Proof.
  unfold node_at, is_entry. destruct (always_dir p); [done|].
  by destruct p.
Qed.

(** The path of an entry is none of the directories that are always
    there. *)
Lemma under_is_entry c n : simple_name n = true -> is_entry (under c n) = true.
Proof.
  intros Hn. destruct (under_simple_ne c n Hn) as (H1 & H2 & H3).
  apply simple_name_spec in Hn as (_ & _ & Hdd & Hs).
  unfold is_entry, always_dir.
  apply String.eqb_neq in H1, H2, H3. rewrite H1, H2, H3. cbn [orb negb andb].
  rewrite andb_true_r. apply negb_true_iff.
  assert (exists l, split_on slash (under c n) = l ++ [n]) as [l ->].
  { destruct (under_cases c n) as [[-> _]|[[-> _]|[-> _]]].
    - exists []. by apply split_on_no_occurrence.
    - exists [EmptyString]. cbn. by rewrite split_on_no_occurrence.
    - exists (split_on slash c).
      by rewrite split_on_app, (split_on_no_occurrence _ n). }
  rewrite forallb_app. cbn [forallb]. apply String.eqb_neq in Hdd.
  rewrite (String.eqb_sym ".." n), Hdd. by rewrite andb_false_r.
Qed.

(** ** The way to a path *)

Lemma parent_state_from_fuel (fs : FS) n : forall p m,
  p <> EmptyString -> String.length p <= n -> String.length p <= m ->
  parent_state_from n fs p = parent_state_from m fs p.
Proof.
  induction n as [|n IH]; intros p m Hp Hn Hm.
  - destruct p; [done|]. cbn in Hn. lia.
  - destruct m as [|m]; [destruct p; [done|]; cbn in Hm; lia|].
    cbn [parent_state_from].
    destruct (split_last slash p) as [[[|x d] b]|] eqn:Hs; try done.
    destruct (node_at fs (String x d)) as [[]|]; try done.
    apply split_last_shorter in Hs.
    rewrite (IH (String x d) m); [done|done|lia|lia].
Qed.

Lemma parent_state_eq (fs : FS) p :
  p <> EmptyString ->
  parent_state fs p
  = match split_last slash p with
    | None => PDir
    | Some (EmptyString, _) => PDir
    | Some (d, _) =>
        match node_at fs d with
        | Some Dir => PDir
        | Some (File _) => PFile
        | None => match parent_state fs d with
                  | PFile => PFile
                  | _ => PMissing
                  end
        end
    end.
Proof.
  intros Hp. unfold parent_state at 1.
  destruct p as [|a p]; [done|]. cbn [String.length parent_state_from].
  destruct (split_last slash (String a p)) as [[[|x d] b]|] eqn:Hs; try done.
  destruct (node_at fs (String x d)) as [[]|]; try done.
  apply split_last_shorter in Hs.
  unfold parent_state.
  rewrite (parent_state_from_fuel fs (String.length p) (String x d)
             (String.length (String x d)));
    [done|done|cbn [String.length] in *; lia|lia].
Qed.

(** The way to [p] depends on what is above [p] only. *)
Lemma parent_state_ext (fs fs' : FS) n : forall p,
  String.length p <= n ->
  (forall d, String.length d < String.length p ->
             node_at fs' d = node_at fs d) ->
  parent_state fs' p = parent_state fs p.
Proof.
  induction n as [|n IH]; intros p Hn Hd.
  - destruct p; [done|cbn in Hn; lia].
  - destruct (decide (p = EmptyString)) as [->|Hp]; [done|].
    rewrite !parent_state_eq by done.
    destruct (split_last slash p) as [[[|x d] b]|] eqn:Hs; try done.
    apply split_last_shorter in Hs.
    rewrite Hd by done.
    destruct (node_at fs (String x d)) as [[]|]; try done.
    rewrite (IH (String x d)); [done|lia|].
    intros d' Hd'. apply Hd. lia.
Qed.

(** Writing or removing [p] itself does not change the way to [p]. *)
Lemma parent_state_delete (fs : FS) p :
  parent_state (delete p fs) p = parent_state fs p.
Proof.
  apply (parent_state_ext _ _ (String.length p)); [done|].
  intros d Hd. apply node_at_delete_ne. intros ->. lia.
Qed.

Lemma parent_state_insert (fs : FS) p x :
  parent_state (<[p := x]> fs) p = parent_state fs p.
Proof.
  apply (parent_state_ext _ _ (String.length p)); [done|].
  intros d Hd. apply node_at_insert_ne. intros ->. lia.
Qed.

(** An entry of a directory that exists. *)
Lemma parent_state_under (fs : FS) (c n : string) :
  node_at fs c = Some Dir -> simple_name n = true ->
  parent_state fs (under c n) = PDir.
Proof.
  intros Hc Hn. destruct (under_simple_ne c n Hn) as (H1 & _).
  rewrite parent_state_eq by done.
  apply simple_name_spec in Hn as (_ & _ & _ & Hs).
  destruct (under_cases c n) as [[-> _]|[[-> _]|[-> (H & _)]]].
  - by rewrite (split_last_no_occurrence _ _ Hs).
  - change (String slash n) with (EmptyString +:+ String slash n).
    by rewrite (split_last_append _ _ _ Hs).
  - rewrite (split_last_append _ _ _ Hs), Hc. by destruct c.
Qed.

(** When a regular file has the name of the directory, its entries are
    paths through a file. *)
Lemma parent_state_under_file (fs : FS) (c n data : string) :
  node_at fs c = Some (File data) -> simple_name n = true ->
  parent_state fs (under c n) = PFile.
Proof.
  intros Hc Hn. destruct (under_simple_ne c n Hn) as (H1 & _).
  rewrite parent_state_eq by done.
  apply simple_name_spec in Hn as (_ & _ & _ & Hs).
  assert (is_entry c = true) as He by by eapply node_at_file_entry.
  destruct (under_cases c n) as [[-> [->| ->]]|[[-> ->]|[-> (H & _)]]];
    try done.
  rewrite (split_last_append _ _ _ Hs), Hc. by destruct c.
Qed.

(** ** The operations *)

Lemma WriteFile_other (fs : FS) p data q :
  p <> q -> (ioutil_WriteFile fs p data).2 !! q = fs !! q.
Proof.
  intros Hne. unfold ioutil_WriteFile.
  destruct (node_at fs p) as [[]|]; cbn; rewrite ?lookup_insert_ne by done;
    try done.
  destruct (parent_errno fs p); cbn; by rewrite ?lookup_insert_ne by done.
Qed.

Lemma WriteFile_ok (fs : FS) p data :
  (ioutil_WriteFile fs p data).1 = None ->
  (ioutil_WriteFile fs p data).2 = <[p := File data]> fs.
Proof.
  unfold ioutil_WriteFile.
  destruct (node_at fs p) as [[]|]; cbn; try done.
  destruct (parent_errno fs p); cbn; done.
Qed.

Lemma Remove_other (fs : FS) p q :
  p <> q -> (os_Remove fs p).2 !! q = fs !! q.
Proof.
  intros Hne. unfold os_Remove.
  destruct (node_at fs p) as [[]|]; cbn; rewrite ?lookup_delete_ne by done;
    try done.
  destruct (dir_in_use fs p); cbn; by rewrite ?lookup_delete_ne by done.
Qed.

Lemma Mkdir_other (fs : FS) p q :
  p <> q -> (os_Mkdir fs p).2 !! q = fs !! q.
Proof.
  intros Hne. unfold os_Mkdir.
  destruct (node_at fs p); cbn; [done|].
  destruct (parent_errno fs p); cbn; by rewrite ?lookup_insert_ne by done.
Qed.

Lemma Stat_exists (fs : FS) p n : node_at fs p = Some n -> os_Stat fs p = None.
Proof. unfold os_Stat. by intros ->. Qed.

Lemma Stat_absent (fs : FS) p :
  node_at fs p = None -> parent_state fs p = PDir ->
  os_Stat fs p = Some (PathError "stat" p ENOENT).
Proof. intros Hp Hd. unfold os_Stat, missing_errno. by rewrite Hp, Hd. Qed.

(** [os.Remove] then [ioutil.WriteFile] at a path that holds a file: the
    outcome is that of the directory check, and the file holds the new
    data. *)
Lemma Remove_WriteFile_file (fs : FS) p old data :
  node_at fs p = Some (File old) ->
  parent_state fs p = PDir ->
  ioutil_WriteFile (os_Remove fs p).2 p data = (None, <[p := File data]> fs).
Proof.
  intros Hp Hd. pose proof (node_at_file_entry _ _ _ Hp) as He.
  unfold os_Remove. rewrite Hp. cbn.
  unfold ioutil_WriteFile, parent_errno.
  rewrite (node_at_entry _ _ He), lookup_delete_eq, parent_state_delete, Hd.
  by rewrite insert_delete_eq.
Qed.

Lemma WriteFile_not_dir (fs : FS) p data :
  node_at fs p <> Some Dir -> parent_state fs p = PDir ->
  ioutil_WriteFile fs p data = (None, <[p := File data]> fs).
Proof.
  intros Hp Hd. unfold ioutil_WriteFile, parent_errno. rewrite Hd.
  by destruct (node_at fs p) as [[]|].
Qed.

Lemma Remove_not_dir (fs : FS) p :
  is_entry p = true -> fs !! p <> Some Dir -> (os_Remove fs p).2 !! p = None.
Proof.
  intros He Hp. unfold os_Remove. rewrite (node_at_entry _ _ He).
  destruct (fs !! p) as [[]|] eqn:E; cbn; [apply lookup_delete_eq|done|done].
Qed.

(** * The registry paths *)

Section registry_paths.
Variable r : repoDir.

Lemma chainPath_joined : joined (chainPath r).
Proof. apply path_Join_joined. Qed.

(** A file directly under the chain directory. *)
Lemma chain_file_under name :
  simple_name name = true ->
  path_Join (chainPath r) name = under (chainPath r) name.
Proof. apply path_Join_under, chainPath_joined. Qed.

Lemma genesisPath_under : genesisPath r = under (chainPath r) "genesis.json".
Proof. by apply chain_file_under. Qed.

Lemma genesisSumPath_under :
  genesisSumPath r = under (chainPath r) "genesis.json.sum".
Proof. by apply chain_file_under. Qed.

Lemma binariesPath_under :
  binariesPath r = under (chainPath r) "binaries.json".
Proof. by apply chain_file_under. Qed.

Lemma peersPath_under : peersPath r = under (chainPath r) "peers.json".
Proof. by apply chain_file_under. Qed.

Lemma lrpath_under : lrpath r = under (chainPath r) "light-roots".
Proof. by apply chain_file_under. Qed.

Lemma lrpath_joined : joined (lrpath r).
Proof. apply path_Join_joined. Qed.

Lemma latestPath_under : latestPath r = under (lrpath r) "latest.json".
Proof. by apply path_Join_under; [apply lrpath_joined|]. Qed.

Lemma heightPath_under h :
  heightPath r h = under (lrpath r) (itoa h +:+ ".json").
Proof.
  apply path_Join_under; [apply lrpath_joined|apply itoa_json_simple].
Qed.

Lemma latestPath_flat :
  latestPath r = under (chainPath r) "light-roots/latest.json".
Proof. rewrite latestPath_under, lrpath_under. by rewrite under_under. Qed.

Lemma heightPath_flat h :
  heightPath r h
  = under (chainPath r) ("light-roots/" +:+ itoa h +:+ ".json").
Proof. rewrite heightPath_under, lrpath_under. by rewrite under_under. Qed.

Lemma heightPath_ne_latestPath h : heightPath r h <> latestPath r.
Proof.
  rewrite heightPath_flat, latestPath_flat. intros H%under_inj.
  cbn in H. injection H as H. by apply itoa_json_not_latest in H.
Qed.

Lemma slash_not_simple (a b : string) :
  simple_name (a +:+ String slash b) = false.
Proof.
  destruct (simple_name (a +:+ String slash b)) eqn:H; [|done].
  apply simple_name_spec in H as (_ & _ & _ & H).
  rewrite occurs_append in H. cbn [occurs] in H.
  by rewrite Ascii.eqb_refl, orb_true_r in H.
Qed.

Lemma latestPath_ne_chain_file (name : string) :
  simple_name name = true -> latestPath r <> path_Join (chainPath r) name.
Proof.
  intros Hn. rewrite latestPath_flat, chain_file_under by done.
  intros H%under_inj. by subst name.
Qed.

Lemma heightPath_ne_chain_file h (name : string) :
  simple_name name = true -> heightPath r h <> path_Join (chainPath r) name.
Proof.
  intros Hn. rewrite heightPath_flat, chain_file_under by done.
  intros H%under_inj. subst name.
  assert (simple_name ("light-roots/" +:+ itoa h +:+ ".json") = false)
    as Hf by apply (slash_not_simple "light-roots").
  congruence.
Qed.

(** The two directories are none of the files directly under the chain
    directory. *)
Lemma chainPath_ne_chain_file (name : string) :
  simple_name name = true -> chainPath r <> path_Join (chainPath r) name.
Proof.
  intros Hn. rewrite chain_file_under by done.
  apply simple_name_spec in Hn as (H1 & H2 & _).
  intros H. symmetry in H. by apply under_ne_self in H.
Qed.

Lemma lrpath_ne_chain_file (name : string) :
  simple_name name = true -> name <> "light-roots" ->
  lrpath r <> path_Join (chainPath r) name.
Proof.
  intros Hn Hl. rewrite lrpath_under, chain_file_under by done.
  by intros H%under_inj.
Qed.

Lemma path_Join_inj (a b : string) :
  simple_name a = true -> simple_name b = true ->
  path_Join (chainPath r) a = path_Join (chainPath r) b -> a = b.
Proof.
  intros Ha Hb. rewrite !chain_file_under by done. apply under_inj.
Qed.

(** The two directories and the six files that [DumpInfo] names are
    eight different paths. *)
Lemma registry_paths_NoDup (h : Z) :
  NoDup [chainPath r; lrpath r; genesisPath r; genesisSumPath r;
         binariesPath r; peersPath r; latestPath r; heightPath r h].
Proof.
  assert (forall a b : string,
            a <> b -> under (chainPath r) a <> under (chainPath r) b) as Hj.
  { intros a b Hne H. by apply under_inj in H. }
  assert (forall a : string, a <> EmptyString -> a <> "." ->
            chainPath r <> under (chainPath r) a) as Hc.
  { intros a H1 H2 H. symmetry in H. by apply under_ne_self in H. }
  assert ("light-roots/latest.json" <> "light-roots/" +:+ itoa h +:+ ".json")
    as Hlh.
  { cbn. intros [= H]. by destruct (itoa_json_not_latest h). }
  rewrite latestPath_flat, heightPath_flat, lrpath_under, genesisPath_under,
    genesisSumPath_under, binariesPath_under, peersPath_under.
  repeat (apply NoDup_cons; split;
          [rewrite ?not_elem_of_cons; repeat split;
           try apply not_elem_of_nil;
           first [by apply Hc | by apply Hj]|]).
  apply NoDup_nil_2.
Qed.

(** The six files and [light-roots] are entries: none of them is the
    root, the working directory or a directory above it. *)
Lemma registry_entries (h : Z) :
  Forall (fun p => is_entry p = true)
    [lrpath r; genesisPath r; genesisSumPath r; binariesPath r;
     peersPath r; latestPath r; heightPath r h].
Proof.
  rewrite latestPath_under, heightPath_under, lrpath_under,
    genesisPath_under, genesisSumPath_under, binariesPath_under,
    peersPath_under.
  repeat constructor; apply under_is_entry; try done.
  apply itoa_json_simple.
Qed.

Lemma lrpath_entry : is_entry (lrpath r) = true.
Proof. rewrite lrpath_under. by apply under_is_entry. Qed.
Lemma genesisPath_entry : is_entry (genesisPath r) = true.
Proof. rewrite genesisPath_under. by apply under_is_entry. Qed.
Lemma genesisSumPath_entry : is_entry (genesisSumPath r) = true.
Proof. rewrite genesisSumPath_under. by apply under_is_entry. Qed.
Lemma binariesPath_entry : is_entry (binariesPath r) = true.
Proof. rewrite binariesPath_under. by apply under_is_entry. Qed.
Lemma peersPath_entry : is_entry (peersPath r) = true.
Proof. rewrite peersPath_under. by apply under_is_entry. Qed.
Lemma latestPath_entry : is_entry (latestPath r) = true.
Proof. rewrite latestPath_under. by apply under_is_entry. Qed.
Lemma heightPath_entry h : is_entry (heightPath r h) = true.
Proof.
  rewrite heightPath_under. apply under_is_entry, itoa_json_simple.
Qed.

(** ** The directories that hold the files *)

Section parents.
Variable fs : FS.
Hypothesis Hchain : node_at fs (chainPath r) = Some Dir.
Hypothesis Hlr : fs !! lrpath r = Some Dir.

Lemma parent_genesisPath : parent_state fs (genesisPath r) = PDir.
Proof using Hchain.
  rewrite genesisPath_under. by apply parent_state_under.
Qed.
Lemma parent_genesisSumPath : parent_state fs (genesisSumPath r) = PDir.
Proof using Hchain.
  rewrite genesisSumPath_under. by apply parent_state_under.
Qed.
Lemma parent_binariesPath : parent_state fs (binariesPath r) = PDir.
Proof using Hchain.
  rewrite binariesPath_under. by apply parent_state_under.
Qed.
Lemma parent_peersPath : parent_state fs (peersPath r) = PDir.
Proof using Hchain.
  rewrite peersPath_under. by apply parent_state_under.
Qed.
Lemma parent_lrpath : parent_state fs (lrpath r) = PDir.
Proof using Hchain.
  rewrite lrpath_under. by apply parent_state_under.
Qed.
Lemma parent_latestPath : parent_state fs (latestPath r) = PDir.
Proof using Hlr.
  rewrite latestPath_under. apply parent_state_under; [|done].
  by rewrite (node_at_entry _ _ lrpath_entry).
Qed.
Lemma parent_heightPath h : parent_state fs (heightPath r h) = PDir.
Proof using Hlr.
  rewrite heightPath_under.
  apply parent_state_under; [|apply itoa_json_simple].
  by rewrite (node_at_entry _ _ lrpath_entry).
Qed.
End parents.
End registry_paths.

(** * Goroutines under any schedule *)

Section scheduler_facts.
Context {GenesisDoc : Type}.
Local Abbreviation Frame := (@Frame GenesisDoc).
Local Abbreviation Prog := (@Prog GenesisDoc).
Local Abbreviation Goroutines := (@Goroutines GenesisDoc).
Implicit Types (p q : Prog) (s : Frame) (g : Goroutines) (i j : nat).

Lemma always_mono (R R' : Frame -> Frame -> Prop) p :
  (forall s s', R s s' -> R' s s') -> always R p -> always R' p.
Proof.
  intros HR. induction p as [| |upd k IH]; cbn; [done..|].
  intros H s. destruct (H s) as [H1 H2]. split; [by apply HR|by apply IH].
Qed.

Lemma settle_settle i p q s s' g :
  settle i p s (settle i q s' g) = settle i p s g.
Proof. unfold settle. cbn. by rewrite list_insert_insert_eq. Qed.

(** Running a task to its end is taking its steps one after the other. *)
Lemma drive_steps p : forall g i,
  crashed g = false -> pool g !! i = Some p -> is_step p = true ->
  exists n, settle i (drive p (frame g)).2 (drive p (frame g)).1 g
            = Nat.iter n (fun g => step_task g i) g.
Proof.
  induction p as [| |upd k IH]; intros g i Hc Hi Hp; [done..|].
  assert (step_task g i = settle i (k (frame g)) (upd (frame g)) g) as Hstep.
  { unfold step_task. by rewrite Hc, Hi. }
  cbn [drive]. destruct (k (frame g)) as [r| |upd' k'] eqn:Hk.
  - exists 1. unfold Nat.iter, nat_rect. by rewrite Hstep.
  - exists 1. unfold Nat.iter, nat_rect. by rewrite Hstep.
  - destruct (IH (frame g) (step_task g i) i) as [n Hn].
    + by rewrite Hstep.
    + rewrite Hstep, Hk. cbn. apply list_lookup_insert_eq.
      by eapply lookup_lt_Some.
    + by rewrite Hk.
    + exists (S n). rewrite Nat.iter_succ_r, <-Hn, Hstep. cbn [frame settle].
      by rewrite Hk, settle_settle.
Qed.

Lemma finish_task_steps g i :
  exists n, finish_task g i = Nat.iter n (fun g => step_task g i) g.
Proof.
  unfold finish_task. destruct (crashed g) eqn:Hc; [by exists 0|].
  destruct (pool g !! i) as [[| |upd k]|] eqn:Hi; try by exists 0.
  destruct (drive_steps (Step upd k) g i Hc Hi eq_refl) as [n Hn].
  exists n. rewrite <-Hn. by destruct (drive (Step upd k) (frame g)).
Qed.

Lemma iter_steps n i g :
  Nat.iter n (fun g => step_task g i) g = foldl step_task g (replicate n i).
Proof.
  revert g. induction n as [|n IH]; intros g; [done|].
  rewrite Nat.iter_succ_r. cbn. apply IH.
Qed.

(** What holds at the start and is kept by every step of every task
    holds when the group has been waited for. *)
Lemma run_group_invariant (I : Goroutines -> Prop) sched tasks s :
  I {| pool := tasks; frame := s; crashed := false |} ->
  (forall g i, I g -> I (step_task g i)) ->
  I (run_group sched tasks s).
Proof.
  intros H0 Hstep. unfold run_group.
  assert (forall l g, I g -> I (foldl step_task g l)) as Hsteps.
  { induction l as [|i l IH]; intros g Hg; [done|]. cbn. by apply IH, Hstep. }
  generalize (seq 0 (length tasks)). intros l.
  assert (I (foldl step_task {| pool := tasks; frame := s; crashed := false |} sched))
    as Hg by by apply Hsteps.
  revert Hg. generalize (foldl step_task {| pool := tasks; frame := s; crashed := false |} sched).
  induction l as [|i l IH]; intros g Hg; [done|].
  cbn. apply IH. destruct (finish_task_steps g i) as [n ->].
  rewrite iter_steps. by apply Hsteps.
Qed.

Lemma step_task_length g i : length (pool (step_task g i)) = length (pool g).
Proof.
  unfold step_task. destruct (crashed g); [done|].
  destruct (pool g !! i) as [[| |upd k]|]; try done.
  cbn. by rewrite length_insert.
Qed.

Lemma step_task_no_panic g i : no_panic g -> no_panic (step_task g i).
Proof.
  intros Hg. unfold step_task. destruct (crashed g) eqn:Hc; [done|].
  destruct (pool g !! i) as [[| |upd k]|] eqn:Hi; try done.
  unfold no_panic. cbn. intros Hk j.
  destruct (decide (i = j)) as [->|Hne].
  - rewrite list_lookup_insert_eq by by eapply lookup_lt_Some.
    intros [= Heq]. by rewrite Heq in Hk.
  - rewrite list_lookup_insert_ne by done. by apply Hg.
Qed.

Lemma run_group_no_panic sched tasks s :
  (forall i, tasks !! i <> Some Panic) ->
  no_panic (run_group sched tasks s).
Proof.
  intros H. apply run_group_invariant; [by intros _|].
  intros g i. apply step_task_no_panic.
Qed.

Lemma run_group_length sched tasks s :
  length (pool (run_group sched tasks s)) = length tasks.
Proof.
  apply (run_group_invariant (fun g => length (pool g) = length tasks));
    [done|]. intros g i <-. apply step_task_length.
Qed.

Lemma drive_ended p s : is_step (drive p s).2 = false.
Proof. revert s. induction p as [| |upd k IH]; intros s; cbn; auto. Qed.

Lemma finish_task_crashed g i :
  crashed (finish_task g i) = false -> crashed g = false.
Proof. unfold finish_task. destruct (crashed g) eqn:E; [by rewrite E|done]. Qed.

Lemma finish_task_ended g i j p :
  crashed g = false ->
  pool (finish_task g i) !! j = Some p ->
  (i = j \/ exists q, pool g !! j = Some q /\ is_step q = false) ->
  is_step p = false.
Proof.
  intros Hc. unfold finish_task. rewrite Hc.
  destruct (pool g !! i) as [q|] eqn:Hi.
  - destruct q as [r| |upd k] eqn:Hq.
    + intros Hj [->|(q' & Hq' & Hs)]; [|congruence].
      rewrite Hi in Hj. by injection Hj as <-.
    + intros Hj [->|(q' & Hq' & Hs)]; [|congruence].
      rewrite Hi in Hj. by injection Hj as <-.
    + pose proof (drive_ended (Step upd k) (frame g)) as Hd.
      destruct (drive (Step upd k) (frame g)) as [s' p'] eqn:Hdr.
      cbn [settle pool]. destruct (decide (i = j)) as [->|Hne].
      * rewrite list_lookup_insert_eq by by eapply lookup_lt_Some.
        by intros [= <-] _.
      * rewrite list_lookup_insert_ne by done.
        intros Hj [?|(q' & Hq' & Hs)]; [done|congruence].
  - intros Hj [->|(q' & Hq' & Hs)]; congruence.
Qed.

Lemma finish_task_length g i :
  length (pool (finish_task g i)) = length (pool g).
Proof.
  destruct (finish_task_steps g i) as [n ->]. rewrite iter_steps.
  revert g. induction n as [|n IH]; intros g; [done|].
  cbn. by rewrite IH, step_task_length.
Qed.

Lemma finish_all_ended n : forall g,
  crashed (foldl finish_task g (seq 0 n)) = false ->
  forall i p, i < n ->
    pool (foldl finish_task g (seq 0 n)) !! i = Some p -> is_step p = false.
Proof.
  induction n as [|n IH]; intros g Hc i p Hlt Hi; [lia|].
  rewrite seq_S, foldl_app in Hc, Hi. cbn in Hc, Hi.
  pose proof (finish_task_crashed _ _ Hc) as Hc'.
  eapply finish_task_ended; [exact Hc'|exact Hi|].
  destruct (decide (n = i)) as [->|Hne]; [by left|right].
  assert (is_Some (pool (foldl finish_task g (seq 0 n)) !! i)) as [q Hq].
  { apply lookup_lt_is_Some. apply lookup_lt_Some in Hi.
    by rewrite finish_task_length in Hi. }
  exists q. split; [done|]. eapply IH; [done| |done]. lia.
Qed.

(** When [Wait] returns and no task has panicked, every task has
    ended. *)
Lemma run_group_ended sched tasks s i p :
  crashed (run_group sched tasks s) = false ->
  pool (run_group sched tasks s) !! i = Some p ->
  is_step p = false.
Proof.
  intros Hc Hi. eapply finish_all_ended; [exact Hc| |exact Hi].
  apply lookup_lt_Some in Hi. by rewrite run_group_length in Hi.
Qed.

(** A task that returned an error has set the error of the group, as
    long as the bodies leave the package-level variables alone. *)
Lemma run_group_errors sched tasks s :
  (forall i p, tasks !! i = Some p ->
               always keeps_eg p /\ is_step p = true) ->
  forall i e, pool (run_group sched tasks s) !! i = Some (Ret (Some e)) ->
              eg (world (frame (run_group sched tasks s))) <> None.
Proof.
  intros Htasks.
  apply (run_group_invariant (fun g =>
    (forall i p, pool g !! i = Some p -> always keeps_eg p)
    /\ (forall i e, pool g !! i = Some (Ret (Some e)) ->
                    eg (world (frame g)) <> None))).
  { split.
    - intros i p Hp. by apply (Htasks i p).
    - intros i e Hi. cbn in Hi. by destruct (Htasks _ _ Hi). }
  clear. intros g j [Hal Herr].
  unfold step_task. destruct (crashed g); [done|].
  destruct (pool g !! j) as [[| |upd k]|] eqn:Hj; try done.
  pose proof (Hal _ _ Hj) as Hk. cbn in Hk.
  destruct (Hk (frame g)) as [Heg Hk'].
  split.
  - intros i p. cbn. destruct (decide (j = i)) as [->|Hne].
    + rewrite list_lookup_insert_eq by by eapply lookup_lt_Some.
      by intros [= <-].
    + rewrite list_lookup_insert_ne by done. apply Hal.
  - intros i e. cbn [settle pool frame].
    destruct (decide (j = i)) as [->|Hne].
    + rewrite list_lookup_insert_eq by by eapply lookup_lt_Some.
      intros [= ->]. cbn. by destruct (eg (world (upd (frame g)))).
    + rewrite list_lookup_insert_ne by done. intros Hi.
      specialize (Herr _ _ Hi). rewrite <-Heg in Herr.
      destruct (k (frame g)) as [[e'|]| |]; cbn; try done.
      by destruct (eg (world (upd (frame g)))).
Qed.

(** When [Wait] returns nil and no task has panicked, every task has
    returned nil. *)
Lemma run_group_all_nil sched tasks s i :
  (forall i p, tasks !! i = Some p ->
               always keeps_eg p /\ is_step p = true) ->
  crashed (run_group sched tasks s) = false ->
  eg (world (frame (run_group sched tasks s))) = None ->
  i < length tasks ->
  pool (run_group sched tasks s) !! i = Some (Ret None).
Proof.
  intros Htasks Hc Heg Hlt.
  assert (is_Some (pool (run_group sched tasks s) !! i)) as [p Hp].
  { apply lookup_lt_is_Some. by rewrite run_group_length. }
  pose proof (run_group_ended _ _ _ _ _ Hc Hp) as Hend.
  destruct p as [[e|]| |]; [|done| |done].
  - by destruct (run_group_errors sched tasks s Htasks i e Hp).
  - destruct (run_group_no_panic sched tasks s) with (i := i); [|done|done].
    intros j Hj. by destruct (Htasks _ _ Hj).
Qed.

(** The invariant of one task: it holds at the start, the steps of the
    task itself keep it, and the steps of the other tasks do not
    disturb it. *)
Lemma task_invariant i (J : Prog -> Frame -> Prop) sched tasks s :
  (forall p, tasks !! i = Some p -> J p s) ->
  (forall upd k s, J (Step upd k) s -> J (k s) (upd s)) ->
  (forall j p, j <> i -> tasks !! j = Some p ->
               always (fun s s' => forall q, J q s -> J q s') p) ->
  (forall q e s, J q s -> J q (on_world (w_record e) s)) ->
  forall p, pool (run_group sched tasks s) !! i = Some p ->
            J p (frame (run_group sched tasks s)).
Proof.
  intros Hinit Hown Hrely Hrec.
  apply (run_group_invariant (fun g =>
    (forall j p, j <> i -> pool g !! j = Some p ->
                 always (fun s s' => forall q, J q s -> J q s') p)
    /\ (forall p, pool g !! i = Some p -> J p (frame g)))); [done|].
  clear Hinit Hrely. intros g j [Hothers Hi].
  unfold step_task. destruct (crashed g); [done|].
  destruct (pool g !! j) as [[| |upd k]|] eqn:Hj; try done.
  assert (forall q s', J q s' ->
            J q match k (frame g) with
                | Ret (Some e) => on_world (w_record e) s'
                | _ => s'
                end) as Hsettle.
  { intros q s' Hq. destruct (k (frame g)) as [[e|]| |]; auto. }
  destruct (decide (j = i)) as [->|Hne].
  - split.
    + intros j' p Hne. cbn. rewrite list_lookup_insert_ne by done. by apply Hothers.
    + intros p. cbn [settle pool frame].
      rewrite list_lookup_insert_eq by by eapply lookup_lt_Some.
      intros [= <-]. apply Hsettle, Hown, Hi, Hj.
  - pose proof (Hothers _ _ Hne Hj) as Hk. cbn in Hk.
    destruct (Hk (frame g)) as [Hk1 Hk2]. split.
    + intros j' p Hne'. cbn. destruct (decide (j = j')) as [->|Hne''].
      * rewrite list_lookup_insert_eq by by eapply lookup_lt_Some.
        by intros [= <-].
      * rewrite list_lookup_insert_ne by done. by apply Hothers.
    + intros p. cbn [settle pool frame]. rewrite list_lookup_insert_ne by done.
      intros Hp. apply Hsettle, Hk1, Hi, Hp.
Qed.

(** A task that returns nil leaves what its last step ensures, as long
    as the other tasks do not undo it. *)
Lemma run_group_ensures (Q : Frame -> Prop) i sched tasks s p0 :
  tasks !! i = Some p0 -> is_step p0 = true -> ensures Q p0 ->
  (forall j p, j <> i -> tasks !! j = Some p ->
               always (fun s s' => Q s -> Q s') p) ->
  (forall e s, Q s -> Q (on_world (w_record e) s)) ->
  pool (run_group sched tasks s) !! i = Some (Ret None) ->
  Q (frame (run_group sched tasks s)).
Proof.
  intros Hi Hstep Hens Hrely Hrec Hend.
  eapply (task_invariant i (fun p s => (p = Ret None -> Q s) /\ ensures Q p))
    in Hend; [by apply Hend|..].
  - intros p Hp. rewrite Hi in Hp. injection Hp as <-. split; [|done].
    intros ->. done.
  - intros upd k s' [_ Hk]. cbn in Hk. apply Hk.
  - intros j p Hne Hp. eapply always_mono; [|by eapply Hrely].
    intros s1 s2 HQ q [Hq1 Hq2]. split; [|done]. auto.
  - intros q e s' [Hq1 Hq2]. split; [|done]. auto.
Qed.

(** What the first step of a task sets up holds once the task has ended,
    as long as no later step of any task undoes it. *)
Lemma run_group_first (Q : Frame -> Prop) i sched tasks s upd k :
  tasks !! i = Some (Step upd k) ->
  (forall s, Q (upd s)) ->
  (forall s, always (fun s s' => Q s -> Q s') (k s)) ->
  (forall j p, j <> i -> tasks !! j = Some p ->
               always (fun s s' => Q s -> Q s') p) ->
  (forall e s, Q s -> Q (on_world (w_record e) s)) ->
  forall p, pool (run_group sched tasks s) !! i = Some p ->
            is_step p = false ->
            Q (frame (run_group sched tasks s)).
Proof.
  intros Hi Hupd Hk Hrely Hrec p Hp Hend.
  eapply (task_invariant i
            (fun p s => p = Step upd k
                        \/ (Q s /\ always (fun s s' => Q s -> Q s') p)))
    in Hp; [|..].
  - destruct Hp as [->|[HQ _]]; done.
  - intros q Hq. rewrite Hi in Hq. injection Hq as <-. by left.
  - intros upd' k' s' [Heq|[HQ Hal]].
    + injection Heq as -> ->. right. split; [apply Hupd|apply Hk].
    + right. cbn in Hal. destruct (Hal s') as [H1 H2]. split; auto.
  - intros j q Hne Hq. eapply always_mono; [|by eapply Hrely].
    intros s1 s2 HQ q' [->|[Hq1 Hq2]]; [by left|right]. split; auto.
  - intros q e s' [->|[Hq1 Hq2]]; [by left|right]. split; auto.
Qed.
End scheduler_facts.


Section serial_facts.
Context {GenesisDoc : Type}.
Local Abbreviation Frame := (@Frame GenesisDoc).
Local Abbreviation Prog := (@Prog GenesisDoc).
Local Abbreviation Goroutines := (@Goroutines GenesisDoc).
Implicit Types (p q : Prog) (s : Frame) (g : Goroutines) (i j : nat).

Variable R : Frame -> Frame -> Prop.
Hypothesis R_refl : forall s, R s s.
Hypothesis R_trans : forall s1 s2 s3, R s1 s2 -> R s2 s3 -> R s1 s3.
Hypothesis R_record : forall e s, R s (on_world (w_record e) s).

Lemma always_drive p s : always R p -> R s (drive p s).1.
Proof using R_refl R_trans.
  revert s. induction p as [| |upd k IH]; intros s; cbn; [done..|].
  intros H. destruct (H s) as [H1 H2]. eauto.
Qed.

Lemma settle_related i p s s' g :
  R s s' -> R s (frame (settle i p s' g)).
Proof using R_trans R_record.
  intros H. unfold settle. cbn. destruct p as [[e|]| |]; eauto.
Qed.

(** What every step of every task keeps is kept by the whole group,
    under any schedule. *)
Lemma run_group_always sched tasks s :
  (forall i p, tasks !! i = Some p -> always R p) ->
  R s (frame (run_group sched tasks s)).
Proof using R_refl R_trans R_record.
  intros Htasks.
  apply (run_group_invariant (fun g =>
    R s (frame g) /\ forall i p, pool g !! i = Some p -> always R p));
    [done|].
  clear Htasks. intros g i [Hs Hal]. unfold step_task.
  destruct (crashed g); [done|].
  destruct (pool g !! i) as [[| |upd k]|] eqn:Hi; try done.
  pose proof (Hal _ _ Hi) as Hk. cbn in Hk.
  destruct (Hk (frame g)) as [Hk1 Hk2]. split.
  - apply settle_related. eauto.
  - intros j p. cbn. destruct (decide (i = j)) as [->|Hne].
    + rewrite list_lookup_insert_eq by by eapply lookup_lt_Some.
      by intros [= <-].
    + rewrite list_lookup_insert_ne by done. apply Hal.
Qed.

(** A task that runs to its end on its own. *)
Lemma finish_task_related g i :
  (forall p, pool g !! i = Some p -> R (frame g) (drive p (frame g)).1) ->
  R (frame g) (frame (finish_task g i)).
Proof using R_refl R_trans R_record.
  intros H. unfold finish_task. destruct (crashed g); [done|].
  destruct (pool g !! i) as [[| |upd k]|] eqn:Hi; try done.
  specialize (H _ eq_refl).
  destruct (drive (Step upd k) (frame g)) as [s' p'].
  by apply settle_related.
Qed.
End serial_facts.

Section serial_pool.
Context {GenesisDoc : Type}.
Local Abbreviation Goroutines := (@Goroutines GenesisDoc).
Implicit Types (g : Goroutines) (i j : nat).

Lemma finish_task_pool_ne g i j :
  i <> j -> pool (finish_task g i) !! j = pool g !! j.
Proof.
  intros Hne. unfold finish_task. destruct (crashed g); [done|].
  destruct (pool g !! i) as [[| |upd k]|]; try done.
  destruct (drive _ _) as [s' p']. cbn. by rewrite list_lookup_insert_ne.
Qed.
End serial_pool.

(** * The peer set merger *)

Lemma dedupe_map_lookup (ele : list string) (x : string) :
  foldl (fun e v => <[v := true]> e) (∅ : gmap string bool) ele !! x
  = if decide (x ∈ ele) then Some true else None.
Proof.
  assert (forall (e : gmap string bool),
            foldl (fun e v => <[v := true]> e) e ele !! x
            = if decide (x ∈ ele) then Some true else e !! x) as H.
  { induction ele as [|v ele IH]; intros e; cbn.
    - by rewrite decide_False by apply not_elem_of_nil.
    - rewrite IH. destruct (decide (x ∈ ele)) as [Hin|Hnin].
      + by rewrite decide_True by by right.
      + destruct (decide (v = x)) as [->|Hne].
        * rewrite decide_True by left. by rewrite lookup_insert_eq.
        * rewrite lookup_insert_ne by done.
          rewrite decide_False; [done|]. by intros [->|?]%elem_of_cons. }
  rewrite H. by case_decide.
Qed.

(** [dedupe] returns every string of its argument once, in some order. *)
Lemma dedupe_spec ord (ele : list string) :
  NoDup (dedupe ord ele) /\ forall x, x ∈ dedupe ord ele <-> x ∈ ele.
Proof.
  unfold dedupe. split.
  - rewrite (range_keys_perm ord). apply NoDup_fst_map_to_list.
  - intros x. rewrite (range_keys_perm ord), list_elem_of_fmap. split.
    + intros ([k v] & -> & Hkv). apply elem_of_map_to_list in Hkv.
      rewrite dedupe_map_lookup in Hkv. by case_decide.
    + intros Hin. exists (x, true). split; [done|].
      apply elem_of_map_to_list. rewrite dedupe_map_lookup.
      by rewrite decide_True.
Qed.

Lemma merge_peers_set ord (fp qp : list string) :
  list_to_set (merge_peers ord fp qp)
  =@{gset string} list_to_set fp ∪ list_to_set qp.
Proof.
  apply set_eq. intros x. unfold merge_peers.
  rewrite elem_of_list_to_set, (proj2 (dedupe_spec ord _)).
  rewrite elem_of_app, elem_of_union, !elem_of_list_to_set. done.
Qed.

Lemma merge_peers_NoDup ord (fp qp : list string) :
  NoDup (merge_peers ord fp qp).
Proof. apply dedupe_spec. Qed.

(** The number of peers written is the number of distinct strings. *)
Lemma merge_peers_length ord (fp qp : list string) :
  length (merge_peers ord fp qp)
  = size (list_to_set fp ∪ list_to_set qp : gset string).
Proof.
  rewrite <-(merge_peers_set ord), size_list_to_set; [done|].
  apply merge_peers_NoDup.
Qed.

(** C7. Merging the discovered peers [D] into the result of merging [D]
    into the prior peers [P] gives the same set as merging once, whatever
    the order in which the maps are ranged over. *)
Theorem merge_peers_idempotent ord1 ord2 ord3 (P D : list string) :
  list_to_set (merge_peers ord1 (merge_peers ord2 P D) D)
  =@{gset string} list_to_set (merge_peers ord3 P D).
Proof.
  rewrite !merge_peers_set. apply set_eq. intros x.
  rewrite !elem_of_union. tauto.
Qed.

Lemma union_of_example (a b : string) :
  list_to_set [a] ∪ list_to_set [a; b] =@{gset string} {[a; b]}.
Proof.
  apply set_eq. intros x.
  rewrite elem_of_union, !elem_of_list_to_set, !elem_of_cons, !elem_of_nil,
    elem_of_union, !elem_of_singleton. tauto.
Qed.

(** * The tasks of [DumpInfo] *)

Section task_facts.
Context {float64 : Type}.
Variable parseFloat : string -> option float64.
Variable formatFloat : float64 -> string.
Context {GenesisDoc : Type}.
Variable json_Marshal : GenesisDoc -> result json.
Variable sha256_Sum256 : string -> string.
Variable json_Unmarshal_strings : string -> result (list string).

Local Abbreviation Frame := (@Frame GenesisDoc).
Local Abbreviation Prog := (@Prog GenesisDoc).
Local Abbreviation World := (@World GenesisDoc).
Local Abbreviation persistGenesis :=
  (persistGenesis parseFloat formatFloat json_Marshal sha256_Sum256).
Local Abbreviation persistPeers :=
  (@persistPeers GenesisDoc json_Unmarshal_strings).
Local Abbreviation DumpInfo :=
  (DumpInfo parseFloat formatFloat json_Marshal sha256_Sum256
     json_Unmarshal_strings).
Implicit Types (s : Frame) (w : World) (p q pth : string).

(** *** What the tasks leave alone *)

Lemma writeFile_keeps p pth payload (cont : option error -> Prog) :
  pth <> p -> (forall r, always (keeps p) (cont r)) ->
  always (keeps p) (writeFile pth payload cont).
Proof.
  intros Hne Hc. cbn. intros s. split; [|apply Hc].
  unfold keeps. cbn. by apply WriteFile_other.
Qed.

Lemma updateFile_keeps p pth payload (cont : option error -> Prog) :
  pth <> p -> (forall r, always (keeps p) (cont r)) ->
  always (keeps p) (updateFile pth payload cont).
Proof.
  intros Hne Hc. cbn. intros s. split.
  - unfold keeps. cbn. by apply Remove_other.
  - intros s'. split; [|apply Hc]. unfold keeps. cbn. by apply WriteFile_other.
Qed.

Lemma updateFileGo_keeps p pth payload :
  pth <> p -> always (keeps p) (updateFileGo (GenesisDoc:=GenesisDoc) pth payload).
Proof. intros Hne. by apply updateFile_keeps. Qed.

Lemma persistGenesis_keeps p rdir :
  genesisPath rdir <> p -> genesisSumPath rdir <> p ->
  always (keeps p) (persistGenesis rdir).
Proof.
  intros Hg Hs. cbn. intros s. split; [done|]. intros s1. split; [done|].
  destruct (os_IsNotExist (err s1)); [|done].
  unfold writeGenesis. destruct (gen (world s1)) as [g|]; [|done].
  destruct (sortedGenesis _ _ _ _ g) as [e|[sum write]]; [done|].
  apply writeFile_keeps; [done|]. intros [e|]; [done|].
  by apply writeFile_keeps.
Qed.

Lemma persistPeers_keeps p ord rdir :
  peersPath rdir <> p -> always (keeps p) (persistPeers ord rdir).
Proof.
  intros Hp. cbn. intros s. split.
  { unfold keeps. by destruct (netInfo (world s)). }
  destruct (netInfo (world s)) as [peers|]; [|done].
  cbn. intros s1. split; [done|].
  destruct (os_IsNotExist (err s1)).
  - cbn. intros s2. split; [done|]. intros s3. split; [|done].
    unfold keeps. cbn. by apply WriteFile_other.
  - cbn. intros s2. split; [done|].
    destruct (os_Open _ _) as [e|pf]; [done|].
    destruct (ioutil_ReadAll _ pf) as [e|pfb]; [done|].
    destruct (json_Unmarshal_strings pfb) as [e|fp]; [done|].
    cbn. intros s3. split; [done|]. intros s4. split.
    { unfold keeps. cbn. by apply Remove_other. }
    intros s5. split; [|done]. unfold keeps. cbn. by apply WriteFile_other.
Qed.

Lemma writeFile_keeps_eg pth payload (cont : option error -> Prog) :
  (forall r, always keeps_eg (cont r)) ->
  always keeps_eg (writeFile pth payload cont).
Proof. intros Hc. cbn. intros s. split; [done|apply Hc]. Qed.

Lemma updateFileGo_keeps_eg pth payload :
  always keeps_eg (updateFileGo (GenesisDoc:=GenesisDoc) pth payload).
Proof. cbn. intros s. split; [done|]. intros s'. split; done. Qed.

Lemma persistGenesis_keeps_eg rdir : always keeps_eg (persistGenesis rdir).
Proof.
  cbn. intros s. split; [done|]. intros s1. split; [done|].
  destruct (os_IsNotExist (err s1)); [|done].
  unfold writeGenesis. destruct (gen (world s1)) as [g|]; [|done].
  destruct (sortedGenesis _ _ _ _ g) as [e|[sum write]]; [done|].
  apply writeFile_keeps_eg. intros [e|]; [done|].
  by apply writeFile_keeps_eg.
Qed.

Lemma persistPeers_keeps_eg ord rdir : always keeps_eg (persistPeers ord rdir).
Proof.
  cbn. intros s. split.
  { unfold keeps_eg. by destruct (netInfo (world s)). }
  destruct (netInfo (world s)) as [peers|]; [|done].
  cbn. intros s1. split; [done|].
  destruct (os_IsNotExist (err s1)).
  - cbn. intros s2. split; [done|]. intros s3. split; done.
  - cbn. intros s2. split; [done|].
    destruct (os_Open _ _) as [e|pf]; [done|].
    destruct (ioutil_ReadAll _ pf) as [e|pfb]; [done|].
    destruct (json_Unmarshal_strings pfb) as [e|fp]; [done|].
    cbn. intros s3. split; [done|]. intros s4. split; [done|].
    intros s5. split; done.
Qed.

Lemma persist_tasks_keep_eg ord rdir config h root i (t : Prog) :
  persist_tasks parseFloat formatFloat json_Marshal sha256_Sum256
    json_Unmarshal_strings ord rdir config h root !! i = Some t ->
  always keeps_eg t /\ is_step t = true.
Proof.
  destruct i as [|[|[|[|[|i]]]]]; cbn [persist_tasks lookup list_lookup];
    intros [= <-]; (split; [|done]);
    auto using updateFileGo_keeps_eg, persistGenesis_keeps_eg,
      persistPeers_keeps_eg.
Qed.

(** *** What [updateFile] leaves behind *)

Lemma updateFileGo_ensures pth payload :
  ensures (fun s => disk (world s) !! pth = Some (File payload))
    (updateFileGo (GenesisDoc:=GenesisDoc) pth payload).
Proof.
  cbn. intros s. split; [done|]. intros s'. split; [|done].
  destruct (ioutil_WriteFile (disk (world s')) pth payload).1 eqn:Hw;
    [done|]. intros _.
  rewrite (WriteFile_ok _ _ _ Hw). apply lookup_insert_eq.
Qed.

Lemma keeps_holds p (v : option Node) (t : Prog) :
  always (keeps p) t ->
  always (fun s s' => disk (world s) !! p = v -> disk (world s') !! p = v) t.
Proof.
  apply always_mono. unfold keeps. intros s s' -> . done.
Qed.

(** *** The persist phase *)

(** After a persist phase in which no task failed, both light-root files
    hold the light root of the commit. *)
Lemma persist_light_roots ord rdir config h root sched s :
  let g := run_group sched
             (persist_tasks parseFloat formatFloat json_Marshal
                sha256_Sum256 json_Unmarshal_strings ord rdir config h root)
             s in
  crashed g = false ->
  eg (world (frame g)) = None ->
  disk (world (frame g)) !! latestPath rdir = Some (File root)
  /\ disk (world (frame g)) !! heightPath rdir h = Some (File root).
Proof.
  intros g Hc Heg.
  assert (forall i, i < 5 -> pool g !! i = Some (Ret None)) as Hnil.
  { intros i Hi. apply run_group_all_nil; [|done|done|done].
    apply persist_tasks_keep_eg. }
  split.
  - apply (run_group_ensures
             (fun s => disk (world s) !! latestPath rdir
                       = Some (File root)) 0 sched _ s
             (updateFileGo (latestPath rdir) root));
      [done|done|apply updateFileGo_ensures| |done|apply Hnil; lia].
    intros j t Hj Ht. apply keeps_holds.
    destruct j as [|[|[|[|[|j]]]]]; [done|..]; cbn in Ht; simplify_eq.
    + apply updateFileGo_keeps, heightPath_ne_latestPath.
    + apply updateFileGo_keeps, not_eq_sym.
      by apply latestPath_ne_chain_file.
    + apply persistGenesis_keeps; apply not_eq_sym;
        by apply latestPath_ne_chain_file.
    + apply persistPeers_keeps, not_eq_sym.
      by apply latestPath_ne_chain_file.
  - apply (run_group_ensures
             (fun s => disk (world s) !! heightPath rdir h
                       = Some (File root)) 1 sched _ s
             (updateFileGo (heightPath rdir h) root));
      [done|done|apply updateFileGo_ensures| |done|apply Hnil; lia].
    intros j t Hj Ht. apply keeps_holds.
    destruct j as [|[|[|[|[|j]]]]]; [|done|..]; cbn in Ht; simplify_eq.
    + apply updateFileGo_keeps, not_eq_sym, heightPath_ne_latestPath.
    + apply updateFileGo_keeps, not_eq_sym.
      by apply heightPath_ne_chain_file.
    + apply persistGenesis_keeps; apply not_eq_sym;
        by apply heightPath_ne_chain_file.
    + apply persistPeers_keeps, not_eq_sym.
      by apply heightPath_ne_chain_file.
Qed.

(** *** The fetch phase *)

(** When the fetch phase is over, [commit] holds what this run's call of
    [client.Commit] returned. *)
Lemma fetch_commit_recorded client config stat sched s :
  let g := run_group sched (fetch_tasks client config stat) s in
  crashed g = false ->
  commit (world (frame g))
  = to_option (Commit client (SyncInfo_LatestBlockHeight stat)).
Proof.
  intros g Hc.
  assert (is_Some (pool g !! 1)) as [t Ht].
  { apply lookup_lt_is_Some. unfold g. rewrite run_group_length. cbn. lia. }
  pose proof (run_group_ended _ _ _ _ _ Hc Ht) as Hend.
  unfold g in *.
  eapply (run_group_first
            (fun s => commit (world s)
                      = to_option (Commit client (SyncInfo_LatestBlockHeight stat)))
            1); [reflexivity| | | | |exact Ht|exact Hend].
  - done.
  - intros s0. cbn. intros s1. split; [|by destruct (err s1)].
    by destruct (err s1).
  - intros j t' Hj Ht'.
    destruct j as [|[|[|j]]]; [|done|..]; cbn in Ht'; simplify_eq.
    + cbn. intros s0. split; [done|]. intros s1.
      split; [|by destruct (err s1)]. by destruct (err s1).
    + cbn. intros s0. split; [done|]. intros s1.
      split; [|by destruct (err s1)]. by destruct (err s1).
  - done.
Qed.

Lemma createDirIfNotExist_commit pth w :
  commit (createDirIfNotExist pth w).2 = commit w.
Proof.
  unfold createDirIfNotExist.
  destruct (os_IsNotExist _); [|done].
  by destruct (os_Mkdir _ _) as [[e|] d].
Qed.

(** What a run that returns nil went through. *)
Lemma DumpInfo_nil_inv env base chain config w w' :
  DumpInfo env base chain config w = (Returned None, w') ->
  exists client stat sh hd root,
    dial env = Ok client /\ Status client = Ok stat
    /\ Commit client (SyncInfo_LatestBlockHeight stat) = Ok sh
    /\ SignedHeader_Header sh = Some hd
    /\ NewLightRoot sh = Some root
    /\ exists s,
        let g := run_group (persist_schedule env)
                   (persist_tasks parseFloat formatFloat json_Marshal
                      sha256_Sum256 json_Unmarshal_strings (map_order env)
                      {| dir := base; chainID := chain |} config
                      (Header_Height hd) root) s in
        crashed g = false /\ eg (world (frame g)) = None
        /\ w' = world (frame g).
Proof.
  unfold DumpInfo.
  destruct (dial env) as [e|client] eqn:Hd; [done|].
  destruct (Status client) as [e|stat] eqn:Hs; [done|].
  destruct (negb _); [done|].
  destruct (SyncInfo_CatchingUp stat); [done|].
  unfold after_group at 1.
  destruct (crashed (run_group (fetch_schedule env) _ _)) eqn:Hc1; [done|].
  pose proof (fetch_commit_recorded client config stat (fetch_schedule env) _ Hc1)
    as Hcommit. cbn zeta in Hcommit. revert Hcommit.
  generalize (world (frame (run_group (fetch_schedule env)
    (fetch_tasks client config stat)
    {| world := w_emit [Log "GET /status" ["rpc-addr"; RPCAddr config]]
                  (w_emit [RPC_Status] w); err := None |}))).
  intros w1 Hcommit.
  destruct (eg w1); [done|].
  pose proof (createDirIfNotExist_commit
                (chainPath {| dir := base; chainID := chain |}) w1) as H2.
  destruct (createDirIfNotExist _ w1) as [[e|] w2]; [done|]. cbn in H2.
  pose proof (createDirIfNotExist_commit
                (lrpath {| dir := base; chainID := chain |}) w2) as H3.
  destruct (createDirIfNotExist _ w2) as [[e|] w3]; [done|]. cbn in H3.
  rewrite H2, Hcommit in H3. rewrite H3. clear H2 H3 Hcommit.
  destruct (Commit client (SyncInfo_LatestBlockHeight stat)) as [e|sh] eqn:Hsh;
    [done|]. cbn [to_option].
  destruct (SignedHeader_Header sh) as [hd|] eqn:Hhd; [|done].
  destruct (NewLightRoot sh) as [root|] eqn:Hroot; [|done].
  unfold after_group.
  destruct (crashed (run_group (persist_schedule env) _ _)) eqn:Hc2; [done|].
  intros [= Heg <-].
  exists client, stat, sh, hd, root.
  split; [done|]. split; [done|]. split; [done|]. split; [done|].
  split; [done|].
  eexists. cbn zeta. split; [exact Hc2|]. split; [exact Heg|done].
Qed.

(** C10. After every run of [DumpInfo] that returns nil,
    [light-roots/latest.json] and [light-roots/<h>.json], [h] the height
    of the header of the commit fetched in this run, hold the same
    bytes: [NewLightRoot] of that signed header, the JSON of its
    trust-height and trust-hash.  The header and the commit of that
    signed header are set: a run that meets a nil pointer there
    panics. *)
Theorem light_roots_agree env base chain config w w' :
  DumpInfo env base chain config w = (Returned None, w') ->
  exists client stat sh hd cm,
    dial env = Ok client /\ Status client = Ok stat
    /\ Commit client (SyncInfo_LatestBlockHeight stat) = Ok sh
    /\ SignedHeader_Header sh = Some hd
    /\ SignedHeader_Commit sh = Some cm
    /\ let rdir := {| dir := base; chainID := chain |} in
       let root :=
         MarshalIndent_struct
           [("trust-height", itoa (Header_Height hd));
            ("trust-hash",
             encodeString (HexBytes_String (Commit_BlockID_Hash cm)))] in
       NewLightRoot sh = Some root
       /\ disk w' !! latestPath rdir = Some (File root)
       /\ disk w' !! heightPath rdir (Header_Height hd) = Some (File root).
Proof.
  intros (client & stat & sh & hd & root & Hd & Hs & Hc & Hhd & Hroot & s
          & Hcr & Heg & ->)%DumpInfo_nil_inv.
  unfold NewLightRoot in Hroot. rewrite Hhd in Hroot.
  destruct (SignedHeader_Commit sh) as [cm|] eqn:Hcm; [|done].
  injection Hroot as <-.
  exists client, stat, sh, hd, cm.
  split; [done|]. split; [done|]. split; [done|]. split; [done|].
  split; [done|]. cbn zeta.
  destruct (persist_light_roots (map_order env)
              {| dir := base; chainID := chain |} config _ _
              (persist_schedule env) s Hcr Heg) as [H1 H2].
  split; [|done]. unfold NewLightRoot. by rewrite Hhd, Hcm.
Qed.
End task_facts.

(** * The orchestrator *)

Section orchestrator_facts.
Context {float64 : Type}.
Variable parseFloat : string -> option float64.
Variable formatFloat : float64 -> string.
Context {GenesisDoc : Type}.
Variable json_Marshal : GenesisDoc -> result json.
Variable sha256_Sum256 : string -> string.
Variable json_Unmarshal_strings : string -> result (list string).

Local Abbreviation Frame := (@Frame GenesisDoc).
Local Abbreviation Prog := (@Prog GenesisDoc).
Local Abbreviation World := (@World GenesisDoc).
Local Abbreviation persistGenesis :=
  (persistGenesis parseFloat formatFloat json_Marshal sha256_Sum256).
Local Abbreviation persistPeers :=
  (@persistPeers GenesisDoc json_Unmarshal_strings).
Local Abbreviation DumpInfo :=
  (DumpInfo parseFloat formatFloat json_Marshal sha256_Sum256
     json_Unmarshal_strings).
Implicit Types (s : Frame) (w : World).

(** C4. When the status call succeeds and reports a network other than
    the configured chain (whatever the catching-up flag, so also when it
    is false), [DumpInfo] returns an error whose message holds both
    identifiers; the status call is all the run has done: no genesis,
    commit or net-info call, no file operation, the disk as it was. *)
Theorem DumpInfo_chain_mismatch env base chain config w client stat :
  dial env = Ok client ->
  Status client = Ok stat ->
  NodeInfo_Network stat <> chain ->
  let r := DumpInfo env base chain config w in
  r.1 = Returned (Some (Errorf
          ("node(" +:+ RPCAddr config +:+ ") is on chain("
           +:+ NodeInfo_Network stat +:+ ") not configured chain("
           +:+ chain +:+ ")")))
  /\ trace r.2 = trace w ++ [RPC_Status]
  /\ disk r.2 = disk w
  /\ r.2 = w_emit [RPC_Status] w.
Proof.
  intros Hd Hs Hne. unfold DumpInfo. rewrite Hd. cbn. rewrite Hs. cbn.
  apply String.eqb_neq in Hne. rewrite Hne. cbn. done.
Qed.

(** *** The tasks without interference *)

(** The genesis task, no step of another task between its steps: when
    [genesis.json] exists, the task returns nil and the disk is as it
    was. *)
Lemma persistGenesis_alone_write_once rdir s n :
  disk (world s) !! genesisPath rdir = Some n ->
  (drive (persistGenesis rdir) s).2 = Ret None
  /\ disk (world (drive (persistGenesis rdir) s).1) = disk (world s).
Proof.
  intros Hn. rewrite <-(node_at_entry _ _ (genesisPath_entry rdir)) in Hn.
  cbn. by rewrite (Stat_exists _ _ _ Hn).
Qed.

(** The peers task, no step of another task between its steps: when
    [peers.json] holds a text that [json.Unmarshal] rejects, the task
    returns that error, wrapped, and the disk is as it was. *)
Lemma persistPeers_alone_corrupt ord rdir s peers data e :
  netInfo (world s) = Some peers ->
  disk (world s) !! peersPath rdir = Some (File data) ->
  json_Unmarshal_strings data = Err e ->
  (drive (persistPeers ord rdir) s).2
  = Ret (Some (Errorf ("unmarshaling peer strings: " +:+ Error e)))
  /\ disk (world (drive (persistPeers ord rdir) s).1) = disk (world s).
Proof.
  intros Hn Hp Hu.
  rewrite <-(node_at_entry _ _ (peersPath_entry rdir)) in Hp.
  cbn. rewrite Hn. cbn.
  rewrite (Stat_exists _ _ _ Hp). cbn.
  unfold os_Open. rewrite Hp. cbn. by rewrite Hu.
Qed.

(** The peers task panics at once when [netInfo] is nil. *)
Lemma persistPeers_alone_nil ord rdir s :
  netInfo (world s) = None ->
  drive (persistPeers ord rdir) s = (s, Panic).
Proof. intros Hn. cbn. by rewrite Hn. Qed.

(** The peers task, no step of another task between its steps, on
    a disk where [peers.json] holds a text that decodes to the list [fp]
    and the chain directory exists: the task replaces the file by the
    JSON of a list without duplicates whose strings are those of [fp] and
    those of the discovered list, compared as strings, and it logs
    that it added [len(ps) - len(fp)] peers.  For the prior list
    [a@1.2.3.4:26656] and the discovered list [a@1.2.3.4:26656],
    [b@5.6.7.8:26656] the merged set is those two strings and the
    count is 1. *)
Lemma peers_merge_union ord rdir s peers data fp :
  netInfo (world s) = Some peers ->
  disk (world s) !! peersPath rdir = Some (File data) ->
  parent_state (disk (world s)) (peersPath rdir) = PDir ->
  json_Unmarshal_strings data = Ok fp ->
  let qp := stringsFromPeers peers in
  let ps := merge_peers ord fp qp in
  let fin := drive (persistPeers ord rdir) s in
  fin.2 = Ret None
  /\ disk (world fin.1)
     = <[peersPath rdir := File (MarshalIndent_strings ps)]> (disk (world s))
  /\ trace (world fin.1)
     = trace (world s)
       ++ [FS_Stat (peersPath rdir); FS_Open (peersPath rdir);
           Log ("added "
                +:+ itoa (Z.of_nat (length ps) - Z.of_nat (length fp))
                +:+ " new peers to " +:+ path_Base (peersPath rdir)) [];
           Log ("deleting pth " +:+ path_Base (peersPath rdir)) [];
           FS_Remove (peersPath rdir);
           Log ("writing pth " +:+ path_Base (peersPath rdir)) [];
           FS_WriteFile (peersPath rdir) (MarshalIndent_strings ps)]
  /\ NoDup ps
  /\ list_to_set ps =@{gset string} list_to_set fp ∪ list_to_set qp
  /\ (fp = ["a@1.2.3.4:26656"] ->
      qp = ["a@1.2.3.4:26656"; "b@5.6.7.8:26656"] ->
      list_to_set ps =@{gset string} {["a@1.2.3.4:26656"; "b@5.6.7.8:26656"]}
      /\ (Z.of_nat (length ps) - Z.of_nat (length fp) = 1)%Z).
Proof.
  intros Hn Hp Hd Hu qp ps fin.
  rewrite <-(node_at_entry _ _ (peersPath_entry rdir)) in Hp.
  assert (list_to_set ps =@{gset string} list_to_set fp ∪ list_to_set qp)
    as Hset by apply merge_peers_set.
  split; [|split; [|split; [|split; [|split]]]].
  - unfold fin. cbn. rewrite Hn. cbn. rewrite (Stat_exists _ _ _ Hp). cbn.
    unfold os_Open. rewrite Hp. cbn. rewrite Hu. cbn.
    by rewrite (Remove_WriteFile_file _ _ _ _ Hp Hd).
  - unfold fin. cbn. rewrite Hn. cbn. rewrite (Stat_exists _ _ _ Hp). cbn.
    unfold os_Open. rewrite Hp. cbn. rewrite Hu. cbn.
    by rewrite (Remove_WriteFile_file _ _ _ _ Hp Hd).
  - unfold fin. cbn. rewrite Hn. cbn. rewrite (Stat_exists _ _ _ Hp). cbn.
    unfold os_Open. rewrite Hp. cbn. rewrite Hu. cbn.
    rewrite <-!app_assoc. done.
  - apply merge_peers_NoDup.
  - done.
  - intros Hfp Hqp. rewrite Hset.
    assert (length ps = size (list_to_set fp ∪ list_to_set qp : gset string))
      as -> by apply merge_peers_length.
    rewrite Hfp, Hqp, union_of_example. split; [done|by vm_compute].
Qed.

(** C9. No write-once gate protects a height-indexed light root.  The
    task that [DumpInfo] starts for [light-roots/<h>.json] is
    [updateFile] on that path; and for every height [h], when
    [updateFile] has written that file, a second [updateFile] with other
    content succeeds as well and the file then holds exactly the second
    content. *)
Theorem light_root_overwritten rdir h (c1 c2 : string) s :
  let first := drive (updateFileGo (heightPath rdir h) c1) s in
  let second := drive (updateFileGo (heightPath rdir h) c2) first.1 in
  first.2 = Ret None ->
  second.2 = Ret None
  /\ disk (world second.1) !! heightPath rdir h = Some (File c2)
  /\ forall ord config root,
       persist_tasks parseFloat formatFloat json_Marshal sha256_Sum256
         json_Unmarshal_strings ord rdir config h root !! 1
       = Some (updateFileGo (heightPath rdir h) root).
Proof.
  cbn. pose proof (heightPath_entry rdir h) as He.
  set (p := heightPath rdir h) in *. set (fs := disk (world s)).
  intros H1.
  assert ((ioutil_WriteFile (os_Remove fs p).2 p c1).1 = None) as Hw.
  { by destruct (ioutil_WriteFile (os_Remove fs p).2 p c1).1. }
  clear H1. rewrite (WriteFile_ok _ _ _ Hw).
  assert ((os_Remove fs p).2 !! p = None
          /\ parent_errno (os_Remove fs p).2 p = None) as [Habs Hpar].
  { revert Hw. unfold os_Remove, ioutil_WriteFile.
    rewrite !(node_at_entry _ _ He).
    destruct (fs !! p) as [[old|]|] eqn:Hp; cbn.
    - rewrite lookup_delete_eq.
      by destruct (parent_errno (delete p fs) p).
    - destruct (dir_in_use fs p); cbn.
      + by rewrite Hp.
      + rewrite lookup_delete_eq.
        by destruct (parent_errno (delete p fs) p).
    - rewrite Hp. by destruct (parent_errno fs p). }
  assert (ioutil_WriteFile
            (os_Remove (<[p := File c1]> (os_Remove fs p).2) p).2 p c2
          = (None, <[p := File c2]> (os_Remove fs p).2)) as ->.
  { unfold os_Remove at 1.
    rewrite (node_at_entry _ _ He), lookup_insert_eq. cbn.
    rewrite delete_insert_id by done.
    unfold ioutil_WriteFile.
    by rewrite (node_at_entry _ _ He), Habs, Hpar. }
  cbn. split; [done|]. split; [apply lookup_insert_eq|]. done.
Qed.
End orchestrator_facts.


(** * Runs whose tasks do not interleave *)

Section serial_runs.
Context {float64 : Type}.
Variable parseFloat : string -> option float64.
Variable formatFloat : float64 -> string.
Context {GenesisDoc : Type}.
Variable json_Marshal : GenesisDoc -> result json.
Variable sha256_Sum256 : string -> string.
Variable json_Unmarshal_strings : string -> result (list string).

Local Abbreviation Frame := (@Frame GenesisDoc).
Local Abbreviation Prog := (@Prog GenesisDoc).
Local Abbreviation World := (@World GenesisDoc).
Local Abbreviation persistGenesis :=
  (persistGenesis parseFloat formatFloat json_Marshal sha256_Sum256).
Local Abbreviation persistPeers :=
  (@persistPeers GenesisDoc json_Unmarshal_strings).
Local Abbreviation persist_tasks :=
  (persist_tasks parseFloat formatFloat json_Marshal sha256_Sum256
     json_Unmarshal_strings).
Local Abbreviation DumpInfo :=
  (DumpInfo parseFloat formatFloat json_Marshal sha256_Sum256
     json_Unmarshal_strings).
Implicit Types (s : Frame) (w : World).

Lemma fetch_tasks_keep p client config stat i (t : Prog) :
  fetch_tasks client config stat !! i = Some t -> always (keeps p) t.
Proof.
  destruct i as [|[|[|i]]]; cbn; intros [= <-];
    cbn; intros s; (split; [done|]);
    intros s'; (split; [|by destruct (err s')]);
    unfold keeps; by destruct (err s').
Qed.

Lemma createDirIfNotExist_other pth w p :
  pth <> p -> disk (createDirIfNotExist pth w).2 !! p = disk w !! p.
Proof.
  intros Hne. unfold createDirIfNotExist.
  destruct (os_IsNotExist _); [|done].
  pose proof (Mkdir_other (disk w) pth p Hne) as H.
  by destruct (os_Mkdir (disk w) pth) as [[e|] d].
Qed.

(** Up to the persist phase, a run leaves every file directly under the
    chain directory as it was: either it ends there without returning
    nil, or it starts the persist tasks on such a disk. *)
Lemma DumpInfo_prepares env base chain config w
    (P : Outcome * World -> Prop) :
  let rdir := {| dir := base; chainID := chain |} in
  (forall o w', chain_files_kept rdir w w' ->
                o <> Returned None -> P (o, w')) ->
  (forall h root w',
      chain_files_kept rdir w w' ->
      P (after_group
           (run_group (persist_schedule env)
              (persist_tasks (map_order env) rdir config h root)
              {| world := w'; err := None |})
           (fun w => (Returned (eg w), w)))) ->
  P (DumpInfo env base chain config w).
Proof.
  intros rdir Hfail Hpersist. unfold DumpInfo.
  destruct (dial env) as [e|client]; [by apply Hfail|].
  destruct (Status client) as [e|stat]; [by apply Hfail|].
  destruct (negb _); [by apply Hfail|].
  destruct (SyncInfo_CatchingUp stat); [by apply Hfail|].
  set (s0 := {| world := w_emit [Log "GET /status" ["rpc-addr"; RPCAddr config]]
                           (w_emit [RPC_Status] w); err := None |}).
  assert (chain_files_kept rdir w
            (world (frame (run_group (fetch_schedule env)
                             (fetch_tasks client config stat) s0)))) as Hk.
  { intros name Hn Hl.
    apply (run_group_always (keeps (path_Join (chainPath rdir) name))
             (fun _ => eq_refl)
             (fun s1 s2 s3 H1 H2 => eq_trans H2 H1)
             (fun _ _ => eq_refl)
             (fetch_schedule env) (fetch_tasks client config stat) s0
             (fetch_tasks_keep _ client config stat)). }
  unfold after_group at 1.
  destruct (crashed (run_group (fetch_schedule env) _ s0)); [by apply Hfail|].
  revert Hk.
  generalize (world (frame (run_group (fetch_schedule env)
                              (fetch_tasks client config stat) s0))).
  intros w1 H1. destruct (eg w1); [by apply Hfail|].
  fold rdir.
  assert (chain_files_kept rdir w (createDirIfNotExist (chainPath rdir) w1).2)
    as H2.
  { intros name Hn Hl. rewrite createDirIfNotExist_other; [by apply H1|].
    by apply chainPath_ne_chain_file. }
  destruct (createDirIfNotExist (chainPath rdir) w1) as [[e|] w2];
    cbn in H2; [by apply Hfail|].
  assert (chain_files_kept rdir w (createDirIfNotExist (lrpath rdir) w2).2)
    as H3.
  { intros name Hn Hl. rewrite createDirIfNotExist_other; [by apply H2|].
    by apply lrpath_ne_chain_file. }
  destruct (createDirIfNotExist (lrpath rdir) w2) as [[e|] w3];
    cbn in H3; [by apply Hfail|].
  destruct (commit w3) as [sh|]; [|by apply Hfail].
  destruct (SignedHeader_Header sh) as [hd|]; [|by apply Hfail].
  destruct (NewLightRoot sh) as [root|]; [|by apply Hfail].
  by apply Hpersist.
Qed.

Lemma keeps_refl p s : keeps p s s.
Proof. done. Qed.

Lemma keeps_trans p s1 s2 s3 : keeps p s1 s2 -> keeps p s2 s3 -> keeps p s1 s3.
Proof. unfold keeps. congruence. Qed.

Lemma keeps_record p e s : keeps p s (on_world (w_record e) s).
Proof. done. Qed.

(** A task that never writes [p] keeps [p] when it runs to its end on
    its own. *)
Lemma finish_task_keeps p (g : @Goroutines GenesisDoc) i :
  (forall t, pool g !! i = Some t -> always (keeps p) t) ->
  keeps p (frame g) (frame (finish_task g i)).
Proof.
  intros H. apply finish_task_related;
    [apply keeps_refl|apply keeps_trans|apply keeps_record|].
  intros t Ht. apply always_drive;
    [apply keeps_refl|apply keeps_trans|by apply H].
Qed.

(** The persist phase, its tasks one after the other in the order in
    which [DumpInfo] starts them: an existing [genesis.json] and its
    checksum stay as they are. *)
Lemma persist_serial_write_once ord rdir config h root s n :
  disk (world s) !! genesisPath rdir = Some n ->
  let g := run_group [] (persist_tasks ord rdir config h root) s in
  disk (world (frame g)) !! genesisPath rdir = Some n
  /\ disk (world (frame g)) !! genesisSumPath rdir
     = disk (world s) !! genesisSumPath rdir.
Proof.
  intros Hn g.
  set (g0 := {| pool := persist_tasks ord rdir config h root; frame := s;
                crashed := false |}).
  set (g1 := finish_task g0 0). set (g2 := finish_task g1 1).
  set (g3 := finish_task g2 2). set (g4 := finish_task g3 3).
  assert (g = finish_task g4 4) as -> by reflexivity.
  assert (pool g1 !! 1 = persist_tasks ord rdir config h root !! 1) as P1
    by by (unfold g1; rewrite finish_task_pool_ne).
  assert (pool g2 !! 2 = persist_tasks ord rdir config h root !! 2) as P2
    by by (unfold g2, g1; rewrite !finish_task_pool_ne).
  assert (pool g3 !! 3 = persist_tasks ord rdir config h root !! 3) as P3
    by by (unfold g3, g2, g1; rewrite !finish_task_pool_ne).
  assert (pool g4 !! 4 = persist_tasks ord rdir config h root !! 4) as P4
    by by (unfold g4, g3, g2, g1; rewrite !finish_task_pool_ne).
  assert (forall p, (p = genesisPath rdir \/ p = genesisSumPath rdir) ->
            keeps p s (frame g3)) as H3.
  { intros p Hp.
    apply (keeps_trans p _ (frame g2)); [apply (keeps_trans p _ (frame g1))|].
    - apply (finish_task_keeps p g0 0). intros t [= <-].
      apply updateFileGo_keeps.
      destruct Hp as [-> | ->]; by apply latestPath_ne_chain_file.
    - apply (finish_task_keeps p g1 1). rewrite P1. intros t [= <-].
      apply updateFileGo_keeps.
      destruct Hp as [-> | ->]; by apply heightPath_ne_chain_file.
    - apply (finish_task_keeps p g2 2). rewrite P2. intros t [= <-].
      apply updateFileGo_keeps.
      destruct Hp as [-> | ->]; intros H%path_Join_inj; done. }
  assert (forall p, (p = genesisPath rdir \/ p = genesisSumPath rdir) ->
            keeps p (frame g3) (frame g4)) as H4.
  { intros p Hp. unfold g4.
    apply (finish_task_related (keeps p) (keeps_refl p) (keeps_trans p)
             (keeps_record p) g3 3).
    rewrite P3. intros t [= <-]. unfold keeps.
    pose proof (H3 (genesisPath rdir) (or_introl eq_refl)) as Hg.
    unfold keeps in Hg. rewrite Hn in Hg.
    by destruct (persistGenesis_alone_write_once parseFloat formatFloat
                   json_Marshal sha256_Sum256 rdir (frame g3) n Hg)
      as [_ ->]. }
  assert (forall p, (p = genesisPath rdir \/ p = genesisSumPath rdir) ->
            keeps p (frame g4) (frame (finish_task g4 4))) as H5.
  { intros p Hp. apply finish_task_keeps. rewrite P4. intros t [= <-].
    apply persistPeers_keeps.
    destruct Hp as [-> | ->]; intros H%path_Join_inj; done. }
  unfold keeps in H3, H4, H5. split.
  - rewrite <-Hn. rewrite H5, H4, H3 by by left. done.
  - rewrite H5, H4, H3 by by right. done.
Qed.

(** Runs whose persist tasks do not interleave: whatever the node
    reports and however the fetches interleave, an existing
    [genesis.json] and its checksum stay as they are. *)
Lemma DumpInfo_write_once_serial env base chain config w n :
  let rdir := {| dir := base; chainID := chain |} in
  persist_schedule env = [] ->
  disk w !! genesisPath rdir = Some n ->
  disk (DumpInfo env base chain config w).2 !! genesisPath rdir = Some n
  /\ disk (DumpInfo env base chain config w).2 !! genesisSumPath rdir
     = disk w !! genesisSumPath rdir.
Proof.
  intros rdir Hsched Hn.
  apply (DumpInfo_prepares env base chain config w
           (fun r => disk r.2 !! genesisPath rdir = Some n
                     /\ disk r.2 !! genesisSumPath rdir
                        = disk w !! genesisSumPath rdir)).
  - intros o w' Hw' _. cbn. split.
    + rewrite <-Hn. by apply (Hw' "genesis.json").
    + by apply (Hw' "genesis.json.sum").
  - intros h root w' Hw'. rewrite Hsched. unfold after_group. fold rdir in Hw' |- *.
    assert (disk w' !! genesisPath rdir = Some n) as Hn'.
    { rewrite <-Hn. by apply (Hw' "genesis.json"). }
    destruct (persist_serial_write_once (map_order env) rdir config h root
                {| world := w'; err := None |} n Hn') as [H1 H2].
    change (disk (world {| world := w'; err := None |}) !! genesisSumPath rdir)
      with (disk w' !! path_Join (chainPath rdir) "genesis.json.sum") in H2.
    rewrite (Hw' "genesis.json.sum") in H2 by done.
    by destruct (crashed _).
Qed.

Lemma finish_task_step (g : @Goroutines GenesisDoc) i (t : Prog) :
  crashed g = false -> pool g !! i = Some t -> is_step t = true ->
  finish_task g i = settle i (drive t (frame g)).2 (drive t (frame g)).1 g.
Proof.
  intros Hc Hi Ht. unfold finish_task. rewrite Hc, Hi.
  destruct t as [| |upd k]; [done..|].
  by destruct (drive (Step upd k) (frame g)).
Qed.

(** The persist phase, its tasks one after the other in the order in
    which [DumpInfo] starts them: a [peers.json] that does not decode
    stays as it is, and the phase does not end well. *)
Lemma persist_serial_peers_corrupt ord rdir config h root s data e :
  disk (world s) !! peersPath rdir = Some (File data) ->
  json_Unmarshal_strings data = Err e ->
  let g := run_group [] (persist_tasks ord rdir config h root) s in
  disk (world (frame g)) !! peersPath rdir = Some (File data)
  /\ (crashed g = true \/ eg (world (frame g)) <> None).
Proof.
  intros Hp Hu g.
  set (g0 := {| pool := persist_tasks ord rdir config h root; frame := s;
                crashed := false |}).
  set (g1 := finish_task g0 0). set (g2 := finish_task g1 1).
  set (g3 := finish_task g2 2). set (g4 := finish_task g3 3).
  assert (g = finish_task g4 4) as -> by reflexivity.
  assert (pool g1 !! 1 = persist_tasks ord rdir config h root !! 1) as P1
    by by (unfold g1; rewrite finish_task_pool_ne).
  assert (pool g2 !! 2 = persist_tasks ord rdir config h root !! 2) as P2
    by by (unfold g2, g1; rewrite !finish_task_pool_ne).
  assert (pool g3 !! 3 = persist_tasks ord rdir config h root !! 3) as P3
    by by (unfold g3, g2, g1; rewrite !finish_task_pool_ne).
  assert (pool g4 !! 4 = persist_tasks ord rdir config h root !! 4) as P4
    by by (unfold g4, g3, g2, g1; rewrite !finish_task_pool_ne).
  assert (disk (world (frame g4)) !! peersPath rdir = Some (File data)) as H4.
  { rewrite <-Hp.
    apply (keeps_trans _ _ (frame g3)); [apply (keeps_trans _ _ (frame g2));
      [apply (keeps_trans _ _ (frame g1))|]|].
    - apply (finish_task_keeps _ g0 0). intros t [= <-].
      apply updateFileGo_keeps. by apply latestPath_ne_chain_file.
    - apply (finish_task_keeps _ g1 1). rewrite P1. intros t [= <-].
      apply updateFileGo_keeps. by apply heightPath_ne_chain_file.
    - apply (finish_task_keeps _ g2 2). rewrite P2. intros t [= <-].
      apply updateFileGo_keeps. intros H%path_Join_inj; done.
    - apply (finish_task_keeps _ g3 3). rewrite P3. intros t [= <-].
      apply persistGenesis_keeps; intros H%path_Join_inj; done. }
  destruct (crashed g4) eqn:Hc.
  { assert (finish_task g4 4 = g4) as ->
      by (unfold finish_task; by rewrite Hc).
    split; [done|by left]. }
  rewrite (finish_task_step g4 4 _ Hc P4 eq_refl).
  destruct (netInfo (world (frame g4))) as [peers|] eqn:Hni.
  - destruct (persistPeers_alone_corrupt json_Unmarshal_strings ord rdir
                (frame g4) peers data e Hni H4 Hu) as [H5 H6].
    destruct (drive (persistPeers ord rdir) (frame g4)) as [s' p'].
    cbn [fst snd] in H5, H6. subst p'.
    cbn [settle frame crashed is_panic on_world world disk w_record eg
           fst snd].
    split; [by rewrite H6|right]. by destruct (eg (world s')).
  - rewrite (persistPeers_alone_nil json_Unmarshal_strings ord rdir _ Hni).
    split; [done|by left].
Qed.

(** Runs whose persist tasks do not interleave: whatever the node
    reports and however the fetches interleave, a [peers.json] that
    does not decode stays as it is, and the run does not return nil. *)
Lemma DumpInfo_peers_corrupt_serial env base chain config w data e :
  let rdir := {| dir := base; chainID := chain |} in
  persist_schedule env = [] ->
  disk w !! peersPath rdir = Some (File data) ->
  json_Unmarshal_strings data = Err e ->
  (DumpInfo env base chain config w).1 <> Returned None
  /\ disk (DumpInfo env base chain config w).2 !! peersPath rdir
     = Some (File data).
Proof.
  intros rdir Hsched Hp Hu.
  apply (DumpInfo_prepares env base chain config w
           (fun r => r.1 <> Returned None
                     /\ disk r.2 !! peersPath rdir = Some (File data))).
  - intros o w' Hw' Ho. cbn. split; [done|].
    rewrite <-Hp. by apply (Hw' "peers.json").
  - intros h root w' Hw'. rewrite Hsched. unfold after_group.
    fold rdir in Hw' |- *.
    assert (disk w' !! peersPath rdir = Some (File data)) as Hp'.
    { rewrite <-Hp. by apply (Hw' "peers.json"). }
    destruct (persist_serial_peers_corrupt (map_order env) rdir config h root
                {| world := w'; err := None |} data e Hp' Hu) as [H1 H2].
    destruct (crashed _) eqn:Hc; cbn [fst snd]; (split; [|exact H1]).
    + discriminate.
    + destruct H2 as [?|H2]; [discriminate|]. intros Heg. apply H2.
      exact (f_equal (fun o => match o with
                               | Returned r => r
                               | Panicked => None
                               end) Heg).
Qed.

End serial_runs.


Section serial_fetch.
Context {float64 : Type}.
Variable parseFloat : string -> option float64.
Variable formatFloat : float64 -> string.
Context {GenesisDoc : Type}.
Variable json_Marshal : GenesisDoc -> result json.
Variable sha256_Sum256 : string -> string.
Variable json_Unmarshal_strings : string -> result (list string).

Local Abbreviation Frame := (@Frame GenesisDoc).
Local Abbreviation Prog := (@Prog GenesisDoc).
Local Abbreviation World := (@World GenesisDoc).
Local Abbreviation DumpInfo :=
  (DumpInfo parseFloat formatFloat json_Marshal sha256_Sum256
     json_Unmarshal_strings).
Implicit Types (s : Frame) (w : World).

Lemma quiet_refl s : quiet s s.
Proof. split; [done|]. exists []. by rewrite app_nil_r. Qed.

Lemma quiet_trans s1 s2 s3 : quiet s1 s2 -> quiet s2 s3 -> quiet s1 s3.
Proof.
  intros [Hd1 (evs1 & Ht1 & Hf1)] [Hd2 (evs2 & Ht2 & Hf2)]. split.
  - congruence.
  - exists (evs1 ++ evs2). rewrite Ht2, Ht1, app_assoc. split; [done|].
    by rewrite existsb_app, Hf1, Hf2.
Qed.

Lemma quiet_record e s : quiet s (on_world (w_record e) s).
Proof. split; [done|]. exists []. by rewrite app_nil_r. Qed.

Lemma quiet_emit (evs : list Event) s :
  existsb is_fs_event evs = false -> quiet s (on_world (w_emit evs) s).
Proof. intros H. split; [done|]. by exists evs. Qed.

Lemma fetch_tasks_quiet client config stat i (t : Prog) :
  fetch_tasks client config stat !! i = Some t -> always quiet t.
Proof.
  destruct i as [|[|[|i]]]; cbn; intros [= <-];
    cbn; intros s; (split; [by apply (quiet_emit [_])|]);
    intros s'; (split; [|by destruct (err s')]);
    destruct (err s'); try apply quiet_refl; by apply (quiet_emit [_]).
Qed.

(** The fetch phase does no file operation, under any schedule. *)
Lemma fetch_phase_quiet client config stat sched s :
  quiet s (frame (run_group sched (fetch_tasks client config stat) s)).
Proof.
  apply (run_group_always quiet quiet_refl quiet_trans quiet_record).
  apply fetch_tasks_quiet.
Qed.

(** The fetch tasks one after the other, in the order in which
    [DumpInfo] starts them, in a group that holds no error yet: the
    group gets the error of the first fetch that failed. *)
Lemma fetch_serial_error client config stat w msg :
  eg w = None ->
  first_fetch_error client stat = Some msg ->
  let g := run_group [] (fetch_tasks client config stat)
             {| world := w; err := None |} in
  crashed g = false /\ eg (world (frame g)) = Some (Errorf msg).
Proof.
  destruct w as [d e0 gn cm ni tr]. cbn [eg]. intros ->.
  unfold first_fetch_error.
  destruct (Genesis client) as [e1|g1] eqn:H1,
           (Commit client (SyncInfo_LatestBlockHeight stat)) as [e2|c2] eqn:H2,
           (NetInfo client) as [e3|n3] eqn:H3;
    intros [= <-]; unfold run_group, fetch_tasks, fetchGenesis, fetchCommit,
      fetchNetInfo, finish_task;
    cbn -[String.append]; rewrite ?H1, ?H2, ?H3; cbn -[String.append];
    done.
Qed.

(** Runs whose fetch tasks do not interleave, in a process in
    which no earlier task has failed: the run returns the error of the
    first fetch that failed, in the order in which [DumpInfo] starts
    them, under the name of its artifact; the disk is as it was and no
    file operation has been done. *)
Lemma DumpInfo_fetch_failure_serial env base chain config w client stat msg :
  fetch_schedule env = [] ->
  eg w = None ->
  dial env = Ok client ->
  Status client = Ok stat ->
  NodeInfo_Network stat = chain ->
  SyncInfo_CatchingUp stat = false ->
  first_fetch_error client stat = Some msg ->
  (DumpInfo env base chain config w).1
  = Returned (Some (Errorf ("fetching: " +:+ msg)))
  /\ disk (DumpInfo env base chain config w).2 = disk w
  /\ exists evs,
       trace (DumpInfo env base chain config w).2 = trace w ++ evs
       /\ existsb is_fs_event evs = false.
Proof.
  intros Hsched Heg Hd Hs <- Hc Hmsg. unfold DumpInfo.
  rewrite Hd. cbv beta iota zeta delta [Ok]. rewrite Hs.
  cbv beta iota zeta delta [Ok]. rewrite String.eqb_refl, Hc, Hsched.
  cbv beta iota zeta delta [negb].
  set (s0 := {| world := w_emit [Log "GET /status" ["rpc-addr"; RPCAddr config]]
                           (w_emit [RPC_Status] w); err := None |}).
  destruct (fetch_serial_error client config stat (world s0) msg Heg Hmsg)
    as [Hcr Hegg].
  destruct (fetch_phase_quiet client config stat [] s0)
    as [Hdisk (evs & Htr & Hfs)].
  unfold after_group.
  change {| world := world s0; err := None |} with s0 in Hcr, Hegg.
  rewrite Hcr, Hegg. cbn [fst snd Error].
  split; [done|]. split; [exact Hdisk|].
  exists ([RPC_Status; Log "GET /status" ["rpc-addr"; RPCAddr config]] ++ evs).
  split; [|exact Hfs].
  rewrite Htr. cbn [s0 world w_emit trace]. by rewrite <-!app_assoc.
Qed.
End serial_fetch.

(** * The claims on concrete runs *)

Lemma sortedGenesis_deterministic_witness :
  struct_eq ex_genesis ex_genesis_reordered
  /\ to_option (sortedGenesis ex_parseFloat ex_formatFloat ex_Marshal ex_digest
                  ex_genesis)
     = to_option (sortedGenesis ex_parseFloat ex_formatFloat ex_Marshal ex_digest
                    ex_genesis_reordered).
Proof.
  assert (struct_eq ex_genesis ex_genesis_reordered) as Heq.
  { eapply (se_object _
              [("genesis_time", JString "2020-09-01T00:00:00Z");
               ("chain_id", JString "chain-A");
               ("app_state",
                JObject [("auth", JArray [JBool true; JNull]);
                         ("staking", JObject [("bond", JString "uatom")])])]).
    - repeat constructor.
      eapply (se_object _ [("staking", JObject [("bond", JString "uatom")]);
                           ("auth", JArray [JBool true; JNull])]).
      + repeat constructor.
        eapply (se_object _ [("bond", JString "uatom")]).
        * repeat constructor.
        * reflexivity.
        * by apply (bool_decide_unpack _).
      + apply perm_swap.
      + by apply (bool_decide_unpack _).
    - apply perm_swap.
    - by apply (bool_decide_unpack _). }
  split; [exact Heq|].
  exact (proj1 (sortedGenesis_deterministic ex_parseFloat ex_formatFloat
                  ex_Marshal ex_digest ex_genesis ex_genesis_reordered
                  ex_genesis ex_genesis_reordered eq_refl eq_refl Heq)).
Defined.

Lemma DumpInfo_chain_mismatch_witness :
  NodeInfo_Network (ex_status "chain-B") <> "chain-A"
  /\ (ex_DumpInfo (ex_env ex_client_chain_B [] []) (ex_world ex_disk_empty)).1
     = Returned (Some (Errorf
         "node(http://node:26657) is on chain(chain-B) not configured chain(chain-A)"))
  /\ (ex_DumpInfo (ex_env ex_client_chain_B [] []) (ex_world ex_disk_empty)).2
     = w_emit [RPC_Status] (ex_world ex_disk_empty).
Proof.
  assert (NodeInfo_Network (ex_status "chain-B") <> "chain-A") as Hne by done.
  split; [exact Hne|].
  pose proof (DumpInfo_chain_mismatch ex_parseFloat ex_formatFloat ex_Marshal
                ex_digest ex_Unmarshal_strings (ex_env ex_client_chain_B [] [])
                "/registry" "chain-A" ex_config (ex_world ex_disk_empty)
                ex_client_chain_B (ex_status "chain-B") eq_refl eq_refl Hne)
    as (H1 & _ & _ & H2).
  split; [exact H1|exact H2].
Defined.

Lemma peers_merge_union_witness :
  disk (world ex_frame_peers) !! peersPath ex_rdir
  = Some (File (MarshalIndent_strings ex_prior))
  /\ ex_Unmarshal_strings (MarshalIndent_strings ex_prior) = Ok ex_prior
  /\ (drive (persistPeers ex_Unmarshal_strings ex_order ex_rdir) ex_frame_peers).2
     = Ret None
  /\ list_to_set (merge_peers ex_order ex_prior (stringsFromPeers ex_peers))
     =@{gset string} {["a@1.2.3.4:26656"; "b@5.6.7.8:26656"]}
  /\ (Z.of_nat (length (merge_peers ex_order ex_prior (stringsFromPeers ex_peers)))
      - Z.of_nat (length ex_prior) = 1)%Z.
Proof.
  assert (disk (world ex_frame_peers) !! peersPath ex_rdir
          = Some (File (MarshalIndent_strings ex_prior))) as Hp
    by (vm_compute; reflexivity).
  assert (parent_state (disk (world ex_frame_peers)) (peersPath ex_rdir) = PDir)
    as Hd by (vm_compute; reflexivity).
  assert (ex_Unmarshal_strings (MarshalIndent_strings ex_prior) = Ok ex_prior)
    as Hu by (vm_compute; reflexivity).
  pose proof (peers_merge_union ex_Unmarshal_strings ex_order ex_rdir
                ex_frame_peers ex_peers _ ex_prior eq_refl Hp Hd Hu)
    as (H1 & _ & _ & _ & _ & H2).
  destruct (H2 eq_refl eq_refl) as [H3 H4].
  split; [exact Hp|]. split; [exact Hu|]. split; [exact H1|].
  split; [exact H3|exact H4].
Defined.

Lemma light_root_overwritten_witness :
  let c1 := MarshalIndent_LightRoot
              {| TrustHeight := 100; TrustHash := HexBytes_String "AB" |} in
  let c2 := MarshalIndent_LightRoot
              {| TrustHeight := 100; TrustHash := HexBytes_String "CD" |} in
  let first := drive (updateFileGo (heightPath ex_rdir 100) c1) ex_frame_dirs in
  let second := drive (updateFileGo (heightPath ex_rdir 100) c2) first.1 in
  NewLightRoot (ex_header "AB" 100) = Some c1
  /\ NewLightRoot (ex_header "CD" 100) = Some c2
  /\ c1 <> c2
  /\ first.2 = Ret None
  /\ disk (world first.1) !! heightPath ex_rdir 100 = Some (File c1)
  /\ second.2 = Ret None
  /\ disk (world second.1) !! heightPath ex_rdir 100 = Some (File c2).
Proof.
  intros c1 c2 first second.
  assert (first.2 = Ret None) as H1 by (vm_compute; reflexivity).
  destruct (light_root_overwritten ex_parseFloat ex_formatFloat ex_Marshal
              ex_digest ex_Unmarshal_strings ex_rdir 100 c1 c2 ex_frame_dirs H1)
    as (H2 & H3 & _).
  split; [reflexivity|]. split; [reflexivity|].
  split; [by vm_compute|]. split; [exact H1|].
  split; [vm_compute; reflexivity|]. split; [exact H2|exact H3].
Defined.

Lemma outcome_eta {G} (r : Outcome * @World G) o :
  r.1 = o -> r = (o, r.2).
Proof. destruct r. cbn. by intros ->. Defined.

Lemma light_roots_agree_witness :
  ex_run = (Returned None, ex_run.2)
  /\ exists client stat sh hd cm,
      dial (ex_env (ex_client ex_genesis "AB") [2; 0; 1] [4; 1; 3; 0; 4])
      = Ok client
      /\ Status client = Ok stat
      /\ Commit client (SyncInfo_LatestBlockHeight stat) = Ok sh
      /\ SignedHeader_Header sh = Some hd
      /\ SignedHeader_Commit sh = Some cm
      /\ let rdir := {| dir := "/registry"; chainID := "chain-A" |} in
         let root :=
           MarshalIndent_struct
             [("trust-height", itoa (Header_Height hd));
              ("trust-hash",
               encodeString (HexBytes_String (Commit_BlockID_Hash cm)))] in
         NewLightRoot sh = Some root
         /\ disk ex_run.2 !! latestPath rdir = Some (File root)
         /\ disk ex_run.2 !! heightPath rdir (Header_Height hd)
            = Some (File root).
Proof.
  assert (ex_run = (Returned None, ex_run.2)) as Hr.
  { apply outcome_eta. vm_compute. reflexivity. }
  split; [exact Hr|].
  exact (light_roots_agree ex_parseFloat ex_formatFloat ex_Marshal ex_digest
           ex_Unmarshal_strings _ _ _ _ _ _ Hr).
Defined.


(** C2, a run that breaks it.  [genesis.json] and its checksum exist and
    [peers.json] does not; the node is healthy and reports another genesis
    document.  The genesis task assigns the result of its [os.Stat] to
    [err], the peers task assigns the result of its own [os.Stat] to the
    same [err], and the genesis task then reads [os.IsNotExist(err)]: it
    sees the missing peers file and writes both genesis files anew.  When
    the tasks run one after the other, the files stay as they were. *)
Theorem genesis_rewritten_under_race :
  let w := ex_world ex_disk_genesis in
  let node := ex_client ex_genesis_other "AB" in
  let raced := ex_DumpInfo (ex_env node [] [3; 4; 3]) w in
  let serial := ex_DumpInfo (ex_env node [] []) w in
  disk w !! genesisPath ex_rdir = Some (File "{}")
  /\ disk w !! genesisSumPath ex_rdir = Some (File "0a")
  /\ raced.1 = Returned None
  /\ (exists sum bytes,
        sortedGenesis ex_parseFloat ex_formatFloat ex_Marshal ex_digest
          ex_genesis_other = Ok (sum, bytes)
        /\ disk raced.2 !! genesisPath ex_rdir = Some (File bytes)
        /\ disk raced.2 !! genesisSumPath ex_rdir = Some (File sum)
        /\ bytes <> "{}" /\ sum <> "0a")
  /\ serial.1 = Returned None
  /\ disk serial.2 !! genesisPath ex_rdir = Some (File "{}")
  /\ disk serial.2 !! genesisSumPath ex_rdir = Some (File "0a").
Proof.
  cbv zeta. split; [vm_compute; done|]. split; [vm_compute; done|].
  split; [vm_compute; done|]. split.
  { eexists _, _. split; [vm_compute; reflexivity|].
    split; [vm_compute; done|]. split; [vm_compute; done|]. split; vm_compute; done. }
  split; [vm_compute; done|]. split; vm_compute; done.
Qed.

(** C3, two runs that break it.  Only the commit call fails.  In the
    first run the commit task assigns the error to [err], the net-info
    task assigns nil to the same [err], and the commit task then reads
    [err != nil]: no task returns an error, [DumpInfo] creates the two
    directories and panics on the nil [commit].  In the second run the
    genesis task reads the error of the commit call out of [err] and the
    error [DumpInfo] returns names the genesis file.  When the tasks run
    one after the other, the error names the commit and the disk is as it
    was. *)
Theorem fetch_failure_lost_under_race :
  let w := ex_world ex_disk_empty in
  let lost := ex_DumpInfo (ex_env ex_client_commit_down [1; 2; 1] []) w in
  let mislabelled := ex_DumpInfo (ex_env ex_client_commit_down [0; 1; 0] []) w in
  let serial := ex_DumpInfo (ex_env ex_client_commit_down [] []) w in
  Commit ex_client_commit_down 100 = Err (Errorf "connection refused")
  /\ lost.1 = Panicked
  /\ disk lost.2 = ex_disk_dirs
  /\ existsb is_fs_event (trace lost.2) = true
  /\ mislabelled.1
     = Returned (Some (Errorf "fetching: genesis file: connection refused"))
  /\ serial.1 = Returned (Some (Errorf "fetching: commit: connection refused"))
  /\ disk serial.2 = disk w
  /\ existsb is_fs_event (trace serial.2) = false.
Proof.
  cbv zeta. split; [done|]. split; [vm_compute; done|].
  split; [apply map_to_list_inj; vm_compute; done|].
  split; [vm_compute; done|]. split; [vm_compute; done|].
  split; [vm_compute; done|].
  split; [apply map_to_list_inj; vm_compute; done|vm_compute; done].
Qed.

(** C5, two calls that break it.  The first call fails because the commit
    call fails.  The second call, in the same process, meets a healthy
    node: all three fetches succeed, and still it returns the error of the
    first call and writes nothing, because [eg] is a package-level group
    that keeps its first error.  The same call on the same disk with a
    fresh [eg] returns nil and writes the registry. *)
Theorem reinvocation_returns_stale_error :
  let first := ex_DumpInfo (ex_env ex_client_commit_down [] [])
                 (ex_world ex_disk_empty) in
  let healthy := ex_env (ex_client ex_genesis "AB") [] [] in
  let second := ex_DumpInfo healthy first.2 in
  let fresh := ex_DumpInfo healthy (ex_world (disk first.2)) in
  first.1 = Returned (Some (Errorf "fetching: commit: connection refused"))
  /\ second.1 = Returned (Some (Errorf "fetching: commit: connection refused"))
  /\ disk second.2 = disk first.2
  /\ commit second.2 = Some (ex_header "AB" 100)
  /\ fresh.1 = Returned None
  /\ disk fresh.2 !! latestPath ex_rdir
     = File <$> NewLightRoot (ex_header "AB" 100).
Proof.
  cbv zeta. split; [vm_compute; done|]. split; [vm_compute; done|].
  split; [apply map_to_list_inj; vm_compute; done|].
  split; [vm_compute; done|]. split; vm_compute; done.
Qed.

(** C8, a run that breaks it.  [peers.json] holds a text that is not JSON
    and [genesis.json] does not exist.  The peers task assigns the result
    of its [os.Stat] to [err], the genesis task assigns the result of its
    own [os.Stat] to the same [err], and the peers task then reads
    [os.IsNotExist(err)]: it sees the missing genesis file, never parses
    the peers file and overwrites it with the discovered peers; [DumpInfo]
    returns nil.  When the tasks run one after the other, the peers task
    fails to unmarshal and the file stays as it was. *)
Theorem peers_file_lost_under_race :
  let w := ex_world ex_disk_peers_corrupt in
  let node := ex_client ex_genesis "AB" in
  let raced := ex_DumpInfo (ex_env node [] [4; 3; 4]) w in
  let serial := ex_DumpInfo (ex_env node [] []) w in
  disk w !! peersPath ex_rdir = Some (File "not json")
  /\ (exists e, ex_Unmarshal_strings "not json" = Err e)
  /\ raced.1 = Returned None
  /\ disk raced.2 !! peersPath ex_rdir
     = Some (File (MarshalIndent_strings (stringsFromPeers ex_peers)))
  /\ serial.1
     = Returned (Some (Errorf
         "unmarshaling peer strings: invalid character 'o' in literal null (expecting 'u')"))
  /\ disk serial.2 !! peersPath ex_rdir = Some (File "not json").
Proof.
  cbv zeta. split; [vm_compute; done|]. split; [by eexists|].
  split; [vm_compute; done|]. split; [vm_compute; done|].
  split; vm_compute; done.
Qed.

(** C6, a run that breaks it.  [peers.json] holds a list that decodes,
    with a peer that the node does not report, and [genesis.json] does
    not exist.  The peers task assigns the result of its [os.Stat] to
    [err], the genesis task assigns the result of its own [os.Stat] to the
    same [err], and the peers task then reads [os.IsNotExist(err)]: it
    sees the missing genesis file, does not read the peers file and
    writes the discovered peers in its place; [DumpInfo] returns nil and
    the peer of the file is gone.  When the tasks run one after the
    other, the file holds the union. *)
Theorem peers_union_lost_under_race :
  let w := ex_world ex_disk_peers_gone in
  let node := ex_client ex_genesis "AB" in
  let raced := ex_DumpInfo (ex_env node [] [4; 3; 4]) w in
  let serial := ex_DumpInfo (ex_env node [] []) w in
  let P := ex_prior_gone in
  let D := stringsFromPeers ex_peers in
  disk w !! peersPath ex_rdir = Some (File (MarshalIndent_strings P))
  /\ ex_Unmarshal_strings (MarshalIndent_strings P) = Ok P
  /\ P = ["c@9.9.9.9:26656"]
  /\ D = ["a@1.2.3.4:26656"; "b@5.6.7.8:26656"]
  /\ raced.1 = Returned None
  /\ disk raced.2 !! peersPath ex_rdir = Some (File (MarshalIndent_strings D))
  /\ (list_to_set D : gset string) <> list_to_set P ∪ list_to_set D
  /\ serial.1 = Returned None
  /\ disk serial.2 !! peersPath ex_rdir
     = Some (File (MarshalIndent_strings (merge_peers ex_order P D)))
  /\ list_to_set (merge_peers ex_order P D)
     =@{gset string} list_to_set P ∪ list_to_set D.
Proof.
  cbv zeta. split; [vm_compute; done|]. split; [vm_compute; done|].
  split; [done|]. split; [vm_compute; done|].
  split; [vm_compute; done|]. split; [vm_compute; done|].
  split.
  { intros H.
    assert ("c@9.9.9.9:26656" ∈@{gset string}
            list_to_set ex_prior_gone ∪ list_to_set (stringsFromPeers ex_peers))
      as Hin.
    { apply elem_of_union. left. apply elem_of_list_to_set. left. }
    rewrite <-H in Hin. apply elem_of_list_to_set in Hin.
    vm_compute in Hin.
    repeat (apply elem_of_cons in Hin as [Hin|Hin]; [discriminate Hin|]).
    by apply elem_of_nil in Hin. }
  split; [vm_compute; done|]. split; [vm_compute; done|].
  apply merge_peers_set.
Qed.

(** * More on the registry paths *)

Lemma append_inv_tail (a b c : string) : a +:+ c = b +:+ c -> a = b.
Proof.
  revert b. induction a as [|x a IH]; intros [|y b]; cbn.
  - done.
  - intros H. apply (f_equal String.length) in H. cbn in H.
    rewrite append_length in H. lia.
  - intros H. apply (f_equal String.length) in H. cbn in H.
    rewrite append_length in H. lia.
  - intros [= -> H]. f_equal. by apply IH.
Qed.

Lemma itoa_inj (h1 h2 : Z) : itoa h1 = itoa h2 -> h1 = h2.
Proof. unfold itoa. apply (inj pretty). Qed.

(** X1. The light-root file of a height is the file of no other height:
    [%d] writes different digits for different numbers. *)
Theorem heightPath_injective r (h1 h2 : Z) :
  h1 <> h2 -> heightPath r h1 <> heightPath r h2.
Proof.
  intros Hne. rewrite !heightPath_flat.
  intros H%under_inj.
  apply append_inv_head in H. apply append_inv_tail in H.
  by apply itoa_inj in H.
Qed.

Lemma heightPath_injective_witness :
  (100 <> 101)%Z /\ heightPath ex_rdir 100 <> heightPath ex_rdir 101.
Proof.
  assert (100 <> 101)%Z as Hne by lia.
  split; [exact Hne|]. exact (heightPath_injective ex_rdir 100 101 Hne).
Defined.

(** X2. The two directories and the six files that [DumpInfo] names are
    eight different paths, whatever the base directory, the chain id and
    the height. *)
Theorem registry_paths_distinct r (h : Z) :
  NoDup [chainPath r; lrpath r; genesisPath r; genesisSumPath r;
         binariesPath r; peersPath r; latestPath r; heightPath r h].
Proof. exact (registry_paths_NoDup r h). Qed.

(** * More on the file helpers *)

Lemma node_at_Some_entry (fs : FS) p n :
  node_at fs p = Some n -> always_dir p = false ->
  is_entry p = true /\ fs !! p = Some n.
Proof.
  unfold node_at, is_entry. intros H Ha. rewrite Ha in H |- *.
  by destruct p.
Qed.

Lemma parent_errno_entry (fs : FS) p :
  parent_errno fs p = None -> p <> EmptyString.
Proof. by intros H ->. Qed.

Section helper_facts.
Context {GenesisDoc : Type}.
Local Abbreviation Frame := (@Frame GenesisDoc).
Local Abbreviation Prog := (@Prog GenesisDoc).
Local Abbreviation World := (@World GenesisDoc).
Implicit Types (s : Frame) (w : World) (p q pth : string).

(** X3. After a call of [createDirIfNotExist] that returned nil, a second
    call on the same path returns nil as well, makes no directory and
    leaves the disk as it is: all it does is the [os.Stat]. *)
Theorem createDirIfNotExist_idempotent pth w :
  (createDirIfNotExist pth w).1 = None ->
  let w1 := (createDirIfNotExist pth w).2 in
  createDirIfNotExist pth w1 = (None, w_emit [FS_Stat pth] w1).
Proof.
  unfold createDirIfNotExist.
  destruct (os_IsNotExist (os_Stat (disk w) pth)) eqn:Hs; cbn.
  - unfold os_Mkdir. destruct (node_at (disk w) pth) as [n|] eqn:Hp; [done|].
    destruct (parent_errno (disk w) pth) eqn:Hd; [done|]. cbn. intros _.
    pose proof (node_at_None_entry _ _ Hp (parent_errno_entry _ _ Hd)) as He.
    unfold os_Stat. by rewrite (node_at_entry _ _ He), lookup_insert_eq.
  - intros _. by rewrite Hs.
Qed.

(** X4. [createDirIfNotExist] makes one directory, not the directories
    above it ([os.Mkdir], not [os.MkdirAll]): when [pth] names nothing
    and a directory on the way to it is missing, with no regular file on
    the way, it returns the error of [os.Mkdir] behind
    [making dir <pth>: ] and the disk is as it was. *)
Theorem createDirIfNotExist_missing_parent pth w :
  parent_state (disk w) pth = PMissing ->
  node_at (disk w) pth = None ->
  (createDirIfNotExist pth w).1
  = Some (Errorf ("making dir " +:+ pth +:+ ": mkdir " +:+ pth
                  +:+ ": no such file or directory"))
  /\ disk (createDirIfNotExist pth w).2 = disk w.
Proof.
  intros Hd Hp.
  unfold createDirIfNotExist, os_Stat, os_Mkdir, parent_errno, missing_errno.
  rewrite Hp, Hd. cbn. done.
Qed.

(** X5. [createDirIfNotExist] does not check that it leaves a directory
    behind.  When [pth] is a regular file, or when [pth] names nothing
    and a regular file stands on the way to it (so that [os.Stat] fails
    with an error other than not-exist), it returns nil, the disk is as
    it was and [pth] is no directory. *)
Theorem createDirIfNotExist_nil_without_directory pth w :
  (exists data, node_at (disk w) pth = Some (File data))
  \/ (node_at (disk w) pth = None /\ parent_state (disk w) pth = PFile) ->
  createDirIfNotExist pth w = (None, w_emit [FS_Stat pth] w)
  /\ node_at (disk (createDirIfNotExist pth w).2) pth <> Some Dir.
Proof.
  intros [[data Hp]|[Hp Hd]];
    unfold createDirIfNotExist, os_Stat, missing_errno;
    rewrite Hp, ?Hd; cbn; by rewrite Hp.
Qed.

(** X6. [updateFile] run on its own returns nil exactly when the
    directory that holds [pth] exists and [pth] is not a directory that
    [os.Remove] refuses (one with entries, the root, the working
    directory or a directory above it).  Then the disk is the disk
    before with [pth] holding the payload: a file is replaced, and so is
    an empty directory.  In any case no other path changes. *)
Theorem updateFile_succeeds_iff pth payload s :
  let fs := disk (world s) in
  let fin := drive (updateFileGo pth payload) s in
  (fin.2 = Ret None
   <-> parent_state fs pth = PDir
       /\ ~ (node_at fs pth = Some Dir /\ dir_in_use fs pth = true))
  /\ (fin.2 = Ret None -> disk (world fin.1) = <[pth := File payload]> fs)
  /\ (forall q, q <> pth -> disk (world fin.1) !! q = fs !! q).
Proof.
  cbn. set (fs := disk (world s)).
  assert (forall fs' : FS,
            node_at fs' pth = None ->
            parent_state fs' pth = parent_state fs pth ->
            ioutil_WriteFile fs' pth payload
            = match parent_state fs pth with
              | PDir => (None, <[pth := File payload]> fs')
              | PFile => (Some (PathError "open" pth ENOTDIR), fs')
              | PMissing => (Some (PathError "open" pth ENOENT), fs')
              end) as Hw.
  { intros fs' Hp Hd. unfold ioutil_WriteFile, parent_errno.
    rewrite Hp, Hd. by destruct (parent_state fs pth). }
  assert (is_entry pth = true ->
          ioutil_WriteFile (delete pth fs) pth payload
          = match parent_state fs pth with
            | PDir => (None, <[pth := File payload]> (delete pth fs))
            | PFile => (Some (PathError "open" pth ENOTDIR), delete pth fs)
            | PMissing => (Some (PathError "open" pth ENOENT), delete pth fs)
            end) as Hdel.
  { intros He. apply Hw; [|apply parent_state_delete].
    by rewrite (node_at_entry _ _ He), lookup_delete_eq. }
  split; [|split].
  - unfold os_Remove. destruct (node_at fs pth) as [[old|]|] eqn:Hp; cbn.
    + rewrite (Hdel (node_at_file_entry _ _ _ Hp)).
      destruct (parent_state fs pth); cbn; split;
        try done; try (by intros [? _]). intros _. by split; [|intros [? _]].
    + destruct (dir_in_use fs pth) eqn:Hc; cbn.
      * unfold ioutil_WriteFile. rewrite Hp. cbn.
        split; [done|]. intros [_ H]. by destruct H.
      * apply orb_false_iff in Hc as [Ha _].
        rewrite (Hdel (proj1 (node_at_Some_entry _ _ _ Hp Ha))).
        destruct (parent_state fs pth); cbn; split;
          try done; try (by intros [? _]). intros _. by split; [|intros [_ ?]].
    + rewrite (Hw fs Hp eq_refl). destruct (parent_state fs pth); cbn; split;
        try done; try (by intros [? _]). intros _. by split; [|intros [? _]].
  - unfold os_Remove. destruct (node_at fs pth) as [[old|]|] eqn:Hp; cbn.
    + rewrite (Hdel (node_at_file_entry _ _ _ Hp)).
      destruct (parent_state fs pth); cbn; [|done..].
      intros _. apply insert_delete_eq.
    + destruct (dir_in_use fs pth) eqn:Hc; cbn.
      * unfold ioutil_WriteFile. by rewrite Hp.
      * apply orb_false_iff in Hc as [Ha _].
        rewrite (Hdel (proj1 (node_at_Some_entry _ _ _ Hp Ha))).
        destruct (parent_state fs pth); cbn; [|done..].
        intros _. apply insert_delete_eq.
    + rewrite (Hw fs Hp eq_refl). by destruct (parent_state fs pth).
  - intros q Hq. rewrite WriteFile_other, Remove_other; done.
Qed.
End helper_facts.

(** * More on peers and light roots *)

(** X7. [stringsFromPeers] gives one string per peer, in the order of the
    peers: [<id>@<ip>:<port>], where the port is what follows the last
    colon of the listen address, and the whole listen address when it has
    no colon. *)
Theorem stringsFromPeers_entries (ni : list Peer) :
  length (stringsFromPeers ni) = length ni
  /\ forall i p, ni !! i = Some p ->
       exists port,
         stringsFromPeers ni !! i
         = Some (NodeInfo_ID p +:+ "@" +:+ RemoteIP p +:+ ":" +:+ port)
         /\ occurs ":" port = false
         /\ (NodeInfo_ListenAddr p = port
             \/ exists host, NodeInfo_ListenAddr p = host +:+ ":" +:+ port).
Proof.
  unfold stringsFromPeers. split; [apply length_fmap|].
  intros i p Hp. exists (last_segment (NodeInfo_ListenAddr p)).
  rewrite list_lookup_fmap, Hp. split; [done|].
  unfold last_segment.
  destruct (split_last ":" (NodeInfo_ListenAddr p)) as [[d b]|] eqn:Hs.
  - apply split_last_Some in Hs as [Hs Hb]. split; [done|]. right. by exists d.
  - apply split_last_None in Hs. split; [done|]. by left.
Qed.

(** X8. [dedupe] returns every string of its argument once: the result has no
    duplicates, holds the same strings, is no longer than the argument,
    and is a rearrangement of the argument when that has no duplicates. *)
Theorem dedupe_each_once ord (ele : list string) :
  NoDup (dedupe ord ele)
  /\ (forall x, x ∈ dedupe ord ele <-> x ∈ ele)
  /\ length (dedupe ord ele) <= length ele
  /\ (NoDup ele -> dedupe ord ele ≡ₚ ele).
Proof.
  destruct (dedupe_spec ord ele) as [Hnd Hin].
  split; [done|]. split; [done|]. split.
  - apply submseteq_length, NoDup_submseteq; [done|]. intros x. by rewrite Hin.
  - intros Hele. by apply NoDup_Permutation.
Qed.

(** X9. When the list read from [peers.json] has no duplicates, the number
    that the peers task logs, [len(ps) - len(fp)], is the number of
    discovered strings that the file did not hold. *)
Theorem merge_count_is_new ord (fp qp : list string) :
  NoDup fp ->
  (Z.of_nat (length (merge_peers ord fp qp)) - Z.of_nat (length fp))%Z
  = Z.of_nat (size (list_to_set qp ∖ list_to_set fp : gset string)).
Proof.
  intros Hfp. rewrite merge_peers_length, size_union_alt.
  rewrite size_list_to_set by done. lia.
Qed.

Lemma merge_count_is_new_witness :
  NoDup ex_prior
  /\ (Z.of_nat (length (merge_peers ex_order ex_prior
                          (stringsFromPeers ex_peers)))
      - Z.of_nat (length ex_prior))%Z
     = Z.of_nat (size (list_to_set (stringsFromPeers ex_peers)
                       ∖ list_to_set ex_prior : gset string)).
Proof.
  assert (NoDup ex_prior) as Hnd.
  { apply NoDup_singleton. }
  split; [exact Hnd|].
  exact (merge_count_is_new ex_order ex_prior (stringsFromPeers ex_peers) Hnd).
Defined.

(** ** The light root determines its header *)

Lemma all_chars_split (P : ascii -> bool) (a a' r r' : string) x x' :
  all_chars P a = true -> all_chars P a' = true ->
  P x = false -> P x' = false ->
  a +:+ String x r = a' +:+ String x' r' -> a = a' /\ r = r'.
Proof.
  intros Ha Ha' Hx Hx'. revert a' Ha'.
  induction a as [|y a IH]; intros [|y' a'] Ha'; cbn.
  - by intros [= _ ->].
  - intros [= -> _]. cbn in Ha'. by rewrite Hx in Ha'.
  - intros [= -> _]. cbn in Ha. by rewrite Hx' in Ha.
  - intros [= -> H]. cbn in Ha, Ha'.
    apply andb_true_iff in Ha as [_ Ha]. apply andb_true_iff in Ha' as [_ Ha'].
    destruct (IH Ha _ Ha' H) as [-> ->]. done.
Qed.

Lemma hex_upper_cases (P : ascii -> Prop) :
  P "0"%char -> P "1"%char -> P "2"%char -> P "3"%char -> P "4"%char ->
  P "5"%char -> P "6"%char -> P "7"%char -> P "8"%char -> P "9"%char ->
  P "A"%char -> P "B"%char -> P "C"%char -> P "D"%char -> P "E"%char ->
  P "F"%char -> forall n, P (hex_upper n).
Proof. intros. unfold hex_upper. repeat case_match; assumption. Qed.

Lemma hex_upper_is_hex n : is_hex_upper (hex_upper n) = true.
Proof. by apply (hex_upper_cases (fun a => is_hex_upper a = true)). Qed.

Lemma hex_upper_escape n :
  escape_byte (hex_upper n) = String (hex_upper n) EmptyString.
Proof.
  by apply (hex_upper_cases
              (fun a => escape_byte a = String a EmptyString)).
Qed.

Lemma unhex_hex_upper n : (n < 16)%N -> unhex (hex_upper n) = n.
Proof.
  intros Hn.
  assert (n ∈ [0; 1; 2; 3; 4; 5; 6; 7; 8; 9; 10; 11; 12; 13; 14; 15]%N) as Hin.
  { assert (n = N.of_nat (N.to_nat n)) as -> by lia.
    assert (N.to_nat n < 16) as Hlt by lia.
    revert Hlt. generalize (N.to_nat n). intros k Hk.
    do 16 (destruct k as [|k]; [set_solver|]). lia. }
  set_unfold. destruct_or!; subst; done.
Qed.

Lemma hex_encode_upper_chars bz :
  all_chars is_hex_upper (hex_encode hex_upper bz) = true.
Proof.
  induction bz as [|a bz IH]; cbn; [done|].
  by rewrite !hex_upper_is_hex, IH.
Qed.

Lemma hex_encode_upper_escape bz :
  escape (hex_encode hex_upper bz) = hex_encode hex_upper bz.
Proof.
  induction bz as [|a bz IH]; cbn; [done|].
  by rewrite !hex_upper_escape, IH.
Qed.

Lemma hex_encode_upper_inj bz1 bz2 :
  hex_encode hex_upper bz1 = hex_encode hex_upper bz2 -> bz1 = bz2.
Proof.
  revert bz2. induction bz1 as [|a bz1 IH]; intros [|b bz2]; cbn; try done.
  intros [= H1 H2 H3]. f_equal; [|by apply IH].
  pose proof (N_ascii_bounded a) as Ha. pose proof (N_ascii_bounded b) as Hb.
  apply (f_equal unhex) in H1, H2.
  rewrite !unhex_hex_upper in H1, H2
    by (try (apply N.Div0.div_lt_upper_bound; lia); apply N.mod_lt; lia).
  rewrite <-(ascii_N_embedding a), <-(ascii_N_embedding b). f_equal.
  rewrite (N.div_mod (N_of_ascii a) 16), (N.div_mod (N_of_ascii b) 16) by lia.
  by rewrite H1, H2.
Qed.

Lemma light_root_text_inj h1 b1 h2 b2 :
  MarshalIndent_LightRoot
    {| TrustHeight := h1; TrustHash := HexBytes_String b1 |}
  = MarshalIndent_LightRoot
      {| TrustHeight := h2; TrustHash := HexBytes_String b2 |} ->
  h1 = h2 /\ b1 = b2.
Proof.
  intros Heq.
  unfold MarshalIndent_LightRoot, MarshalIndent_struct, encode_seq,
    encode_member, HexBytes_String, encodeString in Heq.
  cbn [fmap list_fmap fst snd String.concat TrustHeight TrustHash] in Heq.
  rewrite !hex_encode_upper_escape in Heq.
  cbn in Heq. injection Heq as Heq.
  rewrite !append_assoc in Heq. cbn [String.append] in Heq.
  apply (all_chars_split is_decimal) in Heq as [Hh Heq];
    [|apply itoa_decimal..|done|done].
  apply itoa_inj in Hh as ->.
  injection Heq as Heq.
  rewrite ?append_assoc in Heq. cbn [String.append] in Heq.
  apply (all_chars_split is_hex_upper) in Heq as [Hb _];
    [|apply hex_encode_upper_chars..|done|done].
  by apply hex_encode_upper_inj in Hb as ->.
Qed.

(** X10. For a signed header whose header and commit are set, so that
    [NewLightRoot] returns, every signed header that differs from it
    (another height, another block hash, or a nil pointer) gives another
    result: the file names the header it was written from. *)
Theorem NewLightRoot_injective (sh1 sh2 : SignedHeader) :
  is_Some (NewLightRoot sh1) ->
  sh1 <> sh2 -> NewLightRoot sh1 <> NewLightRoot sh2.
Proof.
  intros [r1 H1] Hne Heq. apply Hne. clear Hne.
  rewrite H1 in Heq. symmetry in Heq. revert H1 Heq.
  destruct sh1 as [[[h1]|] [[b1]|]], sh2 as [[[h2]|] [[b2]|]];
    unfold NewLightRoot;
    cbn [SignedHeader_Header SignedHeader_Commit Header_Height
         Commit_BlockID_Hash]; try done.
  intros [= <-] H%(inj Some). by apply light_root_text_inj in H as [-> ->].
Qed.

Lemma NewLightRoot_injective_witness :
  is_Some (NewLightRoot (ex_header "AB" 100))
  /\ ex_header "AB" 100 <> ex_header "AB" 101
  /\ NewLightRoot (ex_header "AB" 100) <> NewLightRoot (ex_header "AB" 101).
Proof.
  assert (is_Some (NewLightRoot (ex_header "AB" 100))) as Hs by by eexists.
  assert (ex_header "AB" 100 <> ex_header "AB" 101) as Hne by discriminate.
  split; [exact Hs|]. split; [exact Hne|].
  exact (NewLightRoot_injective _ _ Hs Hne).
Defined.

(** * More on the canonicalizer *)

Section canonical_form.
Context {float64 : Type}.
Variable parseFloat : string -> option float64.
Variable formatFloat : float64 -> string.

(** A text that decodes has only numbers that fit a float64. *)
Lemma Unmarshal_numbers d v :
  Unmarshal parseFloat d = inr v -> numbers_parse parseFloat d = true.
Proof.
  revert v. induction d as [| | | |l IH|ms IH] using json_ind';
    intros v; cbn [numbers_parse]; try done.
  - cbn. destruct (parseFloat lit) as [f|] eqn:Hf; [|done].
    intros _. apply bool_decide_eq_true. by exists f.
  - rewrite Unmarshal_array. generalize (@nil (@value float64)).
    induction IH as [|d l Hd _ IHl]; intros acc; [done|].
    cbn. destruct (Unmarshal parseFloat d) as [e|v'] eqn:Hv; [done|].
    intros Hl. rewrite (Hd _ eq_refl). by apply (IHl (v' :: acc)).
  - rewrite Unmarshal_object. generalize (∅ : gmap string (@value float64)).
    induction IH as [|[k d] ms Hd _ IHms]; intros acc; [done|].
    cbn. cbn in Hd. destruct (Unmarshal parseFloat d) as [e|v'] eqn:Hv; [done|].
    intros Hl. rewrite (Hd _ eq_refl). by apply (IHms (<[k := v']> acc)).
Qed.

Context {GenesisDoc : Type}.
Variable json_Marshal : GenesisDoc -> result json.
Variable sha256_Sum256 : string -> string.

(** X12. When [json.Marshal] has returned the text of the document,
    [sortedGenesis] returns a result exactly when every number literal
    of the text fits a float64; the checksum it returns is the lower-case
    hex of the SHA-256 of the canonical bytes it returns. *)
Theorem sortedGenesis_succeeds_iff (g : GenesisDoc) (d : json) :
  json_Marshal g = Ok d ->
  ((exists sum indented,
      sortedGenesis parseFloat formatFloat json_Marshal sha256_Sum256 g
      = Ok (sum, indented))
   <-> numbers_parse parseFloat d = true)
  /\ forall sum indented,
       sortedGenesis parseFloat formatFloat json_Marshal sha256_Sum256 g
       = Ok (sum, indented) ->
       sum = hex_encode hex_lower (sha256_Sum256 indented).
Proof.
  intros Hd. unfold sortedGenesis. rewrite Hd. cbn. split; [split|].
  - intros (sum & indented & H).
    destruct (Unmarshal parseFloat d) as [e|v] eqn:Hv; [done|].
    by eapply Unmarshal_numbers.
  - intros Hn. destruct (Unmarshal_total _ _ Hn) as [v ->]. by eexists _, _.
  - intros sum indented. destruct (Unmarshal parseFloat d); [done|].
    by intros [= <- <-].
Qed.
End canonical_form.

Lemma sortedGenesis_succeeds_iff_witness :
  ex_Marshal ex_genesis = Ok ex_genesis
  /\ ((exists sum indented,
         sortedGenesis ex_parseFloat ex_formatFloat ex_Marshal ex_digest
           ex_genesis = Ok (sum, indented))
      <-> numbers_parse ex_parseFloat ex_genesis = true).
Proof.
  split; [reflexivity|].
  exact (proj1 (sortedGenesis_succeeds_iff ex_parseFloat ex_formatFloat
                  ex_Marshal ex_digest ex_genesis ex_genesis eq_refl)).
Defined.

(** * More on the orchestrator *)

Section scheduler_safety.
Context {GenesisDoc : Type}.
Local Abbreviation Frame := (@Frame GenesisDoc).
Local Abbreviation Prog := (@Prog GenesisDoc).
Local Abbreviation Goroutines := (@Goroutines GenesisDoc).

(** Bodies that are safe for [Inv] never crash the group and leave a
    state in [Inv], under any schedule. *)
Lemma run_group_safe (Inv : Frame -> Prop) sched (tasks : list Prog) s :
  Inv s ->
  (forall e s, Inv s -> Inv (on_world (w_record e) s)) ->
  (forall i p, tasks !! i = Some p -> safe Inv p) ->
  crashed (run_group sched tasks s) = false
  /\ Inv (frame (run_group sched tasks s)).
Proof.
  intros H0 Hrec Htasks.
  cut (crashed (run_group sched tasks s) = false
       /\ Inv (frame (run_group sched tasks s))
       /\ forall i p, pool (run_group sched tasks s) !! i = Some p ->
                      safe Inv p).
  { tauto. }
  apply (run_group_invariant (fun g =>
    crashed g = false /\ Inv (frame g)
    /\ forall i p, pool g !! i = Some p -> safe Inv p)); [done|].
  clear H0 Htasks. intros g i (Hc & Hinv & Hsafe).
  unfold step_task. rewrite Hc.
  destruct (pool g !! i) as [[| |upd k]|] eqn:Hi; try done.
  pose proof (Hsafe _ _ Hi) as Hk. cbn in Hk.
  destruct (Hk _ Hinv) as [Hupd Hks]. cbn [settle crashed frame pool].
  split; [by destruct (k (frame g))|]. split.
  - destruct (k (frame g)) as [[e|]| |]; auto.
  - intros j p. destruct (decide (i = j)) as [->|Hne].
    + rewrite list_lookup_insert_eq by by eapply lookup_lt_Some.
      by intros [= <-].
    + rewrite list_lookup_insert_ne by done. apply Hsafe.
Qed.
End scheduler_safety.

Section orchestrator_more.
Context {float64 : Type}.
Variable parseFloat : string -> option float64.
Variable formatFloat : float64 -> string.
Context {GenesisDoc : Type}.
Variable json_Marshal : GenesisDoc -> result json.
Variable sha256_Sum256 : string -> string.
Variable json_Unmarshal_strings : string -> result (list string).

Local Abbreviation Frame := (@Frame GenesisDoc).
Local Abbreviation Prog := (@Prog GenesisDoc).
Local Abbreviation World := (@World GenesisDoc).
Local Abbreviation persist_tasks :=
  (persist_tasks parseFloat formatFloat json_Marshal sha256_Sum256
     json_Unmarshal_strings).
Local Abbreviation DumpInfo :=
  (DumpInfo parseFloat formatFloat json_Marshal sha256_Sum256
     json_Unmarshal_strings).
Implicit Types (s : Frame) (w : World).

(** *** The checks before the first fetch *)

(** X13. Unless the client can be made and the node answers the status call,
    is on the configured chain and has caught up, [DumpInfo] returns
    the error of the check that failed; it has made the status call at
    most, and no other call and no file operation. *)
Theorem DumpInfo_gate env base chain config w :
  (forall client stat,
      dial env = Ok client -> Status client = Ok stat ->
      NodeInfo_Network stat = chain -> SyncInfo_CatchingUp stat <> false) ->
  let r := DumpInfo env base chain config w in
  (exists e, dial env = Err e
     /\ r = (Returned (Some (Errorf ("error creating tendermint client: "
                                     +:+ Error e))), w))
  \/ (exists client e, dial env = Ok client /\ Status client = Err e
        /\ r = (Returned (Some (Errorf ("error fetching client status: "
                                        +:+ Error e))),
                w_emit [RPC_Status] w))
  \/ (exists client stat, dial env = Ok client /\ Status client = Ok stat
        /\ NodeInfo_Network stat <> chain
        /\ r = (Returned (Some (Errorf
                  ("node(" +:+ RPCAddr config +:+ ") is on chain("
                   +:+ NodeInfo_Network stat +:+ ") not configured chain("
                   +:+ chain +:+ ")"))),
                w_emit [RPC_Status] w))
  \/ (exists client stat, dial env = Ok client /\ Status client = Ok stat
        /\ NodeInfo_Network stat = chain
        /\ SyncInfo_CatchingUp stat = true
        /\ r = (Returned (Some (Errorf
                  ("node(" +:+ RPCAddr config +:+ ") on chain("
                   +:+ chain +:+ ") still catching up"))),
                w_emit [RPC_Status] w)).
Proof.
  intros Hbad. cbn zeta. unfold DumpInfo.
  destruct (dial env) as [e|client] eqn:Hd; [left; by exists e|].
  destruct (Status client) as [e|stat] eqn:Hs;
    [right; left; by exists client, e|].
  destruct (String.eqb (NodeInfo_Network stat) chain) eqn:Hn; cbn [negb].
  - apply String.eqb_eq in Hn.
    specialize (Hbad client stat eq_refl Hs Hn).
    destruct (SyncInfo_CatchingUp stat) eqn:Hc; [|done].
    right; right; right. by exists client, stat.
  - apply String.eqb_neq in Hn.
    right; right; left. by exists client, stat.
Qed.

(** *** What a run never touches *)

Lemma persist_tasks_keep p ord rdir config h root i (t : Prog) :
  p ∉ [genesisPath rdir; genesisSumPath rdir; binariesPath rdir;
       peersPath rdir; latestPath rdir] ->
  p <> heightPath rdir h ->
  persist_tasks ord rdir config h root !! i = Some t ->
  always (keeps p) t.
Proof.
  rewrite !not_elem_of_cons. intros (Hg & Hs & Hb & Hp & Hl & _) Hh.
  destruct i as [|[|[|[|[|i]]]]]; cbn [persist_tasks lookup list_lookup];
    intros [= <-].
  - by apply updateFileGo_keeps, not_eq_sym.
  - by apply updateFileGo_keeps, not_eq_sym.
  - by apply updateFileGo_keeps, not_eq_sym.
  - apply persistGenesis_keeps; by apply not_eq_sym.
  - by apply persistPeers_keeps, not_eq_sym.
Qed.

(** X14. Whatever the node answers and however the tasks interleave, a run
    changes no path but the two directories of the chain, its five
    files and the light-root file of the height of the commit that the
    node returns in this run: every other entry of the disk, the light
    roots of other heights among them, is after the run as it was
    before. *)
Theorem DumpInfo_touches_registry_only env base chain config w p :
  let rdir := {| dir := base; chainID := chain |} in
  p ∉ [chainPath rdir; lrpath rdir; genesisPath rdir; genesisSumPath rdir;
       binariesPath rdir; peersPath rdir; latestPath rdir] ->
  (forall client stat sh hd,
      dial env = Ok client -> Status client = Ok stat ->
      Commit client (SyncInfo_LatestBlockHeight stat) = Ok sh ->
      SignedHeader_Header sh = Some hd ->
      p <> heightPath rdir (Header_Height hd)) ->
  disk (DumpInfo env base chain config w).2 !! p = disk w !! p.
Proof.
  intros rdir Hp Hh. unfold DumpInfo.
  destruct (dial env) as [e|client] eqn:Hd; [done|].
  destruct (Status client) as [e|stat] eqn:Hs; [done|].
  specialize (Hh client stat).
  destruct (negb _); [done|].
  destruct (SyncInfo_CatchingUp stat); [done|].
  set (s0 := {| world := w_emit [Log "GET /status" ["rpc-addr"; RPCAddr config]]
                           (w_emit [RPC_Status] w); err := None |}).
  assert (keeps p s0 (frame (run_group (fetch_schedule env)
                               (fetch_tasks client config stat) s0))) as Hk.
  { apply (run_group_always (keeps p) (keeps_refl p) (keeps_trans p)
             (keeps_record p)).
    apply fetch_tasks_keep. }
  unfold keeps in Hk. cbn [s0 world w_emit disk] in Hk.
  unfold after_group at 1.
  destruct (crashed (run_group (fetch_schedule env) _ s0)) eqn:Hcr;
    [exact Hk|].
  pose proof (fetch_commit_recorded client config stat (fetch_schedule env)
                s0 Hcr) as Hcom.
  cbn zeta in Hcom. revert Hk Hcom.
  generalize (world (frame (run_group (fetch_schedule env)
                              (fetch_tasks client config stat) s0))).
  intros w1 H1 Hc1. destruct (eg w1); [exact H1|].
  fold rdir. rewrite !not_elem_of_cons in Hp.
  destruct Hp as (Hc & Hl & Hrest).
  pose proof (createDirIfNotExist_other (chainPath rdir) w1 p
                (not_eq_sym Hc)) as H2.
  pose proof (createDirIfNotExist_commit (chainPath rdir) w1) as C2.
  destruct (createDirIfNotExist (chainPath rdir) w1) as [[e|] w2];
    cbn [snd] in H2, C2; cbn [fst snd]; [congruence|].
  pose proof (createDirIfNotExist_other (lrpath rdir) w2 p
                (not_eq_sym Hl)) as H3.
  pose proof (createDirIfNotExist_commit (lrpath rdir) w2) as C3.
  destruct (createDirIfNotExist (lrpath rdir) w2) as [[e|] w3];
    cbn [snd] in H3, C3; cbn [fst snd]; [congruence|].
  destruct (commit w3) as [sh|] eqn:Hc3; cbn [fst snd]; [|congruence].
  assert (Commit client (SyncInfo_LatestBlockHeight stat) = Ok sh) as Hsh.
  { rewrite C2, Hc1 in C3.
    destruct (Commit client (SyncInfo_LatestBlockHeight stat)) as [e|sh'];
      cbn in C3; [done|].
    by injection C3 as ->. }
  destruct (SignedHeader_Header sh) as [hd|] eqn:Hhd; cbn [fst snd];
    [|congruence].
  destruct (NewLightRoot sh) as [root|]; cbn [fst snd]; [|congruence].
  set (s3 := {| world := w3; err := None |}).
  assert (keeps p s3 (frame (run_group (persist_schedule env)
                               (persist_tasks (map_order env) rdir config
                                  (Header_Height hd) root)
                               s3))) as Hk.
  { apply (run_group_always (keeps p) (keeps_refl p) (keeps_trans p)
             (keeps_record p)).
    intros i t. apply persist_tasks_keep; [|by apply (Hh sh)].
    rewrite !not_elem_of_cons. tauto. }
  unfold keeps in Hk. cbn [s3 world] in Hk.
  unfold after_group.
  destruct (crashed (run_group (persist_schedule env) _ s3));
    cbn [fst snd]; congruence.
Qed.

(** *** The binary descriptor *)

(** X15. After every run that returns nil, under any interleaving,
    [binaries.json] holds [config.Binary()]. *)
Theorem binaries_written env base chain config w w' :
  DumpInfo env base chain config w = (Returned None, w') ->
  disk w' !! binariesPath {| dir := base; chainID := chain |}
  = Some (File (Config_Binary config)).
Proof.
  intros (client & stat & sh & hd & root & Hd & Hs & Hc & Hhd & Hroot & s
          & Hcr & Heg & ->)%DumpInfo_nil_inv.
  set (rdir := {| dir := base; chainID := chain |}).
  apply (run_group_ensures
           (fun s => disk (world s) !! binariesPath rdir
                     = Some (File (Config_Binary config))) 2
           (persist_schedule env) _ s
           (updateFileGo (binariesPath rdir) (Config_Binary config)));
    [done|done|apply updateFileGo_ensures| |done|].
  - intros j t Hj Ht. apply keeps_holds.
    destruct j as [|[|[|[|[|j]]]]]; [| |done|..]; cbn in Ht; simplify_eq.
    + apply updateFileGo_keeps. by apply latestPath_ne_chain_file.
    + apply updateFileGo_keeps. by apply heightPath_ne_chain_file.
    + apply persistGenesis_keeps; unfold genesisPath, genesisSumPath,
        binariesPath; intros H%path_Join_inj; done.
    + apply persistPeers_keeps. unfold peersPath, binariesPath.
      intros H%path_Join_inj; done.
  - apply run_group_all_nil; [apply persist_tasks_keep_eg|done|done|].
    cbn. lia.
Qed.

(** *** The error the group holds *)

Lemma fetch_tasks_safe (Inv : Frame -> Prop) client config stat i (t : Prog) :
  (forall s e, Inv s -> Inv (set_err e s)) ->
  (forall s evs, Inv s -> Inv (on_world (w_emit evs) s)) ->
  (forall s x, Inv s -> Inv (on_world (w_set_gen x) s)) ->
  (forall s x, Inv s -> Inv (on_world (w_set_commit x) s)) ->
  (forall s x, Inv s -> Inv (on_world (w_set_netInfo x) s)) ->
  fetch_tasks client config stat !! i = Some t -> safe Inv t.
Proof.
  intros Herr Hemit Hgen Hcommit Hnet.
  destruct i as [|[|[|i]]]; cbn [fetch_tasks lookup list_lookup];
    intros [= <-]; cbn; intros s Hs.
  - split; [apply Herr, (Hgen _ _ (Hemit _ [RPC_Genesis] Hs))|].
    intros s1 Hs1. split; [|by destruct (err s1)].
    destruct (err s1); [done|]. by apply Hemit.
  - split; [apply Herr, (Hcommit _ _ (Hemit _ [RPC_Commit _] Hs))|].
    intros s1 Hs1. split; [|by destruct (err s1)].
    destruct (err s1); [done|]. by apply Hemit.
  - split; [apply Herr, (Hnet _ _ (Hemit _ [RPC_NetInfo] Hs))|].
    intros s1 Hs1. split; [|by destruct (err s1)].
    destruct (err s1); [done|]. by apply Hemit.
Qed.

(** X16. The group is a package-level variable and keeps its first error:
    once it holds one, every later call of [DumpInfo] in the process
    whose node passes the checks returns that error behind [fetching: ],
    whatever the node answers now and however the fetches interleave,
    and does no file operation. *)
Theorem DumpInfo_stale_error_sticks env base chain config w client stat e0 :
  eg w = Some e0 ->
  dial env = Ok client ->
  Status client = Ok stat ->
  NodeInfo_Network stat = chain ->
  SyncInfo_CatchingUp stat = false ->
  (DumpInfo env base chain config w).1
  = Returned (Some (Errorf ("fetching: " +:+ Error e0)))
  /\ disk (DumpInfo env base chain config w).2 = disk w
  /\ exists evs,
       trace (DumpInfo env base chain config w).2 = trace w ++ evs
       /\ existsb is_fs_event evs = false.
Proof.
  intros Heg Hd Hs <- Hc. unfold DumpInfo.
  rewrite Hd. cbv beta iota zeta delta [Ok]. rewrite Hs.
  cbv beta iota zeta delta [Ok]. rewrite String.eqb_refl, Hc.
  cbv beta iota zeta delta [negb].
  set (s0 := {| world := w_emit [Log "GET /status" ["rpc-addr"; RPCAddr config]]
                           (w_emit [RPC_Status] w); err := None |}).
  destruct (run_group_safe (fun s => eg (world s) = Some e0)
              (fetch_schedule env) (fetch_tasks client config stat) s0)
    as [Hcr Hegg].
  { exact Heg. }
  { intros e s. cbn. by intros ->. }
  { intros i t. apply fetch_tasks_safe; done. }
  destruct (fetch_phase_quiet client config stat (fetch_schedule env) s0)
    as [Hdisk (evs & Htr & Hfs)].
  unfold after_group. rewrite Hcr, Hegg. cbn [fst snd Error].
  split; [done|]. split; [exact Hdisk|].
  exists ([RPC_Status; Log "GET /status" ["rpc-addr"; RPCAddr config]] ++ evs).
  split; [|exact Hfs].
  rewrite Htr. cbn [s0 world w_emit trace]. by rewrite <-!app_assoc.
Qed.

(** *** Panics *)

(** When the fetch phase is over, the package-level variables hold what
    this run's calls returned, however the fetches interleaved. *)
Lemma fetch_recorded client config stat sched s :
  let g := run_group sched (fetch_tasks client config stat) s in
  crashed g = false ->
  gen (world (frame g)) = to_option (Genesis client)
  /\ commit (world (frame g))
     = to_option (Commit client (SyncInfo_LatestBlockHeight stat))
  /\ netInfo (world (frame g)) = to_option (NetInfo client).
Proof.
  intros g Hc.
  assert (forall i, i < 3 -> exists t, pool g !! i = Some t
                                       /\ is_step t = false) as Hend.
  { intros i Hi.
    assert (is_Some (pool g !! i)) as [t Ht].
    { apply lookup_lt_is_Some. unfold g. rewrite run_group_length. cbn. lia. }
    exists t. split; [done|]. by eapply run_group_ended. }
  assert (forall (Q : Frame -> Prop),
            (forall s1 x, Q s1 -> Q (on_world (w_emit x) s1)) ->
            forall prefix line,
              always (fun s s' => Q s -> Q s') (check_fetched prefix line))
    as Hcheck.
  { intros Q HQ prefix line. cbn. intros s1.
    split; [|by destruct (err s1)].
    destruct (err s1); [done|]. apply HQ. }
  split; [|split].
  - destruct (Hend 0) as (t & Ht & Hs); [lia|]. unfold g in *.
    eapply (run_group_first
              (fun s => gen (world s) = to_option (Genesis client)) 0);
      [reflexivity| | | | |exact Ht|exact Hs].
    + done.
    + intros ?. by apply Hcheck.
    + intros j t' Hj Ht'.
      destruct j as [|[|[|j]]]; [done|..]; cbn in Ht'; simplify_eq.
      * unfold fetchGenesis, fetchCommit, fetchNetInfo. cbn [always].
        intros s0. split; [done|]. by apply Hcheck.
      * unfold fetchGenesis, fetchCommit, fetchNetInfo. cbn [always].
        intros s0. split; [done|]. by apply Hcheck.
    + done.
  - by apply fetch_commit_recorded.
  - destruct (Hend 2) as (t & Ht & Hs); [lia|]. unfold g in *.
    eapply (run_group_first
              (fun s => netInfo (world s) = to_option (NetInfo client)) 2);
      [reflexivity| | | | |exact Ht|exact Hs].
    + done.
    + intros ?. by apply Hcheck.
    + intros j t' Hj Ht'.
      destruct j as [|[|[|j]]]; [| |done|]; cbn in Ht'; simplify_eq.
      * unfold fetchGenesis, fetchCommit, fetchNetInfo. cbn [always].
        intros s0. split; [done|]. by apply Hcheck.
      * unfold fetchGenesis, fetchCommit, fetchNetInfo. cbn [always].
        intros s0. split; [done|]. by apply Hcheck.
    + done.
Qed.

Lemma createDirIfNotExist_vars pth w :
  gen (createDirIfNotExist pth w).2 = gen w
  /\ netInfo (createDirIfNotExist pth w).2 = netInfo w
  /\ eg (createDirIfNotExist pth w).2 = eg w.
Proof.
  unfold createDirIfNotExist.
  destruct (os_IsNotExist _); [|done].
  by destruct (os_Mkdir _ _) as [[e|] d].
Qed.




End orchestrator_more.

(** * Runs in which the tasks do not disturb each other *)

Section stage_scheduler.
Context {GenesisDoc : Type}.
Local Abbreviation Frame := (@Frame GenesisDoc).
Local Abbreviation Prog := (@Prog GenesisDoc).
Local Abbreviation Goroutines := (@Goroutines GenesisDoc).

(** Stage invariants: [J i p s] says that task [i] may stand at [p] in
    state [s].  When a step of a task moves the task to a stage and
    keeps the other tasks at theirs, no task panics and at the end of
    the group every task stands at one of its stages, under any
    schedule. *)
Lemma run_group_stages (J : nat -> Prog -> Frame -> Prop) sched
    (tasks : list Prog) s0 :
  (forall i p, tasks !! i = Some p -> J i p s0) ->
  (forall i upd k s,
      J i (Step upd k) s ->
      J i (k s) (upd s) /\ k s <> Panic
      /\ forall j q, j <> i -> J j q s -> J j q (upd s)) ->
  (forall i e s, J i (Ret (Some e)) s ->
                 forall j q, J j q s -> J j q (on_world (w_record e) s)) ->
  crashed (run_group sched tasks s0) = false
  /\ forall i p, pool (run_group sched tasks s0) !! i = Some p ->
                 J i p (frame (run_group sched tasks s0)).
Proof.
  intros Hinit Hstep Hrec.
  apply (run_group_invariant (fun g =>
    crashed g = false
    /\ forall i p, pool g !! i = Some p -> J i p (frame g))); [done|].
  clear Hinit. intros g i [Hc HJ]. unfold step_task. rewrite Hc.
  destruct (pool g !! i) as [[| |upd k]|] eqn:Hi; try done.
  destruct (Hstep _ _ _ _ (HJ _ _ Hi)) as (Hown & Hnp & Hrely).
  assert (forall j q, <[i := k (frame g)]> (pool g) !! j = Some q ->
                      J j q (upd (frame g))) as Hall.
  { intros j q. destruct (decide (i = j)) as [<-|Hne].
    - rewrite list_lookup_insert_eq by by eapply lookup_lt_Some.
      by intros [= <-].
    - rewrite list_lookup_insert_ne by done. intros Hq.
      apply Hrely; [done|]. by apply HJ. }
  cbn [settle crashed frame pool]. split.
  - by destruct (k (frame g)).
  - intros j q Hq. specialize (Hall _ _ Hq).
    destruct (k (frame g)) as [[e|]| |] eqn:Hk; try done.
    eapply Hrec; [|exact Hall]. exact Hown.
Qed.
End stage_scheduler.


(** ** The file operations at the path of an entry *)

Lemma Stat_absent_entry (fs : FS) p :
  is_entry p = true -> fs !! p = None -> parent_state fs p = PDir ->
  os_Stat fs p = Some (PathError "stat" p ENOENT).
Proof. intros He Hp. apply Stat_absent. by rewrite node_at_entry. Qed.

Lemma Stat_exists_entry (fs : FS) p n :
  is_entry p = true -> fs !! p = Some n -> os_Stat fs p = None.
Proof. intros He Hp. apply (Stat_exists _ _ n). by rewrite node_at_entry. Qed.

Lemma WriteFile_entry (fs : FS) p data :
  is_entry p = true -> fs !! p <> Some Dir -> parent_state fs p = PDir ->
  ioutil_WriteFile fs p data = (None, <[p := File data]> fs).
Proof. intros He Hp. apply WriteFile_not_dir. by rewrite node_at_entry. Qed.

Lemma Open_entry (fs : FS) p n :
  is_entry p = true -> fs !! p = Some n -> os_Open fs p = Ok n.
Proof. intros He Hp. unfold os_Open. by rewrite node_at_entry, Hp. Qed.

(** ** The stages of the persist tasks *)

Section stage_facts.
Context {float64 : Type}.
Variable parseFloat : string -> option float64.
Variable formatFloat : float64 -> string.
Context {GenesisDoc : Type}.
Variable json_Marshal : GenesisDoc -> result json.
Variable sha256_Sum256 : string -> string.
Variable json_Unmarshal_strings : string -> result (list string).

Local Abbreviation Frame := (@Frame GenesisDoc).
Local Abbreviation Prog := (@Prog GenesisDoc).
Local Abbreviation World := (@World GenesisDoc).
Local Abbreviation genesis_fresh :=
  (genesis_stage_fresh parseFloat formatFloat json_Marshal sha256_Sum256).
Local Abbreviation genesis_steady :=
  (genesis_stage_steady parseFloat formatFloat json_Marshal sha256_Sum256).
Local Abbreviation peers_fresh :=
  (@peers_stage_fresh GenesisDoc json_Unmarshal_strings).
Local Abbreviation peers_steady :=
  (@peers_stage_steady GenesisDoc json_Unmarshal_strings).
Local Abbreviation genesis_unsortable :=
  (genesis_stage_unsortable parseFloat formatFloat json_Marshal
     sha256_Sum256).
Local Abbreviation peers_corrupt :=
  (@peers_stage_corrupt GenesisDoc json_Unmarshal_strings).

Variable config : Config.
Variable ord : MapOrder.
Variable rdir : repoDir.

Implicit Types (s : Frame) (p q : Prog) (X : list string) (b : bool).

(** *** A stage holds as long as the other tasks keep off its files *)

Lemma persist_ready_stable X b failure g peers s s' :
  changes_only X b s s' -> chainPath rdir ∉ X -> lrpath rdir ∉ X ->
  persist_ready rdir failure g peers s ->
  persist_ready rdir failure g peers s'.
Proof.
  intros (He & Hg & Hn & Hd & _) Hc Hl. unfold persist_ready, node_at.
  rewrite He, Hg, Hn, (Hd _ Hc), (Hd _ Hl). done.
Qed.

Lemma update_stage_stable X b pth payload q s s' :
  changes_only X b s s' -> pth ∉ X ->
  update_stage pth payload q s -> update_stage pth payload q s'.
Proof.
  intros (_ & _ & _ & Hd & _) Hx. unfold update_stage.
  rewrite (Hd _ Hx). done.
Qed.

Lemma genesis_fresh_stable X sum bytes q s s' :
  changes_only X true s s' ->
  genesisPath rdir ∉ X -> genesisSumPath rdir ∉ X ->
  genesis_fresh rdir sum bytes q s ->
  genesis_fresh rdir sum bytes q s'.
Proof.
  intros (_ & _ & _ & Hd & He) Hg Hs. unfold genesis_stage_fresh.
  cbn zeta. rewrite (Hd _ Hg), (Hd _ Hs).
  intros [H|[H|[H|[H|H]]]];
    [by left| right; left | by do 2 right; left | by do 3 right; left
    | by do 4 right].
  destruct H as (Hq & E & H). split; [done|]. split; [by apply He|done].
Qed.

Lemma genesis_steady_stable X n osum q s s' :
  changes_only X false s s' ->
  genesisPath rdir ∉ X -> genesisSumPath rdir ∉ X ->
  genesis_steady rdir n osum q s ->
  genesis_steady rdir n osum q s'.
Proof.
  intros (_ & _ & _ & Hd & He) Hg Hs. unfold genesis_stage_steady.
  rewrite (Hd _ Hg), (Hd _ Hs).
  intros (H1 & H2 & [H|[H|H]]); (split; [done|]); (split; [done|]);
    [by left| right; left | by do 2 right].
  destruct H as (Hq & E). split; [done|]. by apply He.
Qed.

Lemma peers_fresh_stable X qp q s s' :
  changes_only X true s s' -> peersPath rdir ∉ X ->
  peers_fresh ord rdir qp q s -> peers_fresh ord rdir qp q s'.
Proof.
  intros (_ & _ & _ & Hd & He) Hp. unfold peers_stage_fresh.
  cbn zeta. rewrite (Hd _ Hp).
  intros [H|[H|[H|[H|H]]]];
    [by left| right; left | by do 2 right; left | by do 3 right; left
    | by do 4 right].
  destruct H as (Hq & E & H). split; [done|]. split; [by apply He|done].
Qed.

Lemma peers_steady_stable X qp data fp q s s' :
  changes_only X false s s' -> peersPath rdir ∉ X ->
  peers_steady ord rdir qp data fp q s ->
  peers_steady ord rdir qp data fp q s'.
Proof.
  intros (_ & _ & _ & Hd & He) Hp. unfold peers_stage_steady.
  cbn zeta. rewrite (Hd _ Hp).
  intros [H|[H|[H|[H|[H|[H|H]]]]]];
    [by left| right; left | by do 2 right; left | by do 3 right; left
    | by do 4 right; left | by do 5 right; left | by do 6 right].
  destruct H as (Hq & E & H). split; [done|]. split; [by apply He|done].
Qed.

Lemma genesis_unsortable_stable X osum failure q s s' :
  changes_only X true s s' ->
  genesisPath rdir ∉ X -> genesisSumPath rdir ∉ X ->
  genesis_unsortable rdir osum failure q s ->
  genesis_unsortable rdir osum failure q s'.
Proof.
  intros (_ & _ & _ & Hd & He) Hg Hs. unfold genesis_stage_unsortable.
  rewrite (Hd _ Hg), (Hd _ Hs).
  intros (H1 & H2 & [H|[H|H]]); (split; [done|]); (split; [done|]);
    [by left| right; left | by do 2 right].
  destruct H as (Hq & E). split; [done|]. by apply He.
Qed.

Lemma peers_corrupt_stable X qp data failure q s s' :
  changes_only X false s s' -> peersPath rdir ∉ X ->
  peers_corrupt ord rdir qp data failure q s ->
  peers_corrupt ord rdir qp data failure q s'.
Proof.
  intros (_ & _ & _ & Hd & He) Hp. unfold peers_stage_corrupt.
  rewrite (Hd _ Hp).
  intros (H1 & [H|[H|[H|H]]]); (split; [done|]);
    [by left| right; left | by do 2 right; left | by do 3 right].
  destruct H as (Hq & E). split; [done|]. by apply He.
Qed.

(** *** Each step moves its task to the next stage *)

Lemma changes_only_disk X b s (f : World -> World) :
  eg (f (world s)) = eg (world s) ->
  gen (f (world s)) = gen (world s) ->
  netInfo (f (world s)) = netInfo (world s) ->
  (forall q : string,
      q ∉ X -> disk (f (world s)) !! q = disk (world s) !! q) ->
  changes_only X b s (on_world f s).
Proof. intros. by repeat split. Qed.

Lemma changes_only_refl X b s : changes_only X b s s.
Proof. by repeat split. Qed.

Lemma changes_only_err X b s (f : World -> World) e :
  eg (f (world s)) = eg (world s) ->
  gen (f (world s)) = gen (world s) ->
  netInfo (f (world s)) = netInfo (world s) ->
  disk (f (world s)) = disk (world s) ->
  os_IsNotExist e = b ->
  changes_only X b s (set_err e (on_world f s)).
Proof.
  intros He Hg Hn Hd Hb. repeat split; try done.
  intros q _. cbn. by rewrite Hd.
Qed.

Lemma update_stage_step pth payload upd k s :
  update_stage pth payload (Step upd k) s ->
  is_entry pth = true ->
  parent_state (disk (world s)) pth = PDir ->
  update_stage pth payload (k s) (upd s) /\ k s <> Panic
  /\ forall b, changes_only [pth] b s (upd s).
Proof.
  intros [[H Hp]|[[H Hp]|[H _]]] He Hd; [| |discriminate H];
    injection H as -> ->; cbn beta.
  - split; [|split; [done|]].
    + right. left. split; [done|]. cbn. by apply Remove_not_dir.
    + intros b. apply changes_only_disk; try done.
      intros q Hq. cbn. apply Remove_other.
      rewrite not_elem_of_cons in Hq. by destruct Hq.
  - assert (disk (world s) !! pth <> Some Dir) as Hnd by by rewrite Hp.
    pose proof (WriteFile_entry _ _ payload He Hnd Hd) as Hw. rewrite Hw.
    cbn [fst snd].
    split; [|split; [done|]].
    + do 2 right. split; [done|]. cbn. rewrite Hw. cbn [snd]. apply lookup_insert_eq.
    + intros b. apply changes_only_disk; try done.
      intros q Hq. cbn. rewrite Hw. cbn [snd]. apply lookup_insert_ne.
      rewrite not_elem_of_cons in Hq. by destruct Hq.
Qed.

Lemma genesis_paths_ne : genesisPath rdir <> genesisSumPath rdir.
Proof. unfold genesisPath, genesisSumPath. intros H%path_Join_inj; done. Qed.

Lemma genesis_fresh_step g sum bytes upd k s :
  genesis_fresh rdir sum bytes (Step upd k) s ->
  gen (world s) = Some g ->
  sortedGenesis parseFloat formatFloat json_Marshal sha256_Sum256 g
  = Ok (sum, bytes) ->
  node_at (disk (world s)) (chainPath rdir) = Some Dir ->
  genesis_fresh rdir sum bytes (k s) (upd s) /\ k s <> Panic
  /\ changes_only [genesisPath rdir; genesisSumPath rdir] true s (upd s).
Proof.
  intros Hst Hgen Hsg Hc.
  pose proof genesis_paths_ne as Hne.
  pose proof (parent_genesisPath rdir _ Hc) as Hpg.
  pose proof (parent_genesisSumPath rdir _ Hc) as Hps.
  unfold genesis_stage_fresh in Hst |- *. cbn zeta in Hst |- *.
  destruct Hst as [(H & Hg & Hs)|[(H & He & Hg & Hs)|[(H & Hg & Hs)
                  |[(H & Hg & Hs)|(H & _)]]]]; [| | | |discriminate H].
  - injection H as -> ->. cbn beta.
    assert (os_IsNotExist (os_Stat (disk (world s)) (genesisPath rdir)) = true)
      as Hstat by by rewrite Stat_absent_entry by (done || apply genesisPath_entry).
    split; [|split; [done|]].
    + right. left. by repeat split.
    + by apply changes_only_err.
  - injection H as -> ->. cbn beta. rewrite He.
    unfold writeGenesis. rewrite Hgen, Hsg. cbn beta iota.
    split; [|split; [done|apply changes_only_refl]].
    do 2 right. left. by repeat split.
  - injection H as -> ->. cbn beta.
    pose proof (WriteFile_entry _ _ sum (genesisSumPath_entry rdir) Hs Hps)
      as Hw. rewrite Hw.
    cbn [fst snd].
    split; [|split; [done|]].
    + do 3 right. left. split; [done|]. cbn. rewrite Hw. cbn [snd]. split.
      * by rewrite lookup_insert_ne by done.
      * apply lookup_insert_eq.
    + apply changes_only_disk; try done.
      intros q Hq. cbn. rewrite Hw. cbn [snd]. apply lookup_insert_ne.
      rewrite !not_elem_of_cons in Hq. by destruct Hq as (_ & ? & _).
  - injection H as -> ->. cbn beta.
    assert (disk (world s) !! genesisPath rdir <> Some Dir) as Hnd
      by by rewrite Hg.
    pose proof (WriteFile_entry _ _ bytes (genesisPath_entry rdir) Hnd Hpg)
      as Hw. rewrite Hw.
    cbn [fst snd].
    split; [|split; [done|]].
    + do 4 right. split; [done|]. cbn. rewrite Hw. cbn [snd]. split.
      * apply lookup_insert_eq.
      * by rewrite lookup_insert_ne.
    + apply changes_only_disk; try done.
      intros q Hq. cbn. rewrite Hw. cbn [snd]. apply lookup_insert_ne.
      rewrite !not_elem_of_cons in Hq. by destruct Hq as (? & _).
Qed.

Lemma genesis_steady_step n osum upd k s :
  genesis_steady rdir n osum (Step upd k) s ->
  genesis_steady rdir n osum (k s) (upd s) /\ k s <> Panic
  /\ changes_only [genesisPath rdir; genesisSumPath rdir] false s (upd s).
Proof.
  unfold genesis_stage_steady.
  intros (Hg & Hs & [H|[[H He]|H]]); [| |discriminate H].
  - injection H as -> ->. cbn beta.
    assert (os_IsNotExist (os_Stat (disk (world s)) (genesisPath rdir)) = false)
      as Hstat
      by by rewrite (Stat_exists_entry _ _ _ (genesisPath_entry rdir) Hg).
    split; [|split; [done|]].
    + split; [done|]. split; [done|]. right. left. by split.
    + by apply changes_only_err.
  - injection H as -> ->. cbn beta. rewrite He.
    split; [|split; [done|apply changes_only_refl]].
    split; [done|]. split; [done|]. by do 2 right.
Qed.

Lemma peers_fresh_step peers upd k s :
  peers_fresh ord rdir (stringsFromPeers peers) (Step upd k) s ->
  netInfo (world s) = Some peers ->
  node_at (disk (world s)) (chainPath rdir) = Some Dir ->
  peers_fresh ord rdir (stringsFromPeers peers) (k s) (upd s)
  /\ k s <> Panic
  /\ changes_only [peersPath rdir] true s (upd s).
Proof.
  intros Hst Hnet Hc.
  pose proof (parent_peersPath rdir _ Hc) as Hpp.
  unfold peers_stage_fresh in Hst |- *. cbn zeta in Hst |- *.
  destruct Hst as [(H & Hp)|[(H & He & Hp)|[(H & Hp)
                  |[(H & Hp)|(H & _)]]]]; [| | | |discriminate H].
  - injection H as -> ->. cbn beta. rewrite Hnet. cbn beta iota zeta.
    assert (os_IsNotExist (os_Stat (disk (world s)) (peersPath rdir)) = true)
      as Hstat by by rewrite Stat_absent_entry by (done || apply peersPath_entry).
    split; [|split; [done|]].
    + right. left. by repeat split.
    + by apply changes_only_err.
  - injection H as -> ->. cbn beta. rewrite He.
    split; [|split; [done|apply changes_only_refl]].
    do 2 right. left. by split.
  - injection H as -> ->. cbn beta.
    split; [|split; [done|by apply changes_only_disk]].
    do 3 right. left. by split.
  - injection H as -> ->. cbn beta.
    assert (disk (world s) !! peersPath rdir <> Some Dir) as Hnd
      by by rewrite Hp.
    pose proof (WriteFile_entry _ _
                  (MarshalIndent_strings (stringsFromPeers peers))
                  (peersPath_entry rdir) Hnd Hpp)
      as Hw. rewrite Hw.
    cbn [fst snd].
    split; [|split; [done|]].
    + do 4 right. split; [done|]. cbn. rewrite Hw. cbn [snd]. apply lookup_insert_eq.
    + apply changes_only_disk; try done.
      intros q Hq. cbn. rewrite Hw. cbn [snd]. apply lookup_insert_ne.
      rewrite !not_elem_of_cons in Hq. by destruct Hq as (? & _).
Qed.

Lemma peers_steady_step peers data fp upd k s :
  peers_steady ord rdir (stringsFromPeers peers) data fp (Step upd k) s ->
  netInfo (world s) = Some peers ->
  json_Unmarshal_strings data = Ok fp ->
  node_at (disk (world s)) (chainPath rdir) = Some Dir ->
  peers_steady ord rdir (stringsFromPeers peers) data fp (k s) (upd s)
  /\ k s <> Panic
  /\ changes_only [peersPath rdir] false s (upd s).
Proof.
  intros Hst Hnet Hu Hc.
  pose proof (parent_peersPath rdir _ Hc) as Hpp.
  unfold peers_stage_steady in Hst |- *. cbn zeta in Hst |- *.
  destruct Hst as [(H & Hp)|[(H & He & Hp)|[(H & Hp)|[(H & Hp)
                  |[(H & Hp)|[(H & Hp)|(H & _)]]]]]];
    [| | | | | |discriminate H].
  - injection H as -> ->. cbn beta. rewrite Hnet. cbn beta iota zeta.
    assert (os_IsNotExist (os_Stat (disk (world s)) (peersPath rdir)) = false)
      as Hstat
      by by rewrite (Stat_exists_entry _ _ _ (peersPath_entry rdir) Hp).
    split; [|split; [done|]].
    + right. left. by repeat split.
    + by apply changes_only_err.
  - injection H as -> ->. cbn beta. rewrite He.
    split; [|split; [done|apply changes_only_refl]].
    do 2 right. left. by split.
  - injection H as -> ->. cbn beta.
    rewrite (Open_entry _ _ _ (peersPath_entry rdir) Hp).
    cbn [Ok ioutil_ReadAll]. rewrite Hu.
    cbn beta iota zeta.
    split; [|split; [done|by apply changes_only_disk]].
    do 3 right. left. by split.
  - injection H as -> ->. cbn beta.
    split; [|split; [done|by apply changes_only_disk]].
    do 4 right. left. by split.
  - injection H as -> ->. cbn beta.
    assert (disk (world s) !! peersPath rdir <> Some Dir) as Hnd
      by by rewrite Hp.
    split; [|split; [done|]].
    + do 5 right. left. split; [done|]. cbn.
      apply Remove_not_dir; [apply peersPath_entry|done].
    + apply changes_only_disk; try done.
      intros q Hq. cbn. apply Remove_other.
      rewrite !not_elem_of_cons in Hq. by destruct Hq as (? & _).
  - injection H as -> ->. cbn beta.
    assert (disk (world s) !! peersPath rdir <> Some Dir) as Hnd
      by by rewrite Hp.
    pose proof (WriteFile_entry _ _
                  (MarshalIndent_strings
                     (dedupe ord (fp ++ stringsFromPeers peers)))
                  (peersPath_entry rdir) Hnd Hpp)
      as Hw. rewrite Hw.
    cbn [fst snd].
    split; [|split; [done|]].
    + do 6 right. split; [done|]. cbn. rewrite Hw. cbn [snd]. apply lookup_insert_eq.
    + apply changes_only_disk; try done.
      intros q Hq. cbn. rewrite Hw. cbn [snd]. apply lookup_insert_ne.
      rewrite !not_elem_of_cons in Hq. by destruct Hq as (? & _).
Qed.

Lemma genesis_unsortable_step g osum e upd k s :
  genesis_unsortable rdir osum
    (Errorf ("sorting genesis file: " +:+ Error e)) (Step upd k) s ->
  gen (world s) = Some g ->
  sortedGenesis parseFloat formatFloat json_Marshal sha256_Sum256 g = Err e ->
  node_at (disk (world s)) (chainPath rdir) = Some Dir ->
  genesis_unsortable rdir osum
    (Errorf ("sorting genesis file: " +:+ Error e)) (k s) (upd s)
  /\ k s <> Panic
  /\ changes_only [genesisPath rdir; genesisSumPath rdir] true s (upd s).
Proof.
  intros Hst Hgen Hsg Hc.
  pose proof (parent_genesisPath rdir _ Hc) as Hpg.
  unfold genesis_stage_unsortable in Hst |- *.
  destruct Hst as (Hg & Hs & [H|[[H He]|H]]); [| |discriminate H].
  - injection H as -> ->. cbn beta.
    assert (os_IsNotExist (os_Stat (disk (world s)) (genesisPath rdir)) = true)
      as Hstat by by rewrite Stat_absent_entry by (done || apply genesisPath_entry).
    split; [|split; [done|]].
    + split; [done|]. split; [done|]. right. left. by split.
    + by apply changes_only_err.
  - injection H as -> ->. cbn beta. rewrite He.
    unfold writeGenesis. rewrite Hgen, Hsg. cbn beta iota.
    split; [|split; [done|apply changes_only_refl]].
    split; [done|]. split; [done|]. by do 2 right.
Qed.

Lemma peers_corrupt_step peers data e upd k s :
  peers_corrupt ord rdir (stringsFromPeers peers) data
    (Errorf ("unmarshaling peer strings: " +:+ Error e)) (Step upd k) s ->
  netInfo (world s) = Some peers ->
  json_Unmarshal_strings data = Err e ->
  peers_corrupt ord rdir (stringsFromPeers peers) data
    (Errorf ("unmarshaling peer strings: " +:+ Error e)) (k s) (upd s)
  /\ k s <> Panic
  /\ changes_only [peersPath rdir] false s (upd s).
Proof.
  intros Hst Hnet Hu. unfold peers_stage_corrupt in Hst |- *.
  destruct Hst as (Hp & [H|[(H & He)|[H|H]]]); [| | |discriminate H].
  - injection H as -> ->. cbn beta. rewrite Hnet. cbn beta iota zeta.
    assert (os_IsNotExist (os_Stat (disk (world s)) (peersPath rdir)) = false)
      as Hstat
      by by rewrite (Stat_exists_entry _ _ _ (peersPath_entry rdir) Hp).
    split; [|split; [done|]].
    + split; [exact Hp|]. right. left. by split.
    + by apply changes_only_err.
  - injection H as -> ->. cbn beta. rewrite He.
    split; [|split; [done|apply changes_only_refl]].
    split; [exact Hp|]. do 2 right. by left.
  - injection H as -> ->. cbn beta.
    rewrite (Open_entry _ _ _ (peersPath_entry rdir) Hp).
    cbn [Ok ioutil_ReadAll]. rewrite Hu.
    cbn beta iota.
    split; [|split; [done|by apply changes_only_disk]].
    split; [exact Hp|]. by do 3 right.
Qed.

(** *** No stage is a return with an error, but for the task that is to
    fail *)

Lemma update_stage_no_error pth payload e s :
  ~ update_stage pth payload (Ret (Some e)) s.
Proof. intros [[H _]|[[H _]|[H _]]]; discriminate H. Qed.

Lemma update_stage_ended pth payload t s :
  update_stage pth payload t s -> is_step t = false ->
  t = Ret None /\ disk (world s) !! pth = Some (File payload).
Proof. by intros [[-> _]|[[-> _]|[-> ?]]]. Qed.

Lemma genesis_fresh_no_error sum bytes e s :
  ~ genesis_fresh rdir sum bytes (Ret (Some e)) s.
Proof.
  unfold genesis_stage_fresh.
  intros [(H & _)|[(H & _)|[(H & _)|[(H & _)|(H & _)]]]]; discriminate H.
Qed.

Lemma genesis_steady_no_error n osum e s :
  ~ genesis_steady rdir n osum (Ret (Some e)) s.
Proof.
  unfold genesis_stage_steady.
  intros (_ & _ & [H|[(H & _)|H]]); discriminate H.
Qed.

Lemma peers_fresh_no_error qp e s :
  ~ peers_fresh ord rdir qp (Ret (Some e)) s.
Proof.
  unfold peers_stage_fresh.
  intros [(H & _)|[(H & _)|[(H & _)|[(H & _)|(H & _)]]]]; discriminate H.
Qed.

Lemma peers_steady_no_error qp data fp e s :
  ~ peers_steady ord rdir qp data fp (Ret (Some e)) s.
Proof.
  unfold peers_stage_steady.
  intros [(H & _)|[(H & _)|[(H & _)|[(H & _)|[(H & _)|[(H & _)|(H & _)]]]]]];
    discriminate H.
Qed.

Lemma genesis_unsortable_error osum failure e s :
  genesis_unsortable rdir osum failure (Ret (Some e)) s -> e = failure.
Proof.
  unfold genesis_stage_unsortable.
  intros (_ & _ & [H|[(H & _)|H]]); try discriminate H. by injection H.
Qed.

Lemma peers_corrupt_error qp data failure e s :
  peers_corrupt ord rdir qp data failure (Ret (Some e)) s -> e = failure.
Proof.
  unfold peers_stage_corrupt.
  intros (_ & [H|[(H & _)|[H|H]]]); try discriminate H. by injection H.
Qed.

(** *** Where a task stands when it has ended *)

Lemma genesis_fresh_ended sum bytes t s :
  genesis_fresh rdir sum bytes t s -> is_step t = false ->
  t = Ret None
  /\ disk (world s) !! genesisPath rdir = Some (File bytes)
  /\ disk (world s) !! genesisSumPath rdir = Some (File sum).
Proof.
  unfold genesis_stage_fresh. cbn zeta.
  by intros [(-> & _)|[(-> & _)|[(-> & _)|[(-> & _)|(-> & ? & ?)]]]].
Qed.

Lemma genesis_steady_ended n osum t s :
  genesis_steady rdir n osum t s -> is_step t = false ->
  t = Ret None
  /\ disk (world s) !! genesisPath rdir = Some n
  /\ disk (world s) !! genesisSumPath rdir = osum.
Proof.
  unfold genesis_stage_steady.
  by intros (? & ? & [->|[(-> & _)| ->]]).
Qed.

Lemma genesis_unsortable_ended osum failure t s :
  genesis_unsortable rdir osum failure t s -> is_step t = false ->
  t = Ret (Some failure)
  /\ disk (world s) !! genesisPath rdir = None
  /\ disk (world s) !! genesisSumPath rdir = osum.
Proof.
  unfold genesis_stage_unsortable.
  by intros (? & ? & [->|[(-> & _)| ->]]).
Qed.

Lemma peers_fresh_ended qp t s :
  peers_fresh ord rdir qp t s -> is_step t = false ->
  t = Ret None
  /\ disk (world s) !! peersPath rdir
     = Some (File (MarshalIndent_strings qp)).
Proof.
  unfold peers_stage_fresh. cbn zeta.
  by intros [(-> & _)|[(-> & _)|[(-> & _)|[(-> & _)|(-> & ?)]]]].
Qed.

Lemma peers_steady_ended qp data fp t s :
  peers_steady ord rdir qp data fp t s -> is_step t = false ->
  t = Ret None
  /\ disk (world s) !! peersPath rdir
     = Some (File (MarshalIndent_strings (merge_peers ord fp qp))).
Proof.
  unfold peers_stage_steady. cbn zeta.
  by intros [(-> & _)|[(-> & _)|[(-> & _)|[(-> & _)|[(-> & _)|[(-> & _)
            |(-> & ?)]]]]]].
Qed.

Lemma peers_corrupt_ended qp data failure t s :
  peers_corrupt ord rdir qp data failure t s -> is_step t = false ->
  t = Ret (Some failure)
  /\ disk (world s) !! peersPath rdir = Some (File data).
Proof.
  unfold peers_stage_corrupt.
  by intros (? & [->|[(-> & _)|[->| ->]]]).
Qed.
End stage_facts.


(** ** Runs against a node that answers every call *)

Section healthy_runs.
Context {float64 : Type}.
Variable parseFloat : string -> option float64.
Variable formatFloat : float64 -> string.
Context {GenesisDoc : Type}.
Variable json_Marshal : GenesisDoc -> result json.
Variable sha256_Sum256 : string -> string.
Variable json_Unmarshal_strings : string -> result (list string).

Local Abbreviation Frame := (@Frame GenesisDoc).
Local Abbreviation Prog := (@Prog GenesisDoc).
Local Abbreviation World := (@World GenesisDoc).
Local Abbreviation persist_tasks :=
  (persist_tasks parseFloat formatFloat json_Marshal sha256_Sum256
     json_Unmarshal_strings).
Local Abbreviation DumpInfo :=
  (DumpInfo parseFloat formatFloat json_Marshal sha256_Sum256
     json_Unmarshal_strings).

Implicit Types (s : Frame) (w : World) (p t : Prog).

(** *** The fetch phase *)

(** When the node answers the three calls, no fetch fails, however the
    fetches interleave: every assignment to the shared [err] stores
    nil. *)
Lemma fetch_healthy client config stat sched s g sh peers :
  Genesis client = Ok g ->
  Commit client (SyncInfo_LatestBlockHeight stat) = Ok sh ->
  NetInfo client = Ok peers ->
  err s = None -> eg (world s) = None ->
  crashed (run_group sched (fetch_tasks client config stat) s) = false
  /\ eg (world (frame (run_group sched (fetch_tasks client config stat) s)))
     = None.
Proof.
  intros Hg Hc Hn He Heg.
  destruct (run_group_stages (fetch_stage client config stat) sched
              (fetch_tasks client config stat) s) as [Hcr Hst].
  - intros i p Hp. split; [done|]. split; [done|]. by left.
  - intros i upd k s1 (He1 & Heg1 & Hst).
    assert (forall j t, fetch_stage client config stat j t s1 ->
              err (upd s1) = None -> eg (world (upd s1)) = None ->
              fetch_stage client config stat j t (upd s1)) as Hrely.
    { intros j t (_ & _ & H) H1 H2. by split. }
    destruct Hst as [Hi|[(prefix & line & H)|H]]; [| |discriminate H].
    + destruct i as [|[|[|i]]]; cbn [fetch_tasks lookup list_lookup] in Hi;
        [| | |done]; injection Hi as <- <-; cbn beta.
      * assert (err_of (Genesis client) = None) as E by by rewrite Hg.
        split; [|split; [done|]].
        -- split; [exact E|]. split; [exact Heg1|]. right. left. by eexists _, _.
        -- intros j t _ Hj. apply Hrely; done.
      * assert (err_of (Commit client (SyncInfo_LatestBlockHeight stat)) = None)
          as E by by rewrite Hc.
        split; [|split; [done|]].
        -- split; [exact E|]. split; [exact Heg1|]. right. left. by eexists _, _.
        -- intros j t _ Hj. apply Hrely; done.
      * assert (err_of (NetInfo client) = None) as E by by rewrite Hn.
        split; [|split; [done|]].
        -- split; [exact E|]. split; [exact Heg1|]. right. left. by eexists _, _.
        -- intros j t _ Hj. apply Hrely; done.
    + injection H as -> ->. cbn beta in Hrely |- *. rewrite He1 in Hrely |- *.
      split; [|split; [done|]].
      * split; [exact He1|]. split; [exact Heg1|]. by do 2 right.
      * intros j t _ Hj. apply Hrely; done.
  - intros i e s1 (_ & _ & [Hi|[(prefix & line & H)|H]]);
      [|discriminate H..].
    by destruct i as [|[|[|i]]].
  - split; [exact Hcr|].
    assert (is_Some (pool (run_group sched (fetch_tasks client config stat) s)
                     !! 0)) as [t Ht].
    { apply lookup_lt_is_Some. rewrite run_group_length. cbn. lia. }
    by destruct (Hst _ _ Ht) as (_ & ? & _).
Qed.

(** *** The persist phase *)

Ltac notin :=
  rewrite ?not_elem_of_cons; repeat split; try done; apply not_elem_of_nil.

Section one_registry.
Variable config : Config.
Variable ord : MapOrder.
Variable rdir : repoDir.
Variable h : Z.
Variable root : string.
Variable g : GenesisDoc.
Variable peers : list Peer.

Lemma update_task_stages b failure pth payload :
  is_entry pth = true ->
  (forall s, persist_ready rdir failure g peers s ->
             parent_state (disk (world s)) pth = PDir) ->
  task_stages b (persist_ready rdir failure g peers) [pth] failure
    (update_stage pth payload).
Proof.
  intros Hentry Hparent. split; [|split; [|split]].
  - intros upd k s Hr Hst.
    destruct (update_stage_step _ _ _ _ _ Hst Hentry (Hparent _ Hr))
      as (? & ? & ?). auto.
  - intros Y t s s' Hch HY. eapply update_stage_stable; [exact Hch|].
    apply HY. left.
  - intros e t s H. exact H.
  - intros e s H. exfalso. by eapply update_stage_no_error.
Qed.

(** Whatever kind of registry the genesis task and the peers task
    meet, as long as each keeps to its own files and knows its
    stages: every task of the persist phase goes through its stages,
    under any schedule, and no task panics. *)
Lemma persist_stages b failure (Gst Pst : Prog -> Frame -> Prop) sched s0 :
  task_stages b (persist_ready rdir failure g peers)
    [genesisPath rdir; genesisSumPath rdir] failure Gst ->
  task_stages b (persist_ready rdir failure g peers) [peersPath rdir]
    failure Pst ->
  persist_ready rdir failure g peers s0 ->
  disk (world s0) !! latestPath rdir <> Some Dir ->
  disk (world s0) !! heightPath rdir h <> Some Dir ->
  disk (world s0) !! binariesPath rdir <> Some Dir ->
  Gst (persistGenesis parseFloat formatFloat json_Marshal sha256_Sum256
         rdir) s0 ->
  Pst (persistPeers json_Unmarshal_strings ord rdir) s0 ->
  crashed (run_group sched (persist_tasks ord rdir config h root) s0) = false
  /\ forall i t,
       pool (run_group sched (persist_tasks ord rdir config h root) s0) !! i
       = Some t ->
       persist_stage config rdir h root failure g peers Gst Pst i t
         (frame (run_group sched (persist_tasks ord rdir config h root) s0)).
Proof.
  intros HG HP Hready Hl Hh Hb HG0 HP0.
  pose proof (registry_paths_NoDup rdir h) as Hnd.
  rewrite !NoDup_cons, !not_elem_of_cons in Hnd.
  assert (task_stages b (persist_ready rdir failure g peers)
            [latestPath rdir] failure
            (update_stage (latestPath rdir) root)) as HL.
  { apply update_task_stages; [apply latestPath_entry|].
    intros s (_ & _ & _ & _ & ?). by apply parent_latestPath. }
  assert (task_stages b (persist_ready rdir failure g peers)
            [heightPath rdir h] failure
            (update_stage (heightPath rdir h)
               root)) as HH.
  { apply update_task_stages; [apply heightPath_entry|].
    intros s (_ & _ & _ & _ & ?). by apply parent_heightPath. }
  assert (task_stages b (persist_ready rdir failure g peers)
            [binariesPath rdir] failure
            (update_stage (binariesPath rdir) (Config_Binary config)))
    as HB.
  { apply update_task_stages; [apply binariesPath_entry|].
    intros s (_ & _ & _ & ? & _). by apply parent_binariesPath. }
  set (stage := fun i : nat =>
         match i with
         | 0 => update_stage (latestPath rdir) root
         | 1 => update_stage (heightPath rdir h)
                  root
         | 2 => update_stage (binariesPath rdir) (Config_Binary config)
         | 3 => Gst
         | 4 => Pst
         | _ => fun _ _ => False
         end).
  set (owned := fun i : nat =>
         match i with
         | 0 => [latestPath rdir]
         | 1 => [heightPath rdir h]
         | 2 => [binariesPath rdir]
         | 3 => [genesisPath rdir; genesisSumPath rdir]
         | 4 => [peersPath rdir]
         | _ => []
         end).
  assert (forall i, i < 5 ->
            task_stages b (persist_ready rdir failure g peers) (owned i)
              failure (stage i)) as Hstages.
  { intros i Hi. by destruct i as [|[|[|[|[|i]]]]]; [..|lia]. }
  assert (forall i j q, i < 5 -> j < 5 -> j <> i ->
            q ∈ owned j -> q ∉ owned i) as Hdisjoint.
  { destruct_and!. intros i j q Hi Hj Hne.
    destruct i as [|[|[|[|[|i]]]]]; [..|lia];
      destruct j as [|[|[|[|[|j]]]]]; try lia; try done;
      unfold owned;
      rewrite ?not_elem_of_cons, ?elem_of_cons, ?elem_of_nil;
      intros Hq; destruct_or!; try done; subst q;
      repeat split; first [done|by intros []]. }
  assert (forall i, i < 5 -> (chainPath rdir ∉ owned i)
                             /\ (lrpath rdir ∉ owned i)) as Hdirs.
  { destruct_and!. intros i Hi.
    destruct i as [|[|[|[|[|i]]]]]; [..|lia]; unfold owned; split; notin. }
  assert (forall i t s,
            persist_stage config rdir h root failure g peers Gst Pst i t s
            <-> persist_ready rdir failure g peers s
                /\ i < 5 /\ stage i t s) as Hstage.
  { intros i t s. unfold persist_stage.
    destruct i as [|[|[|[|[|i]]]]]; unfold stage;
      (split; [intros [? ?]|intros (? & ? & ?)]);
      first [done|lia|split; [done|split; [lia|done]]]. }
  clearbody stage owned. clear Hnd HL HH HB HG HP.
  cut (crashed (run_group sched (persist_tasks ord rdir config h root) s0)
       = false
       /\ forall i t,
            pool (run_group sched (persist_tasks ord rdir config h root) s0)
            !! i = Some t ->
            persist_ready rdir failure g peers
              (frame (run_group sched (persist_tasks ord rdir config h root)
                        s0))
            /\ i < 5
            /\ stage i t
                 (frame (run_group sched
                           (persist_tasks ord rdir config h root) s0))).
  { intros [Hc H]. split; [exact Hc|]. intros i t Ht.
    apply Hstage. by apply H. }
  apply (run_group_stages
           (fun i t s => persist_ready rdir failure g peers s
                         /\ i < 5 /\ stage i t s)).
  - intros i t Ht. apply Hstage. split; [exact Hready|].
    destruct i as [|[|[|[|[|i]]]]];
      cbn [persist_tasks lookup list_lookup] in Ht; [..|done];
      injection Ht as <-; first [by left|done].
  - intros i upd k s (Hr & Hi & Hst).
    destruct (Hstages i Hi) as (Hstep & _ & _ & _).
    destruct (Hstep _ _ _ Hr Hst) as (Hown & Hnp & Hch).
    destruct (Hdirs i Hi) as [Hc Hl'].
    assert (persist_ready rdir failure g peers (upd s)) as Hr'
      by by eapply persist_ready_stable.
    split; [split; [exact Hr'|split; [exact Hi|exact Hown]]|].
    split; [exact Hnp|].
    intros j q Hne (_ & Hj & Hq). split; [exact Hr'|]. split; [exact Hj|].
    destruct (Hstages j Hj) as (_ & Hstable & _ & _).
    eapply Hstable; [exact Hch| |exact Hq].
    intros p Hp. by eapply Hdisjoint.
  - intros i e s (Hr & Hi & Hst) j q (_ & Hj & Hq).
    destruct (Hstages i Hi) as (_ & _ & _ & Herr).
    destruct (Hstages j Hj) as (_ & _ & Hrec & _).
    split; [|split; [exact Hj|by apply Hrec]].
    rewrite (Herr _ _ Hst) in Hr |- *.
    destruct Hr as ([E|E] & Hrest); (split; [|exact Hrest]); cbn;
      rewrite E; by right.
Qed.

(** What the persist phase leaves then: the three files that are
    always written, and the genesis task and the peers task ended at
    one of their stages. *)
Lemma persist_result b failure (Gst Pst : Prog -> Frame -> Prop) sched s0 :
  task_stages b (persist_ready rdir failure g peers)
    [genesisPath rdir; genesisSumPath rdir] failure Gst ->
  task_stages b (persist_ready rdir failure g peers) [peersPath rdir]
    failure Pst ->
  persist_ready rdir failure g peers s0 ->
  disk (world s0) !! latestPath rdir <> Some Dir ->
  disk (world s0) !! heightPath rdir h <> Some Dir ->
  disk (world s0) !! binariesPath rdir <> Some Dir ->
  Gst (persistGenesis parseFloat formatFloat json_Marshal sha256_Sum256
         rdir) s0 ->
  Pst (persistPeers json_Unmarshal_strings ord rdir) s0 ->
  let fin := run_group sched (persist_tasks ord rdir config h root) s0 in
  crashed fin = false
  /\ (eg (world (frame fin)) = None \/ eg (world (frame fin)) = failure)
  /\ (forall i e, pool fin !! i = Some (Ret (Some e)) ->
                  eg (world (frame fin)) = Some e)
  /\ disk (world (frame fin)) !! latestPath rdir
     = Some (File root)
  /\ disk (world (frame fin)) !! heightPath rdir h
     = Some (File root)
  /\ disk (world (frame fin)) !! binariesPath rdir
     = Some (File (Config_Binary config))
  /\ (exists t, pool fin !! 3 = Some t /\ is_step t = false
                /\ Gst t (frame fin))
  /\ (exists t, pool fin !! 4 = Some t /\ is_step t = false
                /\ Pst t (frame fin)).
Proof.
  intros HG HP Hready Hl Hh Hb HG0 HP0 fin.
  destruct (persist_stages b failure Gst Pst sched s0 HG HP Hready Hl Hh
              Hb HG0 HP0) as [Hcr Hst].
  fold fin in Hcr, Hst.
  assert (forall i, i < 5 ->
            exists t, pool fin !! i = Some t /\ is_step t = false) as Hend.
  { intros i Hi.
    assert (is_Some (pool fin !! i)) as [t Ht].
    { apply lookup_lt_is_Some. unfold fin. rewrite run_group_length.
      cbn. lia. }
    exists t. split; [done|]. by eapply run_group_ended. }
  split; [exact Hcr|].
  destruct (Hend 0) as (t0 & H0 & E0); [lia|].
  destruct (Hend 1) as (t1 & H1 & E1); [lia|].
  destruct (Hend 2) as (t2 & H2 & E2); [lia|].
  destruct (Hend 3) as (t3 & H3 & E3); [lia|].
  destruct (Hend 4) as (t4 & H4 & E4); [lia|].
  destruct (Hst _ _ H0) as [(Heg & _) S0].
  destruct (Hst _ _ H1) as [_ S1].
  destruct (Hst _ _ H2) as [_ S2].
  destruct (Hst _ _ H3) as [_ S3].
  destruct (Hst _ _ H4) as [_ S4].
  split; [exact Heg|]. split.
  { intros i e Hi.
    assert (eg (world (frame fin)) <> None) as Hne.
    { unfold fin in Hi |- *.
      eapply run_group_errors; [apply persist_tasks_keep_eg|exact Hi]. }
    destruct Heg as [Heg|Heg]; [done|]. rewrite Heg.
    destruct (Hst _ _ Hi) as [_ Si].
    destruct HG as (_ & _ & _ & HGe). destruct HP as (_ & _ & _ & HPe).
    destruct i as [|[|[|[|[|i]]]]]; [..|done].
    - by destruct (update_stage_no_error _ _ _ _ Si).
    - by destruct (update_stage_no_error _ _ _ _ Si).
    - by destruct (update_stage_no_error _ _ _ _ Si).
    - by apply HGe in Si.
    - by apply HPe in Si. }
  split; [by destruct (update_stage_ended _ _ _ _ S0 E0)|].
  split; [by destruct (update_stage_ended _ _ _ _ S1 E1)|].
  split; [by destruct (update_stage_ended _ _ _ _ S2 E2)|].
  split; [by exists t3|by exists t4].
Qed.

(** *** The kinds of registry *)

Lemma genesis_fresh_stages sum bytes :
  sortedGenesis parseFloat formatFloat json_Marshal sha256_Sum256 g
  = Ok (sum, bytes) ->
  task_stages true (persist_ready rdir None g peers)
    [genesisPath rdir; genesisSumPath rdir] None
    (genesis_stage_fresh parseFloat formatFloat json_Marshal sha256_Sum256
       rdir sum bytes).
Proof.
  intros Hsg. split; [|split; [|split]].
  - intros upd k s (_ & Hg & _ & Hc & _) Hst.
    by eapply genesis_fresh_step.
  - intros Y t s s' Hch HY.
    eapply genesis_fresh_stable; [exact Hch|apply HY..];
      rewrite !elem_of_cons; auto.
  - intros e t s H. exact H.
  - intros e s H. exfalso. by eapply genesis_fresh_no_error.
Qed.

Lemma genesis_steady_stages failure n osum :
  task_stages false (persist_ready rdir failure g peers)
    [genesisPath rdir; genesisSumPath rdir] failure
    (genesis_stage_steady parseFloat formatFloat json_Marshal sha256_Sum256
       rdir n osum).
Proof.
  split; [|split; [|split]].
  - intros upd k s _ Hst. by eapply genesis_steady_step.
  - intros Y t s s' Hch HY.
    eapply genesis_steady_stable; [exact Hch|apply HY..];
      rewrite !elem_of_cons; auto.
  - intros e t s H. exact H.
  - intros e s H. exfalso. by eapply genesis_steady_no_error.
Qed.

Lemma genesis_unsortable_stages osum e :
  sortedGenesis parseFloat formatFloat json_Marshal sha256_Sum256 g
  = Err e ->
  task_stages true
    (persist_ready rdir
       (Some (Errorf ("sorting genesis file: " +:+ Error e))) g peers)
    [genesisPath rdir; genesisSumPath rdir]
    (Some (Errorf ("sorting genesis file: " +:+ Error e)))
    (genesis_stage_unsortable parseFloat formatFloat json_Marshal
       sha256_Sum256 rdir osum
       (Errorf ("sorting genesis file: " +:+ Error e))).
Proof.
  intros Hsg. split; [|split; [|split]].
  - intros upd k s (_ & Hg & _ & Hc & _) Hst.
    by eapply genesis_unsortable_step.
  - intros Y t s s' Hch HY.
    eapply genesis_unsortable_stable; [exact Hch|apply HY..];
      rewrite !elem_of_cons; auto.
  - intros e' t s H. exact H.
  - intros e' s H. f_equal. symmetry.
    by eapply genesis_unsortable_error.
Qed.

Lemma peers_fresh_stages failure :
  task_stages true (persist_ready rdir failure g peers) [peersPath rdir]
    failure
    (peers_stage_fresh json_Unmarshal_strings ord rdir
       (stringsFromPeers peers)).
Proof.
  split; [|split; [|split]].
  - intros upd k s (_ & _ & Hn & Hc & _) Hst. by eapply peers_fresh_step.
  - intros Y t s s' Hch HY.
    eapply peers_fresh_stable; [exact Hch|apply HY; left].
  - intros e t s H. exact H.
  - intros e s H. exfalso. by eapply peers_fresh_no_error.
Qed.

Lemma peers_steady_stages data fp :
  json_Unmarshal_strings data = Ok fp ->
  task_stages false (persist_ready rdir None g peers) [peersPath rdir]
    None
    (peers_stage_steady json_Unmarshal_strings ord rdir
       (stringsFromPeers peers) data fp).
Proof.
  intros Hu. split; [|split; [|split]].
  - intros upd k s (_ & _ & Hn & Hc & _) Hst. by eapply peers_steady_step.
  - intros Y t s s' Hch HY.
    eapply peers_steady_stable; [exact Hch|apply HY; left].
  - intros e t s H. exact H.
  - intros e s H. exfalso. by eapply peers_steady_no_error.
Qed.

Lemma peers_corrupt_stages data e :
  json_Unmarshal_strings data = Err e ->
  task_stages false
    (persist_ready rdir
       (Some (Errorf ("unmarshaling peer strings: " +:+ Error e))) g peers)
    [peersPath rdir]
    (Some (Errorf ("unmarshaling peer strings: " +:+ Error e)))
    (peers_stage_corrupt json_Unmarshal_strings ord rdir
       (stringsFromPeers peers) data
       (Errorf ("unmarshaling peer strings: " +:+ Error e))).
Proof.
  intros Hu. split; [|split; [|split]].
  - intros upd k s (_ & _ & Hn & _) Hst. by eapply peers_corrupt_step.
  - intros Y t s s' Hch HY.
    eapply peers_corrupt_stable; [exact Hch|apply HY; left].
  - intros e' t s H. exact H.
  - intros e' s H. f_equal. symmetry. by eapply peers_corrupt_error.
Qed.

Lemma persist_ready_weaken failure s :
  persist_ready rdir None g peers s ->
  persist_ready rdir failure g peers s.
Proof. intros ([H|H] & ?); (split; [by left|done]). Qed.
End one_registry.

(** *** The whole run *)

(** Where nothing but a directory can be in the way and the parent
    exists, [createDirIfNotExist] returns nil and leaves a directory. *)
Lemma createDirIfNotExist_makes pth w :
  parent_state (disk w) pth = PDir ->
  (forall data, node_at (disk w) pth <> Some (File data)) ->
  (createDirIfNotExist pth w).1 = None
  /\ node_at (disk (createDirIfNotExist pth w).2) pth = Some Dir.
Proof.
  intros Hd Hf.
  unfold createDirIfNotExist, os_Stat, os_Mkdir, parent_errno, missing_errno.
  destruct (node_at (disk w) pth) as [[data|]|] eqn:Hp; cbn.
  - by destruct (Hf data).
  - done.
  - rewrite Hd. cbn. split; [done|].
    assert (pth <> EmptyString) as Hne by (intros ->; discriminate Hd).
    unfold node_at. destruct (always_dir pth); [done|].
    destruct pth; [done|]. apply lookup_insert_eq.
Qed.

(** A run against a node that passes the checks and answers every call,
    in a process whose group holds no error: up to the persist phase. *)
Lemma DumpInfo_healthy_fetch env base chain config w client stat g sh peers :
  dial env = Ok client ->
  Status client = Ok stat ->
  NodeInfo_Network stat = chain ->
  SyncInfo_CatchingUp stat = false ->
  Genesis client = Ok g ->
  Commit client (SyncInfo_LatestBlockHeight stat) = Ok sh ->
  NetInfo client = Ok peers ->
  eg w = None ->
  exists w1,
    disk w1 = disk w /\ eg w1 = None /\ gen w1 = Some g
    /\ commit w1 = Some sh /\ netInfo w1 = Some peers
    /\ DumpInfo env base chain config w
       = let rdir := {| dir := base; chainID := chain |} in
         match createDirIfNotExist (chainPath rdir) w1 with
         | (Some e, w) => (Returned (Some e), w)
         | (None, w) =>
             match createDirIfNotExist (lrpath rdir) w with
             | (Some e, w) => (Returned (Some e), w)
             | (None, w) =>
                 match commit w with
                 | None => (Panicked, w)
                 | Some sh =>
                     match SignedHeader_Header sh, NewLightRoot sh with
                     | Some hd, Some root =>
                         after_group
                           (run_group (persist_schedule env)
                              (persist_tasks (map_order env) rdir config
                                 (Header_Height hd) root)
                              {| world := w; err := None |})
                           (fun w => (Returned (eg w), w))
                     | _, _ => (Panicked, w)
                     end
                 end
             end
         end.
Proof.
  intros Hd Hs <- Hcu Hg Hc Hn Heg. unfold DumpInfo.
  rewrite Hd. cbv beta iota zeta delta [Ok]. rewrite Hs.
  cbv beta iota zeta delta [Ok]. rewrite String.eqb_refl, Hcu.
  cbv beta iota zeta delta [negb].
  set (s0 := {| world := w_emit [Log "GET /status" ["rpc-addr"; RPCAddr config]]
                           (w_emit [RPC_Status] w); err := None |}).
  destruct (fetch_healthy client config stat (fetch_schedule env) s0 g sh
              peers Hg Hc Hn eq_refl Heg) as [Hcr Heg1].
  destruct (fetch_phase_quiet client config stat (fetch_schedule env) s0)
    as [Hdisk _].
  pose proof (fetch_recorded client config stat (fetch_schedule env) s0 Hcr)
    as (Hgen & Hcom & Hnet). cbn zeta in Hgen, Hcom, Hnet.
  rewrite Hg in Hgen. rewrite Hc in Hcom. rewrite Hn in Hnet.
  unfold after_group at 1. rewrite Hcr.
  exists (world (frame (run_group (fetch_schedule env)
                          (fetch_tasks client config stat) s0))).
  rewrite Heg1. split; [exact Hdisk|]. split; [done|].
  split; [exact Hgen|]. split; [exact Hcom|]. split; [exact Hnet|].
  reflexivity.
Qed.

(** The same run, when the commit has its header and its commit set, on
    a registry where the directory above the chain directory exists and
    nothing but a directory has the name of the chain directory or of
    [light-roots]: the persist phase starts with both directories in
    place, the fetched documents at hand and every other path as it
    was. *)
Lemma DumpInfo_healthy_prepare env base chain config w client stat g sh
    hd root peers :
  let rdir := {| dir := base; chainID := chain |} in
  dial env = Ok client ->
  Status client = Ok stat ->
  NodeInfo_Network stat = chain ->
  SyncInfo_CatchingUp stat = false ->
  Genesis client = Ok g ->
  Commit client (SyncInfo_LatestBlockHeight stat) = Ok sh ->
  SignedHeader_Header sh = Some hd ->
  NewLightRoot sh = Some root ->
  NetInfo client = Ok peers ->
  eg w = None ->
  parent_state (disk w) (chainPath rdir) = PDir ->
  (forall data, node_at (disk w) (chainPath rdir) <> Some (File data)) ->
  (forall data, disk w !! lrpath rdir <> Some (File data)) ->
  exists w3,
    persist_ready rdir None g peers {| world := w3; err := None |}
    /\ (forall q, q <> chainPath rdir -> q <> lrpath rdir ->
                  disk w3 !! q = disk w !! q)
    /\ DumpInfo env base chain config w
       = after_group
           (run_group (persist_schedule env)
              (persist_tasks (map_order env) rdir config (Header_Height hd)
                 root)
              {| world := w3; err := None |})
           (fun w => (Returned (eg w), w)).
Proof.
  intros rdir Hd Hs Hnw Hcu Hg Hc Hhd Hroot Hn Heg Hbase Hcp Hlp.
  destruct (DumpInfo_healthy_fetch env base chain config w client stat g sh
              peers Hd Hs Hnw Hcu Hg Hc Hn Heg)
    as (w1 & Hd1 & He1 & Hg1 & Hc1 & Hn1 & ->).
  cbn zeta. fold rdir.
  assert (lrpath rdir <> chainPath rdir) as Hne.
  { rewrite lrpath_under. by apply under_ne_self. }
  rewrite <-Hd1 in Hbase, Hcp, Hlp.
  assert (forall q, disk w !! q = disk w1 !! q) as Hw by by rewrite Hd1.
  setoid_rewrite Hw. clear Hd1 Hw.
  destruct (createDirIfNotExist_makes (chainPath rdir) w1 Hbase Hcp)
    as [Hr2 Hd2].
  pose proof (createDirIfNotExist_vars (chainPath rdir) w1) as (G2 & N2 & E2).
  pose proof (createDirIfNotExist_commit (chainPath rdir) w1) as C2.
  pose proof (createDirIfNotExist_other (chainPath rdir) w1) as O2.
  destruct (createDirIfNotExist (chainPath rdir) w1) as [r2 w2].
  cbn [fst snd] in *. subst r2.
  assert (parent_state (disk w2) (lrpath rdir) = PDir) as Hpl
    by by apply parent_lrpath.
  assert (forall data, node_at (disk w2) (lrpath rdir) <> Some (File data))
    as Hlp2.
  { intros data. rewrite (node_at_entry _ _ (lrpath_entry rdir)).
    rewrite O2 by done. apply Hlp. }
  destruct (createDirIfNotExist_makes (lrpath rdir) w2 Hpl Hlp2)
    as [Hr3 Hd3].
  rewrite (node_at_entry _ _ (lrpath_entry rdir)) in Hd3.
  pose proof (createDirIfNotExist_vars (lrpath rdir) w2) as (G3 & N3 & E3).
  pose proof (createDirIfNotExist_commit (lrpath rdir) w2) as C3.
  pose proof (createDirIfNotExist_other (lrpath rdir) w2) as O3.
  destruct (createDirIfNotExist (lrpath rdir) w2) as [r3 w3].
  cbn [fst snd] in *. subst r3.
  rewrite C3, C2, Hc1, Hhd, Hroot. exists w3. split; [|split; [|done]].
  - unfold persist_ready. cbn [world eg gen netInfo disk].
    rewrite E3, E2, G3, G2, N3, N2. split; [by left|].
    repeat split; try done. unfold node_at in Hd2 |- *.
    rewrite O3 by done. exact Hd2.
  - intros q H1 H2. rewrite O3, O2; done.
Qed.

End healthy_runs.


(** ** Whole runs *)

Section whole_runs.
Context {float64 : Type}.
Variable parseFloat : string -> option float64.
Variable formatFloat : float64 -> string.
Context {GenesisDoc : Type}.
Variable json_Marshal : GenesisDoc -> result json.
Variable sha256_Sum256 : string -> string.
Variable json_Unmarshal_strings : string -> result (list string).

Local Abbreviation Frame := (@Frame GenesisDoc).
Local Abbreviation Prog := (@Prog GenesisDoc).
Local Abbreviation World := (@World GenesisDoc).
Local Abbreviation persist_tasks :=
  (persist_tasks parseFloat formatFloat json_Marshal sha256_Sum256
     json_Unmarshal_strings).
Local Abbreviation DumpInfo :=
  (DumpInfo parseFloat formatFloat json_Marshal sha256_Sum256
     json_Unmarshal_strings).
Local Abbreviation prepare :=
  (DumpInfo_healthy_prepare parseFloat formatFloat json_Marshal
     sha256_Sum256 json_Unmarshal_strings).
Local Abbreviation persist_outcome :=
  (persist_result parseFloat formatFloat json_Marshal sha256_Sum256
     json_Unmarshal_strings).

Implicit Types (s : Frame) (w : World) (p t : Prog).

Lemma NewLightRoot_Some sh hd cm :
  SignedHeader_Header sh = Some hd ->
  SignedHeader_Commit sh = Some cm ->
  NewLightRoot sh
  = Some (MarshalIndent_LightRoot
            {| TrustHeight := Header_Height hd;
               TrustHash := HexBytes_String (Commit_BlockID_Hash cm) |}).
Proof. intros Hh Hc. unfold NewLightRoot. by rewrite Hh, Hc. Qed.

(** X18. Populating a new entry.  Assume a process whose group holds no
    error and a node that answers the dial and the status call, reports
    the chain id asked for, is not catching up, and answers the genesis,
    commit and net-info calls, the commit with its header and its commit
    set, the genesis document with a JSON encoding that decodes (so
    [sortedGenesis] accepts it).  Assume of the registry that the
    directory above the chain directory exists, that no regular file has
    the name of the chain directory or of [light-roots], that
    [genesis.json] and [peers.json] are missing, and that no directory
    has the name of [genesis.json.sum], [binaries.json],
    [light-roots/latest.json] or [light-roots/<height>.json].  Then
    [DumpInfo] returns nil however the tasks interleave, and leaves the
    whole entry of the chain: both directories, both light-root files
    with the light root of the fetched commit, [binaries.json] with
    [config.Binary()], [genesis.json] with the canonical bytes of the
    fetched genesis document, [genesis.json.sum] with the lower-case
    hex of their SHA-256, and [peers.json] with the discovered peers as
    they are, not deduplicated. *)
Theorem DumpInfo_populates env base chain config w client stat g sh hd cm
    peers (d : json) c :
  let rdir := {| dir := base; chainID := chain |} in
  dial env = Ok client ->
  Status client = Ok stat ->
  NodeInfo_Network stat = chain ->
  SyncInfo_CatchingUp stat = false ->
  Genesis client = Ok g ->
  Commit client (SyncInfo_LatestBlockHeight stat) = Ok sh ->
  SignedHeader_Header sh = Some hd ->
  SignedHeader_Commit sh = Some cm ->
  NetInfo client = Ok peers ->
  json_Marshal g = Ok d ->
  Unmarshal parseFloat d = Ok c ->
  eg w = None ->
  parent_state (disk w) (chainPath rdir) = PDir ->
  (forall data, node_at (disk w) (chainPath rdir) <> Some (File data)) ->
  (forall data, disk w !! lrpath rdir <> Some (File data)) ->
  disk w !! genesisPath rdir = None ->
  disk w !! peersPath rdir = None ->
  disk w !! genesisSumPath rdir <> Some Dir ->
  disk w !! binariesPath rdir <> Some Dir ->
  disk w !! latestPath rdir <> Some Dir ->
  disk w !! heightPath rdir (Header_Height hd) <> Some Dir ->
  let root :=
    MarshalIndent_LightRoot
      {| TrustHeight := Header_Height hd;
         TrustHash := HexBytes_String (Commit_BlockID_Hash cm) |} in
  let bytes := MarshalIndent formatFloat c in
  exists w',
    DumpInfo env base chain config w = (Returned None, w')
    /\ node_at (disk w') (chainPath rdir) = Some Dir
    /\ disk w' !! lrpath rdir = Some Dir
    /\ disk w' !! latestPath rdir = Some (File root)
    /\ disk w' !! heightPath rdir (Header_Height hd)
       = Some (File root)
    /\ disk w' !! binariesPath rdir = Some (File (Config_Binary config))
    /\ disk w' !! genesisPath rdir = Some (File bytes)
    /\ disk w' !! genesisSumPath rdir
       = Some (File (hex_encode hex_lower (sha256_Sum256 bytes)))
    /\ disk w' !! peersPath rdir
       = Some (File (MarshalIndent_strings (stringsFromPeers peers))).
Proof.
  intros rdir Hd Hs Hnw Hcu Hg Hc Hhd Hcm Hn Hm Hu Heg Hbase Hcp Hlp Hgp Hpp Hsp Hbp
    Hlat Hhp root bytes.
  pose proof (NewLightRoot_Some sh hd cm Hhd Hcm) as Hroot. fold root in Hroot.
  destruct (prepare env base chain config w client stat g sh hd root peers
              Hd Hs Hnw Hcu Hg Hc Hhd Hroot Hn Heg Hbase Hcp Hlp)
    as (w3 & Hready & Hsame & ->). fold rdir in Hready, Hsame |- *.
  pose proof (registry_paths_NoDup rdir (Header_Height hd)) as Hnd.
  rewrite !NoDup_cons, !not_elem_of_cons in Hnd. destruct_and!.
  assert (sortedGenesis parseFloat formatFloat json_Marshal sha256_Sum256 g
          = Ok (hex_encode hex_lower (sha256_Sum256 bytes), bytes)) as Hsg.
  { unfold sortedGenesis. rewrite Hm. cbv beta iota delta [Ok]. by rewrite Hu. }
  set (s3 := {| world := w3; err := None |}) in *.
  destruct (persist_outcome config (map_order env) rdir (Header_Height hd) root g peers true None _ _
              (persist_schedule env) s3
              (genesis_fresh_stages parseFloat formatFloat json_Marshal
                 sha256_Sum256 rdir g peers _ _ Hsg)
              (peers_fresh_stages json_Unmarshal_strings (map_order env) rdir g peers None)
              Hready)
    as (Hcr & Heg' & _ & R1 & R2 & R3 & (t3 & _ & E3 & S3)
        & (t4 & _ & E4 & S4));
    try (cbn [s3 world]; rewrite Hsame by done; done).
  { left. cbn [s3 world]. rewrite !Hsame by done. done. }
  { left. cbn [s3 world]. rewrite !Hsame by done. done. }
  apply genesis_fresh_ended in S3 as (_ & R4 & R5); [|exact E3].
  apply peers_fresh_ended in S4 as (_ & R6); [|exact E4].
  pose proof Hready as (_ & _ & _ & Hc3 & Hl3).
  assert (keeps (chainPath rdir) s3
            (frame (run_group (persist_schedule env)
                      (persist_tasks (map_order env) rdir config (Header_Height hd) root) s3))
          /\ keeps (lrpath rdir) s3
               (frame (run_group (persist_schedule env)
                         (persist_tasks (map_order env) rdir config (Header_Height hd) root) s3)))
    as [Kc Kl].
  { split; apply (run_group_always (keeps _) (keeps_refl _) (keeps_trans _)
                    (keeps_record _));
      intros i t; apply persist_tasks_keep; try done;
      rewrite !not_elem_of_cons; repeat split; try done;
      apply not_elem_of_nil. }
  unfold keeps in Kc, Kl. rewrite Hl3 in Kl.
  assert (node_at (disk (world (frame
            (run_group (persist_schedule env)
               (persist_tasks (map_order env) rdir config (Header_Height hd)
                  root) s3)))) (chainPath rdir) = Some Dir) as Kc'.
  { unfold node_at in Hc3 |- *. by rewrite Kc. }
  assert (eg (world (frame (run_group (persist_schedule env)
                              (persist_tasks (map_order env) rdir config (Header_Height hd) root)
                              s3))) = None) as Hnone by by destruct Heg'.
  unfold after_group. rewrite Hcr, Hnone.
  eexists. split; [reflexivity|]. by repeat split.
Qed.

(** X19. Running again on an entry.  Assume a process whose group holds
    no error and a node that answers the dial and the status call,
    reports the chain id asked for, is not catching up, and answers the
    genesis, commit and net-info calls, the commit with its header and
    its commit set.  Assume of the registry that the directory above
    the chain directory exists, that no regular file has the name of
    the chain directory or of [light-roots], that [genesis.json]
    exists, that [peers.json] is a regular file whose text decodes to a
    list of strings, and that no directory has the name of
    [binaries.json], [light-roots/latest.json] or
    [light-roots/<height>.json].  Then [DumpInfo] returns nil however
    the tasks interleave: [genesis.json] and its checksum are as they
    were, whatever the node reports now; [peers.json] holds the merge
    of its list with the discovered peers; the light-root files and
    [binaries.json] are written anew. *)
Theorem DumpInfo_rerun env base chain config w client stat g sh hd cm peers
    n data fp :
  let rdir := {| dir := base; chainID := chain |} in
  dial env = Ok client ->
  Status client = Ok stat ->
  NodeInfo_Network stat = chain ->
  SyncInfo_CatchingUp stat = false ->
  Genesis client = Ok g ->
  Commit client (SyncInfo_LatestBlockHeight stat) = Ok sh ->
  SignedHeader_Header sh = Some hd ->
  SignedHeader_Commit sh = Some cm ->
  NetInfo client = Ok peers ->
  eg w = None ->
  parent_state (disk w) (chainPath rdir) = PDir ->
  (forall data, node_at (disk w) (chainPath rdir) <> Some (File data)) ->
  (forall data, disk w !! lrpath rdir <> Some (File data)) ->
  disk w !! genesisPath rdir = Some n ->
  disk w !! peersPath rdir = Some (File data) ->
  json_Unmarshal_strings data = Ok fp ->
  disk w !! binariesPath rdir <> Some Dir ->
  disk w !! latestPath rdir <> Some Dir ->
  disk w !! heightPath rdir (Header_Height hd) <> Some Dir ->
  let root :=
    MarshalIndent_LightRoot
      {| TrustHeight := Header_Height hd;
         TrustHash := HexBytes_String (Commit_BlockID_Hash cm) |} in
  exists w',
    DumpInfo env base chain config w = (Returned None, w')
    /\ disk w' !! genesisPath rdir = Some n
    /\ disk w' !! genesisSumPath rdir = disk w !! genesisSumPath rdir
    /\ disk w' !! peersPath rdir
       = Some (File (MarshalIndent_strings
                       (merge_peers (map_order env) fp
                          (stringsFromPeers peers))))
    /\ disk w' !! latestPath rdir = Some (File root)
    /\ disk w' !! heightPath rdir (Header_Height hd)
       = Some (File root)
    /\ disk w' !! binariesPath rdir = Some (File (Config_Binary config)).
Proof.
  intros rdir Hd Hs Hnw Hcu Hg Hc Hhd Hcm Hn Heg Hbase Hcp Hlp Hgp Hpp Hu Hbp
    Hlat Hhp root.
  pose proof (NewLightRoot_Some sh hd cm Hhd Hcm) as Hroot. fold root in Hroot.
  destruct (prepare env base chain config w client stat g sh hd root peers
              Hd Hs Hnw Hcu Hg Hc Hhd Hroot Hn Heg Hbase Hcp Hlp)
    as (w3 & Hready & Hsame & ->). fold rdir in Hready, Hsame |- *.
  pose proof (registry_paths_NoDup rdir (Header_Height hd)) as Hnd.
  rewrite !NoDup_cons, !not_elem_of_cons in Hnd. destruct_and!.
  set (s3 := {| world := w3; err := None |}) in *.
  destruct (persist_outcome config (map_order env) rdir (Header_Height hd) root g peers false None _ _
              (persist_schedule env) s3
              (genesis_steady_stages parseFloat formatFloat json_Marshal
                 sha256_Sum256 rdir g peers None n
                 (disk w !! genesisSumPath rdir))
              (peers_steady_stages json_Unmarshal_strings (map_order env) rdir g peers data fp Hu)
              Hready)
    as (Hcr & Heg' & _ & R1 & R2 & R3 & (t3 & _ & E3 & S3)
        & (t4 & _ & E4 & S4));
    try (cbn [s3 world]; rewrite Hsame by done; done).
  { split; [|split; [|by left]]; cbn [s3 world]; by rewrite Hsame. }
  { left. cbn [s3 world]. rewrite !Hsame by done. done. }
  apply genesis_steady_ended in S3 as (_ & R4 & R5); [|exact E3].
  apply peers_steady_ended in S4 as (_ & R6); [|exact E4].
  assert (eg (world (frame (run_group (persist_schedule env)
                              (persist_tasks (map_order env) rdir config (Header_Height hd) root)
                              s3))) = None) as Hnone by by destruct Heg'.
  unfold after_group. rewrite Hcr, Hnone.
  eexists. split; [reflexivity|]. by repeat split.
Qed.

(** X20. A [peers.json] that does not decode.  Assume a process whose
    group holds no error and a node that answers the dial and the
    status call, reports the chain id asked for, is not catching up,
    and answers the genesis, commit and net-info calls, the commit with
    its header and its commit set.  Assume of the registry that the
    directory above the chain directory exists, that no regular file
    has the name of the chain directory or of [light-roots], that
    [genesis.json] exists, that [peers.json] is a regular file whose
    text [json.Unmarshal] rejects, and that no directory has the name
    of [binaries.json], [light-roots/latest.json] or
    [light-roots/<height>.json].  Then [DumpInfo] returns the error of
    [json.Unmarshal] behind [unmarshaling peer strings: ], however the
    tasks interleave; [peers.json], [genesis.json] and its checksum are
    as they were, and the light-root files and [binaries.json] are
    written all the same. *)
Theorem DumpInfo_corrupt_peers_kept env base chain config
    w client stat g sh hd cm peers n data e :
  let rdir := {| dir := base; chainID := chain |} in
  dial env = Ok client ->
  Status client = Ok stat ->
  NodeInfo_Network stat = chain ->
  SyncInfo_CatchingUp stat = false ->
  Genesis client = Ok g ->
  Commit client (SyncInfo_LatestBlockHeight stat) = Ok sh ->
  SignedHeader_Header sh = Some hd ->
  SignedHeader_Commit sh = Some cm ->
  NetInfo client = Ok peers ->
  eg w = None ->
  parent_state (disk w) (chainPath rdir) = PDir ->
  (forall data, node_at (disk w) (chainPath rdir) <> Some (File data)) ->
  (forall data, disk w !! lrpath rdir <> Some (File data)) ->
  disk w !! genesisPath rdir = Some n ->
  disk w !! peersPath rdir = Some (File data) ->
  json_Unmarshal_strings data = Err e ->
  disk w !! binariesPath rdir <> Some Dir ->
  disk w !! latestPath rdir <> Some Dir ->
  disk w !! heightPath rdir (Header_Height hd) <> Some Dir ->
  let root :=
    MarshalIndent_LightRoot
      {| TrustHeight := Header_Height hd;
         TrustHash := HexBytes_String (Commit_BlockID_Hash cm) |} in
  exists w',
    DumpInfo env base chain config w
    = (Returned (Some (Errorf ("unmarshaling peer strings: " +:+ Error e))),
       w')
    /\ disk w' !! peersPath rdir = Some (File data)
    /\ disk w' !! genesisPath rdir = Some n
    /\ disk w' !! genesisSumPath rdir = disk w !! genesisSumPath rdir
    /\ disk w' !! latestPath rdir = Some (File root)
    /\ disk w' !! heightPath rdir (Header_Height hd)
       = Some (File root)
    /\ disk w' !! binariesPath rdir = Some (File (Config_Binary config)).
Proof.
  intros rdir Hd Hs Hnw Hcu Hg Hc Hhd Hcm Hn Heg Hbase Hcp Hlp Hgp Hpp Hu Hbp
    Hlat Hhp root.
  pose proof (NewLightRoot_Some sh hd cm Hhd Hcm) as Hroot. fold root in Hroot.
  destruct (prepare env base chain config w client stat g sh hd root peers
              Hd Hs Hnw Hcu Hg Hc Hhd Hroot Hn Heg Hbase Hcp Hlp)
    as (w3 & Hready & Hsame & ->). fold rdir in Hready, Hsame |- *.
  pose proof (registry_paths_NoDup rdir (Header_Height hd)) as Hnd.
  rewrite !NoDup_cons, !not_elem_of_cons in Hnd. destruct_and!.
  set (s3 := {| world := w3; err := None |}) in *.
  set (failure := Errorf ("unmarshaling peer strings: " +:+ Error e)).
  apply (persist_ready_weaken rdir g peers (Some failure)) in Hready.
  destruct (persist_outcome config (map_order env) rdir (Header_Height hd) root g peers false
              (Some failure) _ _ (persist_schedule env) s3
              (genesis_steady_stages parseFloat formatFloat json_Marshal
                 sha256_Sum256 rdir g peers (Some failure) n
                 (disk w !! genesisSumPath rdir))
              (peers_corrupt_stages json_Unmarshal_strings (map_order env) rdir g peers data e Hu)
              Hready)
    as (Hcr & _ & Herr & R1 & R2 & R3 & (t3 & _ & E3 & S3)
        & (t4 & P4 & E4 & S4));
    try (cbn [s3 world]; rewrite Hsame by done; done).
  { split; [|split; [|by left]]; cbn [s3 world]; by rewrite Hsame. }
  { split; [|by left]. cbn [s3 world]. by rewrite Hsame. }
  apply genesis_steady_ended in S3 as (_ & R4 & R5); [|exact E3].
  apply peers_corrupt_ended in S4 as (-> & R6); [|exact E4].
  apply Herr in P4.
  unfold after_group. rewrite Hcr, P4.
  eexists. split; [reflexivity|]. by repeat split.
Qed.

(** X21. A genesis document that cannot be sorted.  Assume a process
    whose group holds no error and a node that answers the dial and the
    status call, reports the chain id asked for, is not catching up,
    and answers the genesis, commit and net-info calls, the commit with
    its header and its commit set, the genesis document one that
    [sortedGenesis] rejects.  Assume of the registry that the directory
    above the chain directory exists, that no regular file has the name
    of the chain directory or of [light-roots], that [genesis.json] and
    [peers.json] are missing, and that no directory has the name of
    [binaries.json], [light-roots/latest.json] or
    [light-roots/<height>.json].  Then [DumpInfo] returns the error of
    [sortedGenesis] behind [sorting genesis file: ], however the tasks
    interleave: no [genesis.json] is written and its checksum file is
    as it was, and the other four files are written all the same. *)
Theorem DumpInfo_unsortable_genesis env base chain config w client stat g
    sh hd cm peers e :
  let rdir := {| dir := base; chainID := chain |} in
  dial env = Ok client ->
  Status client = Ok stat ->
  NodeInfo_Network stat = chain ->
  SyncInfo_CatchingUp stat = false ->
  Genesis client = Ok g ->
  Commit client (SyncInfo_LatestBlockHeight stat) = Ok sh ->
  SignedHeader_Header sh = Some hd ->
  SignedHeader_Commit sh = Some cm ->
  NetInfo client = Ok peers ->
  sortedGenesis parseFloat formatFloat json_Marshal sha256_Sum256 g = Err e ->
  eg w = None ->
  parent_state (disk w) (chainPath rdir) = PDir ->
  (forall data, node_at (disk w) (chainPath rdir) <> Some (File data)) ->
  (forall data, disk w !! lrpath rdir <> Some (File data)) ->
  disk w !! genesisPath rdir = None ->
  disk w !! peersPath rdir = None ->
  disk w !! binariesPath rdir <> Some Dir ->
  disk w !! latestPath rdir <> Some Dir ->
  disk w !! heightPath rdir (Header_Height hd) <> Some Dir ->
  let root :=
    MarshalIndent_LightRoot
      {| TrustHeight := Header_Height hd;
         TrustHash := HexBytes_String (Commit_BlockID_Hash cm) |} in
  exists w',
    DumpInfo env base chain config w
    = (Returned (Some (Errorf ("sorting genesis file: " +:+ Error e))), w')
    /\ disk w' !! genesisPath rdir = None
    /\ disk w' !! genesisSumPath rdir = disk w !! genesisSumPath rdir
    /\ disk w' !! peersPath rdir
       = Some (File (MarshalIndent_strings (stringsFromPeers peers)))
    /\ disk w' !! latestPath rdir = Some (File root)
    /\ disk w' !! heightPath rdir (Header_Height hd)
       = Some (File root)
    /\ disk w' !! binariesPath rdir = Some (File (Config_Binary config)).
Proof.
  intros rdir Hd Hs Hnw Hcu Hg Hc Hhd Hcm Hn Hsg Heg Hbase Hcp Hlp Hgp Hpp Hbp
    Hlat Hhp root.
  pose proof (NewLightRoot_Some sh hd cm Hhd Hcm) as Hroot. fold root in Hroot.
  destruct (prepare env base chain config w client stat g sh hd root peers
              Hd Hs Hnw Hcu Hg Hc Hhd Hroot Hn Heg Hbase Hcp Hlp)
    as (w3 & Hready & Hsame & ->). fold rdir in Hready, Hsame |- *.
  pose proof (registry_paths_NoDup rdir (Header_Height hd)) as Hnd.
  rewrite !NoDup_cons, !not_elem_of_cons in Hnd. destruct_and!.
  set (s3 := {| world := w3; err := None |}) in *.
  set (failure := Errorf ("sorting genesis file: " +:+ Error e)).
  apply (persist_ready_weaken rdir g peers (Some failure)) in Hready.
  destruct (persist_outcome config (map_order env) rdir (Header_Height hd) root g peers true
              (Some failure) _ _ (persist_schedule env) s3
              (genesis_unsortable_stages parseFloat formatFloat json_Marshal
                 sha256_Sum256 rdir g peers
                 (disk w !! genesisSumPath rdir) e Hsg)
              (peers_fresh_stages json_Unmarshal_strings (map_order env) rdir g peers
                 (Some failure))
              Hready)
    as (Hcr & _ & Herr & R1 & R2 & R3 & (t3 & P3 & E3 & S3)
        & (t4 & _ & E4 & S4));
    try (cbn [s3 world]; rewrite Hsame by done; done).
  { split; [|split; [|by left]]; cbn [s3 world]; by rewrite Hsame. }
  { left. cbn [s3 world]. rewrite !Hsame by done. done. }
  apply genesis_unsortable_ended in S3 as (-> & R4 & R5); [|exact E3].
  apply peers_fresh_ended in S4 as (_ & R6); [|exact E4].
  apply Herr in P3.
  unfold after_group. rewrite Hcr, P3.
  eexists. split; [reflexivity|]. by repeat split.
Qed.

(** X22. [DumpInfo] does not make the directory above the chain
    directory.  Assume a process whose group holds no error and a node
    that answers the dial and the status call, reports the chain id
    asked for, is not catching up, and answers the genesis, commit and
    net-info calls.  When the chain directory does not exist and the
    directory above it is missing, with no regular file on the way to
    it, [DumpInfo] returns the error of [os.Mkdir] on the chain
    directory, [no such file or directory], behind [making dir ],
    after the fetches, and the disk is as it was. *)
Theorem DumpInfo_missing_base env base chain config w client stat g sh
    peers :
  let rdir := {| dir := base; chainID := chain |} in
  dial env = Ok client ->
  Status client = Ok stat ->
  NodeInfo_Network stat = chain ->
  SyncInfo_CatchingUp stat = false ->
  Genesis client = Ok g ->
  Commit client (SyncInfo_LatestBlockHeight stat) = Ok sh ->
  NetInfo client = Ok peers ->
  eg w = None ->
  parent_state (disk w) (chainPath rdir) = PMissing ->
  node_at (disk w) (chainPath rdir) = None ->
  (DumpInfo env base chain config w).1
  = Returned (Some (Errorf ("making dir " +:+ chainPath rdir +:+ ": mkdir "
                            +:+ chainPath rdir
                            +:+ ": no such file or directory")))
  /\ disk (DumpInfo env base chain config w).2 = disk w.
Proof.
  intros rdir Hd Hs Hnw Hcu Hg Hc Hn Heg Hbase Hcp.
  destruct (DumpInfo_healthy_fetch parseFloat formatFloat json_Marshal
              sha256_Sum256 json_Unmarshal_strings env base chain config w client stat g sh
              peers Hd Hs Hnw Hcu Hg Hc Hn Heg)
    as (w1 & Hd1 & He1 & Hg1 & Hc1 & Hn1 & ->).
  cbn zeta. fold rdir. rewrite <-Hd1 in Hbase, Hcp |- *.
  unfold createDirIfNotExist, os_Stat, os_Mkdir, parent_errno, missing_errno.
  rewrite Hcp, Hbase. cbn. done.
Qed.
End whole_runs.

(** * What a nil return tells *)

Section nil_returns.
Context {float64 : Type}.
Variable parseFloat : string -> option float64.
Variable formatFloat : float64 -> string.
Context {GenesisDoc : Type}.
Variable json_Marshal : GenesisDoc -> result json.
Variable sha256_Sum256 : string -> string.
Variable json_Unmarshal_strings : string -> result (list string).

Local Abbreviation Frame := (@Frame GenesisDoc).
Local Abbreviation Prog := (@Prog GenesisDoc).
Local Abbreviation World := (@World GenesisDoc).
Local Abbreviation persist_tasks :=
  (persist_tasks parseFloat formatFloat json_Marshal sha256_Sum256
     json_Unmarshal_strings).
Local Abbreviation DumpInfo :=
  (DumpInfo parseFloat formatFloat json_Marshal sha256_Sum256
     json_Unmarshal_strings).

Implicit Types (s : Frame) (w : World) (p t : Prog).

(** The steps of the persist phase assign none of the package-level
    variables. *)
Lemma persist_tasks_keep_vars ord rdir config h root i (t : Prog) :
  persist_tasks ord rdir config h root !! i = Some t ->
  always (fun s s' => commit (world s') = commit (world s)
                      /\ netInfo (world s') = netInfo (world s)) t.
Proof.
  destruct i as [|[|[|[|[|i]]]]]; cbn [persist_tasks lookup list_lookup];
    intros [= <-].
  - cbn. intros s. split; [done|]. intros s'. split; done.
  - cbn. intros s. split; [done|]. intros s'. split; done.
  - cbn. intros s. split; [done|]. intros s'. split; done.
  - cbn. intros s. split; [done|]. intros s1. split; [done|].
    destruct (os_IsNotExist (err s1)); [|done].
    unfold writeGenesis. destruct (gen (world s1)) as [g|]; [|done].
    destruct (sortedGenesis _ _ _ _ g) as [e|[sum write]]; [done|].
    cbn. intros s2. split; [done|].
    destruct (ioutil_WriteFile _ _ _).1; [done|].
    cbn. intros s3. split; done.
  - cbn. intros s. split.
    { destruct (netInfo (world s)) eqn:E; cbn; by rewrite ?E. }
    destruct (netInfo (world s)) as [peers|]; [|done].
    cbn. intros s1. split; [done|].
    destruct (os_IsNotExist (err s1)).
    + cbn. intros s2. split; [done|]. intros s3. split; done.
    + cbn. intros s2. split; [done|].
      destruct (os_Open _ _) as [e|pf]; [done|].
      destruct (ioutil_ReadAll _ pf) as [e|pfb]; [done|].
      destruct (json_Unmarshal_strings pfb) as [e|fp]; [done|].
      cbn. intros s3. split; [done|]. intros s4. split; [done|].
      intros s5. split; done.
Qed.

(** What a run that returns nil went through, with what the persist
    phase started from. *)
Lemma DumpInfo_nil_run env base chain config w w' :
  DumpInfo env base chain config w = (Returned None, w') ->
  exists client stat sh hd root s,
    dial env = Ok client /\ Status client = Ok stat
    /\ NodeInfo_Network stat = chain
    /\ SyncInfo_CatchingUp stat = false
    /\ Commit client (SyncInfo_LatestBlockHeight stat) = Ok sh
    /\ SignedHeader_Header sh = Some hd
    /\ NewLightRoot sh = Some root
    /\ commit (world s) = Some sh
    /\ netInfo (world s) = to_option (NetInfo client)
    /\ let fin := run_group (persist_schedule env)
                    (persist_tasks (map_order env)
                       {| dir := base; chainID := chain |} config
                       (Header_Height hd) root) s in
       crashed fin = false /\ eg (world (frame fin)) = None
       /\ w' = world (frame fin).
Proof.
  unfold DumpInfo.
  destruct (dial env) as [e|client] eqn:Hd; [done|].
  destruct (Status client) as [e|stat] eqn:Hs; [done|].
  destruct (String.eqb (NodeInfo_Network stat) chain) eqn:Hn;
    cbn [negb]; [|done].
  apply String.eqb_eq in Hn.
  destruct (SyncInfo_CatchingUp stat) eqn:Hcu; [done|].
  unfold after_group at 1.
  destruct (crashed (run_group (fetch_schedule env) _ _)) eqn:Hc1; [done|].
  pose proof (fetch_recorded client config stat (fetch_schedule env) _ Hc1)
    as (_ & Hcommit & Hnet). cbn zeta in Hcommit, Hnet. revert Hcommit Hnet.
  generalize (world (frame (run_group (fetch_schedule env)
    (fetch_tasks client config stat)
    {| world := w_emit [Log "GET /status" ["rpc-addr"; RPCAddr config]]
                  (w_emit [RPC_Status] w); err := None |}))).
  intros w1 Hcommit Hnet.
  destruct (eg w1); [done|].
  set (rdir := {| dir := base; chainID := chain |}).
  pose proof (createDirIfNotExist_commit (chainPath rdir) w1) as C2.
  pose proof (createDirIfNotExist_vars (chainPath rdir) w1) as (_ & N2 & _).
  destruct (createDirIfNotExist (chainPath rdir) w1) as [[e|] w2]; [done|].
  cbn [snd] in C2, N2.
  pose proof (createDirIfNotExist_commit (lrpath rdir) w2) as C3.
  pose proof (createDirIfNotExist_vars (lrpath rdir) w2) as (_ & N3 & _).
  destruct (createDirIfNotExist (lrpath rdir) w2) as [[e|] w3]; [done|].
  cbn [snd] in C3, N3.
  rewrite C2, Hcommit in C3. rewrite N2, Hnet in N3. rewrite C3.
  destruct (Commit client (SyncInfo_LatestBlockHeight stat)) as [e|sh] eqn:Hsh;
    [done|]. cbn [to_option].
  destruct (SignedHeader_Header sh) as [hd|] eqn:Hhd; [|done].
  destruct (NewLightRoot sh) as [root|] eqn:Hroot; [|done].
  unfold after_group.
  destruct (crashed (run_group (persist_schedule env) _ _)) eqn:Hc2; [done|].
  intros [= Heg <-].
  exists client, stat, sh, hd, root, {| world := w3; err := None |}.
  cbn zeta. by repeat split.
Qed.

(** The peers task never returns nil when [netInfo] is nil. *)
Lemma persist_peers_need_netInfo ord rdir config h root sched s :
  netInfo (world s) = None ->
  pool (run_group sched (persist_tasks ord rdir config h root) s) !! 4
  <> Some (Ret None).
Proof.
  intros Hn Hp.
  eapply (task_invariant 4
            (fun p s => netInfo (world s) = None
                        /\ (p = persistPeers json_Unmarshal_strings ord rdir
                            \/ p = Panic))) in Hp.
  - by destruct Hp as [_ [H|H]].
  - intros p [= <-]. split; [exact Hn|by left].
  - intros upd k s1 [Hn1 [H|H]]; [|discriminate H].
    injection H as -> ->. cbn beta. rewrite Hn1. split; [exact Hn1|by right].
  - intros j t Hj Ht.
    eapply always_mono; [|by eapply persist_tasks_keep_vars].
    intros s1 s2 [_ Hs] q [Hq1 Hq2]. split; [congruence|done].
  - intros q e s1 H. exact H.
Qed.

(** X23. A run returns nil only when the client was made, the node passed
    the checks and answered the commit and the net-info call of this
    run, whatever the interleaving: then the group holds no error and
    the package-level [commit] and [netInfo] hold those answers.  (A
    failed genesis call does not show in this way.) *)
Theorem nil_return_means_fetched env base chain config w w' :
  DumpInfo env base chain config w = (Returned None, w') ->
  exists client stat sh peers,
    dial env = Ok client /\ Status client = Ok stat
    /\ NodeInfo_Network stat = chain
    /\ SyncInfo_CatchingUp stat = false
    /\ Commit client (SyncInfo_LatestBlockHeight stat) = Ok sh
    /\ NetInfo client = Ok peers
    /\ eg w' = None /\ commit w' = Some sh /\ netInfo w' = Some peers.
Proof.
  intros (client & stat & sh & hd & root & s & Hd & Hs & Hn & Hcu & Hsh
          & Hhd & Hroot & Hc & Hnet & Hcr & Heg & ->)%DumpInfo_nil_run.
  set (rdir := {| dir := base; chainID := chain |}) in *.
  assert (commit (world (frame (run_group (persist_schedule env)
            (persist_tasks (map_order env) rdir config (Header_Height hd) root) s)))
          = commit (world s)
          /\ netInfo (world (frame (run_group (persist_schedule env)
               (persist_tasks (map_order env) rdir config (Header_Height hd) root) s)))
             = netInfo (world s)) as [Kc Kn].
  { apply (run_group_always
             (fun s s' => commit (world s') = commit (world s)
                          /\ netInfo (world s') = netInfo (world s))).
    - done.
    - intros s1 s2 s3 [? ?] [? ?]. split; congruence.
    - done.
    - intros i t. apply persist_tasks_keep_vars. }
  destruct (NetInfo client) as [e|peers] eqn:Hni.
  - exfalso. cbn [to_option] in Hnet.
    apply (persist_peers_need_netInfo (map_order env) rdir config
             (Header_Height hd) root
             (persist_schedule env) s Hnet).
    apply run_group_all_nil; [apply persist_tasks_keep_eg|done|done|].
    cbn. lia.
  - exists client, stat, sh, peers. rewrite Kc, Kn, Hc, Hnet.
    by repeat split.
Qed.

Lemma always_and (R1 R2 : Frame -> Frame -> Prop) p :
  always R1 p -> always R2 p ->
  always (fun s s' => R1 s s' /\ R2 s s') p.
Proof.
  induction p as [| |upd k IH]; cbn; [done..|].
  intros H1 H2 s. destruct (H1 s) as [? ?], (H2 s) as [? ?]. auto.
Qed.

(** Wherever the interleaving takes the peers task, what it writes has
    every discovered peer. *)
Lemma peers_any_run ord rdir config h root sched s peers :
  netInfo (world s) = Some peers ->
  forall p,
    pool (run_group sched (persist_tasks ord rdir config h root) s) !! 4
    = Some p ->
    peers_stage_any json_Unmarshal_strings ord rdir (stringsFromPeers peers)
      p (frame (run_group sched (persist_tasks ord rdir config h root) s)).
Proof.
  intros Hn p Hp.
  set (qp := stringsFromPeers peers).
  eapply (task_invariant 4
            (fun p s => netInfo (world s) = Some peers
                        /\ peers_stage_any json_Unmarshal_strings ord rdir
                             qp p s)) in Hp; [by destruct Hp|..].
  - intros t [= <-]. split; [exact Hn|by left].
  - intros upd k s1 [Hn1 Hst]. unfold peers_stage_any in Hst |- *.
    destruct Hst as [H|[H|[H|[H|[(l & Hl & [[fp H]|[H|[H|[H _]]]])|[e H]]]]]];
      try discriminate H; injection H as -> ->; cbn beta.
    + rewrite Hn1. cbn beta iota zeta. split; [exact Hn1|]. right. by left.
    + split; [exact Hn1|]. destruct (os_IsNotExist (err s1)).
      * do 2 right. by left.
      * do 3 right. by left.
    + split; [exact Hn1|]. do 4 right. left. exists qp. split; [done|].
      do 2 right. by left.
    + split; [exact Hn1|].
      destruct (os_Open _ _) as [e|pf]; [do 5 right; by eexists|].
      destruct (ioutil_ReadAll _ pf) as [e|pfb]; [do 5 right; by eexists|].
      destruct (json_Unmarshal_strings pfb) as [e|fp];
        [do 5 right; by eexists|].
      cbn zeta. do 4 right. left. exists (dedupe ord (fp ++ qp)). split.
      * intros x Hx. apply (proj2 (dedupe_spec ord _)).
        apply elem_of_app. by right.
      * left. by exists fp.
    + split; [exact Hn1|]. do 4 right. left. exists l. split; [done|].
      right. by left.
    + split; [exact Hn1|]. do 4 right. left. exists l. split; [done|].
      do 2 right. by left.
    + split; [exact Hn1|].
      destruct (ioutil_WriteFile (disk (world s1)) (peersPath rdir)
                  (MarshalIndent_strings l)).1 as [e|] eqn:Hw.
      * do 5 right. by eexists.
      * do 4 right. left. exists l. split; [done|]. do 3 right.
        split; [done|]. cbn. rewrite (WriteFile_ok _ _ _ Hw).
        apply lookup_insert_eq.
  - intros j t Hj Ht.
    assert (always (fun s s' =>
              (commit (world s') = commit (world s)
               /\ netInfo (world s') = netInfo (world s))
              /\ keeps (peersPath rdir) s s') t) as Hal.
    { apply always_and; [by eapply persist_tasks_keep_vars|].
      destruct j as [|[|[|[|[|j]]]]];
        cbn [persist_tasks lookup list_lookup] in Ht; [| | | |done|done];
        injection Ht as <-.
      - apply updateFileGo_keeps. by apply latestPath_ne_chain_file.
      - apply updateFileGo_keeps. by apply heightPath_ne_chain_file.
      - apply updateFileGo_keeps. unfold binariesPath, peersPath.
        intros H%path_Join_inj; done.
      - apply persistGenesis_keeps; unfold genesisPath, genesisSumPath,
          peersPath; intros H%path_Join_inj; done. }
    eapply always_mono; [|exact Hal].
    intros s1 s2 [[_ Hs] Hk] q [Hq1 Hq2]. split; [congruence|].
    unfold peers_stage_any in Hq2 |- *. unfold keeps in Hk. by rewrite Hk.
  - intros q e s1 H. exact H.
Qed.

(** X24. After every run that returns nil, under any interleaving,
    [peers.json] holds the JSON of a list with every peer string
    discovered in this run. *)
Theorem nil_return_lists_discovered_peers env base chain config w w' :
  DumpInfo env base chain config w = (Returned None, w') ->
  exists client peers l,
    dial env = Ok client /\ NetInfo client = Ok peers
    /\ disk w' !! peersPath {| dir := base; chainID := chain |}
       = Some (File (MarshalIndent_strings l))
    /\ forall x, x ∈ stringsFromPeers peers -> x ∈ l.
Proof.
  intros (client & stat & sh & hd & root & s & Hd & Hs & Hn & Hcu & Hsh
          & Hhd & Hroot & Hc & Hnet & Hcr & Heg & ->)%DumpInfo_nil_run.
  set (rdir := {| dir := base; chainID := chain |}) in *.
  assert (pool (run_group (persist_schedule env)
                  (persist_tasks (map_order env) rdir config (Header_Height hd) root) s) !! 4
          = Some (Ret None)) as Hp.
  { apply run_group_all_nil; [apply persist_tasks_keep_eg|done|done|].
    cbn. lia. }
  destruct (NetInfo client) as [e|peers] eqn:Hni; cbn [to_option] in Hnet.
  { by destruct (persist_peers_need_netInfo (map_order env) rdir config
             (Header_Height hd) root
                   (persist_schedule env) s Hnet). }
  pose proof (peers_any_run (map_order env) rdir config
             (Header_Height hd) root
                (persist_schedule env) s peers Hnet _ Hp) as Hst.
  unfold peers_stage_any in Hst.
  destruct Hst as [H|[H|[H|[H|[(l & Hl & [[fp H]|[H|[H|[_ H]]]])|[e H]]]]]];
    try discriminate H.
  by exists client, peers, l.
Qed.
End nil_returns.

(** ** Runs against a node that answers no call after the status *)

Section node_down.
Context {float64 : Type}.
Variable parseFloat : string -> option float64.
Variable formatFloat : float64 -> string.
Context {GenesisDoc : Type}.
Variable json_Marshal : GenesisDoc -> result json.
Variable sha256_Sum256 : string -> string.
Variable json_Unmarshal_strings : string -> result (list string).

Local Abbreviation Frame := (@Frame GenesisDoc).
Local Abbreviation Prog := (@Prog GenesisDoc).
Local Abbreviation World := (@World GenesisDoc).
Local Abbreviation DumpInfo :=
  (DumpInfo parseFloat formatFloat json_Marshal sha256_Sum256
     json_Unmarshal_strings).

Implicit Types (s : Frame) (w : World) (p t : Prog).

(** When the three calls fail, every fetch task reads an error out of
    the shared [err], its own or that of another task, and returns it
    behind its own prefix, however the fetches interleave. *)
Lemma fetch_all_fail client config stat sched s e1 e2 e3 :
  Genesis client = Err e1 ->
  Commit client (SyncInfo_LatestBlockHeight stat) = Err e2 ->
  NetInfo client = Err e3 ->
  eg (world s) = None ->
  crashed (run_group sched (fetch_tasks client config stat) s) = false
  /\ exists prefix e,
       prefix ∈ ["genesis file: "; "commit: "; "net-info: "]
       /\ e ∈ [e1; e2; e3]
       /\ eg (world (frame (run_group sched (fetch_tasks client config stat)
                              s)))
          = Some (Errorf (prefix +:+ Error e)).
Proof.
  intros Hg Hc Hn Heg.
  set (P := ["genesis file: "; "commit: "; "net-info: "] : list string).
  set (E := [e1; e2; e3]).
  set (labelled := fun x : error =>
         exists prefix e, prefix ∈ P /\ e ∈ E
                          /\ x = Errorf (prefix +:+ Error e)).
  set (J := fun (i : nat) p s =>
         (eg (world s) = None \/ exists x, eg (world s) = Some x /\ labelled x)
         /\ (fetch_tasks client config stat !! i = Some p
             \/ (exists prefix line e,
                    p = check_fetched prefix line /\ prefix ∈ P
                    /\ err s = Some e /\ e ∈ E)
             \/ (exists x, p = Ret (Some x) /\ labelled x))).
  destruct (run_group_stages J sched (fetch_tasks client config stat) s)
    as [Hcr Hst].
  - intros i p Hp. split; [by left|by left].
  - intros i upd k s1 [Hgrp Hst].
    assert (forall (e : error) (f : World -> World),
              e ∈ E -> (forall w, eg (f w) = eg w) ->
              forall j t, J j t s1 ->
                          J j t (set_err (Some e) (on_world f s1))) as Hrely.
    { intros e f He Hf j t [Hgj Hj]. split.
      - cbn. by rewrite Hf.
      - destruct Hj as [Hj|[(prefix & line & e' & -> & Hp & _ & _)|Hj]].
        + by left.
        + right. left. by exists prefix, line, e.
        + by do 2 right. }
    destruct Hst as [Hi|[(prefix & line & e & H & Hp & He & HE)|(x & H & _)]];
      [| |discriminate H].
    + destruct i as [|[|[|i]]]; cbn [fetch_tasks lookup list_lookup] in Hi;
        [| | |done]; injection Hi as <- <-; cbn beta.
      * rewrite Hg. cbn [err_of Err].
        assert (e1 ∈ E) as HE by (unfold E; repeat constructor).
        split; [|split; [done|]].
        -- split; [exact Hgrp|]. right. left.
           eexists _, _, e1. split; [reflexivity|].
           split; [unfold P; repeat constructor|]. by split.
        -- intros j t _. by apply (Hrely e1 (fun w => w_set_gen _ (w_emit _ w))).
      * rewrite Hc. cbn [err_of Err].
        assert (e2 ∈ E) as HE by (unfold E; repeat constructor).
        split; [|split; [done|]].
        -- split; [exact Hgrp|]. right. left.
           eexists _, _, e2. split; [reflexivity|].
           split; [unfold P; repeat constructor|]. by split.
        -- intros j t _.
           by apply (Hrely e2 (fun w => w_set_commit _ (w_emit _ w))).
      * rewrite Hn. cbn [err_of Err].
        assert (e3 ∈ E) as HE by (unfold E; repeat constructor).
        split; [|split; [done|]].
        -- split; [exact Hgrp|]. right. left.
           eexists _, _, e3. split; [reflexivity|].
           split; [unfold P; repeat constructor|]. by split.
        -- intros j t _.
           by apply (Hrely e3 (fun w => w_set_netInfo _ (w_emit _ w))).
    + injection H as -> ->. cbn beta. rewrite He.
      split; [|split; [done|]].
      * split; [exact Hgrp|]. do 2 right. eexists. split; [reflexivity|].
        by exists prefix, e.
      * by intros j t _ Hj.
  - intros i x s1 [_ Hst] j q [Hgj Hj].
    assert (labelled x) as Hx.
    { destruct Hst as [Hi|[(prefix & line & e & H & _)|(y & [= <-] & Hy)]];
        [|discriminate H|exact Hy].
      by destruct i as [|[|[|i]]]. }
    split.
    + right. cbn. destruct Hgj as [->|(y & -> & Hy)]; by eexists.
    + destruct Hj as [Hj|[(prefix & line & e & -> & Hp & He & HE)|Hj]].
      * by left.
      * right. left. by exists prefix, line, e.
      * by do 2 right.
  - split; [exact Hcr|].
    assert (is_Some (pool (run_group sched (fetch_tasks client config stat) s)
                     !! 0)) as [t Ht].
    { apply lookup_lt_is_Some. rewrite run_group_length. cbn. lia. }
    pose proof (run_group_ended _ _ _ _ _ Hcr Ht) as Hend.
    destruct (Hst _ _ Ht) as [Hgrp Hstage].
    destruct Hstage as [Hi|[(prefix & line & e & -> & _)|(x & -> & Hx)]];
      [by injection Hi as <-|done|].
    assert (eg (world (frame (run_group sched
                                (fetch_tasks client config stat) s)))
            <> None) as Hsome.
    { eapply run_group_errors; [|exact Ht].
      intros i p Hp.
      destruct i as [|[|[|i]]]; [| | |done]; injection Hp as <-;
        (split; [|done]); cbn; intros s1; (split; [done|]); intros s2;
        (split; [|by destruct (err s2)]); by destruct (err s2). }
    destruct Hgrp as [Hnone|(y & Hy & prefix & e & Hp & He & ->)]; [done|].
    by exists prefix, e.
Qed.

(** X25. A node that passes the checks of the status and then fails the
    genesis, the commit and the net-info call, in a process whose group
    holds no error: every run returns [fetching: ] followed by the
    prefix of one of the three tasks and the error of one of the three
    calls, and the disk is as it was, however the fetches interleave.
    The prefix and the error need not belong together. *)
Theorem DumpInfo_node_down env base chain config w client stat e1 e2 e3 :
  dial env = Ok client ->
  Status client = Ok stat ->
  NodeInfo_Network stat = chain ->
  SyncInfo_CatchingUp stat = false ->
  Genesis client = Err e1 ->
  Commit client (SyncInfo_LatestBlockHeight stat) = Err e2 ->
  NetInfo client = Err e3 ->
  eg w = None ->
  (exists prefix e,
      prefix ∈ ["genesis file: "; "commit: "; "net-info: "]
      /\ e ∈ [e1; e2; e3]
      /\ (DumpInfo env base chain config w).1
         = Returned (Some (Errorf ("fetching: " +:+ prefix +:+ Error e))))
  /\ disk (DumpInfo env base chain config w).2 = disk w.
Proof.
  intros Hd Hs <- Hcu Hg Hc Hn Heg. unfold DumpInfo.
  rewrite Hd. cbv beta iota zeta delta [Ok]. rewrite Hs.
  cbv beta iota zeta delta [Ok]. rewrite String.eqb_refl, Hcu.
  cbv beta iota zeta delta [negb].
  set (s0 := {| world := w_emit [Log "GET /status" ["rpc-addr"; RPCAddr config]]
                           (w_emit [RPC_Status] w); err := None |}).
  destruct (fetch_all_fail client config stat (fetch_schedule env) s0
              e1 e2 e3 Hg Hc Hn Heg) as (Hcr & prefix & e & Hp & He & Heg1).
  destruct (fetch_phase_quiet client config stat (fetch_schedule env) s0)
    as [Hdisk _].
  match goal with
  | |- context [after_group ?g ?k] =>
      assert (after_group g k
              = (Returned (Some (Errorf ("fetching: " +:+ prefix +:+ Error e))),
                 world (frame g))) as ->
  end.
  { unfold after_group at 1. by rewrite Hcr, Heg1. }
  split; [|exact Hdisk]. by exists prefix, e.
Qed.
End node_down.

(** * The further properties on concrete inputs *)

Lemma createDirIfNotExist_idempotent_witness :
  (createDirIfNotExist "/registry/chain-A" (ex_world ex_disk_empty)).1 = None
  /\ createDirIfNotExist "/registry/chain-A"
       (createDirIfNotExist "/registry/chain-A" (ex_world ex_disk_empty)).2
     = (None,
        w_emit [FS_Stat "/registry/chain-A"]
          (createDirIfNotExist "/registry/chain-A" (ex_world ex_disk_empty)).2).
Proof.
  assert ((createDirIfNotExist "/registry/chain-A" (ex_world ex_disk_empty)).1
          = None) as H by (vm_compute; reflexivity).
  split; [exact H|].
  exact (createDirIfNotExist_idempotent "/registry/chain-A"
           (ex_world ex_disk_empty) H).
Defined.

Lemma createDirIfNotExist_missing_parent_witness :
  parent_state ex_disk_empty "/registry/chain-A/light-roots" = PMissing
  /\ node_at ex_disk_empty "/registry/chain-A/light-roots" = None
  /\ (createDirIfNotExist "/registry/chain-A/light-roots"
        (ex_world ex_disk_empty)).1
     = Some (Errorf ("making dir " +:+ "/registry/chain-A/light-roots"
                     +:+ ": mkdir " +:+ "/registry/chain-A/light-roots"
                     +:+ ": no such file or directory")).
Proof.
  assert (parent_state (disk (ex_world ex_disk_empty))
            "/registry/chain-A/light-roots" = PMissing) as H1
    by (vm_compute; reflexivity).
  assert (node_at (disk (ex_world ex_disk_empty))
            "/registry/chain-A/light-roots" = None) as H2
    by (vm_compute; reflexivity).
  split; [exact H1|]. split; [exact H2|].
  exact (proj1 (createDirIfNotExist_missing_parent
                  "/registry/chain-A/light-roots" (ex_world ex_disk_empty)
                  H1 H2)).
Defined.

Lemma createDirIfNotExist_nil_without_directory_witness :
  node_at ex_disk_file_in_the_way "/registry/chain-A"
  = Some (File "not a directory")
  /\ createDirIfNotExist "/registry/chain-A" (ex_world ex_disk_file_in_the_way)
     = (None, w_emit [FS_Stat "/registry/chain-A"]
                (ex_world ex_disk_file_in_the_way)).
Proof.
  assert (node_at (disk (ex_world ex_disk_file_in_the_way))
            "/registry/chain-A"
          = Some (File "not a directory")) as H by (vm_compute; reflexivity).
  split; [exact H|].
  exact (proj1 (createDirIfNotExist_nil_without_directory "/registry/chain-A"
                  (ex_world ex_disk_file_in_the_way)
                  (or_introl (ex_intro _ "not a directory" H)))).
Defined.

Lemma updateFile_succeeds_iff_witness :
  (drive (updateFileGo "/registry/chain-A" "x") ex_frame_dirs).2 = Ret None
  <-> parent_state ex_disk_dirs "/registry/chain-A" = PDir
      /\ ~ (node_at ex_disk_dirs "/registry/chain-A" = Some Dir
            /\ dir_in_use ex_disk_dirs "/registry/chain-A" = true).
Proof.
  exact (proj1 (updateFile_succeeds_iff "/registry/chain-A" "x" ex_frame_dirs)).
Defined.

Lemma stringsFromPeers_entries_witness :
  ex_peers !! 0 = Some {| NodeInfo_ID := "a"; RemoteIP := "1.2.3.4";
                          NodeInfo_ListenAddr := "tcp://0.0.0.0:26656" |}
  /\ exists port,
       stringsFromPeers ex_peers !! 0
       = Some ("a" +:+ "@" +:+ "1.2.3.4" +:+ ":" +:+ port)
       /\ occurs ":" port = false
       /\ ("tcp://0.0.0.0:26656" = port
           \/ exists host, "tcp://0.0.0.0:26656" = host +:+ ":" +:+ port).
Proof.
  split; [reflexivity|].
  exact (proj2 (stringsFromPeers_entries ex_peers) 0 _ eq_refl).
Defined.

Lemma dedupe_each_once_witness :
  NoDup ex_prior /\ dedupe ex_order ex_prior ≡ₚ ex_prior.
Proof.
  assert (NoDup ex_prior) as Hnd by apply NoDup_singleton.
  split; [exact Hnd|].
  exact (proj2 (proj2 (proj2 (dedupe_each_once ex_order ex_prior))) Hnd).
Defined.

Lemma DumpInfo_gate_witness :
  (ex_DumpInfo (ex_env ex_client_catching_up [] []) (ex_world ex_disk_empty)).1
  = Returned (Some (Errorf
      ("node(" +:+ "http://node:26657" +:+ ") on chain(" +:+ "chain-A"
       +:+ ") still catching up")))
  /\ (ex_DumpInfo (ex_env ex_client_catching_up [] [])
        (ex_world ex_disk_empty)).2
     = w_emit [RPC_Status] (ex_world ex_disk_empty).
Proof.
  assert (forall client stat,
            dial (ex_env ex_client_catching_up [] []) = Ok client ->
            Status client = Ok stat ->
            NodeInfo_Network stat = "chain-A" ->
            SyncInfo_CatchingUp stat <> false) as Hbad.
  { intros client stat [= <-] [= <-] _. discriminate. }
  destruct (DumpInfo_gate ex_parseFloat ex_formatFloat ex_Marshal ex_digest
              ex_Unmarshal_strings (ex_env ex_client_catching_up [] [])
              "/registry" "chain-A" ex_config (ex_world ex_disk_empty) Hbad)
    as [(e & H & _)|[(client & e & H1 & H2 & _)
       |[(client & stat & H1 & H2 & H3 & _)
        |(client & stat & H1 & H2 & H3 & H4 & H5)]]].
  - discriminate H.
  - injection H1 as <-. discriminate H2.
  - injection H1 as <-. injection H2 as <-. by destruct H3.
  - rewrite H5. split; reflexivity.
Defined.

Lemma DumpInfo_touches_registry_only_witness :
  (heightPath ex_rdir 99
   ∉ [chainPath ex_rdir; lrpath ex_rdir; genesisPath ex_rdir;
      genesisSumPath ex_rdir; binariesPath ex_rdir; peersPath ex_rdir;
      latestPath ex_rdir])
  /\ Commit (ex_client ex_genesis "AB") 100 = Ok (ex_header "AB" 100)
  /\ SignedHeader_Header (ex_header "AB" 100) = Some {| Header_Height := 100 |}
  /\ disk ex_run.2 !! heightPath ex_rdir 99
     = disk (ex_world ex_disk_empty) !! heightPath ex_rdir 99.
Proof.
  assert (heightPath ex_rdir 99
          ∉ [chainPath ex_rdir; lrpath ex_rdir; genesisPath ex_rdir;
             genesisSumPath ex_rdir; binariesPath ex_rdir; peersPath ex_rdir;
             latestPath ex_rdir]) as H1.
  { rewrite !not_elem_of_cons. repeat split; try (vm_compute; discriminate).
    apply not_elem_of_nil. }
  assert (forall client stat sh hd,
            dial (ex_env (ex_client ex_genesis "AB") [2; 0; 1] [4; 1; 3; 0; 4])
            = Ok client ->
            Status client = Ok stat ->
            Commit client (SyncInfo_LatestBlockHeight stat) = Ok sh ->
            SignedHeader_Header sh = Some hd ->
            heightPath ex_rdir 99 <> heightPath ex_rdir (Header_Height hd))
    as H2.
  { intros client stat sh hd [= <-] [= <-] [= <-] [= <-].
    vm_compute. discriminate. }
  split; [exact H1|]. split; [reflexivity|]. split; [reflexivity|].
  exact (DumpInfo_touches_registry_only ex_parseFloat ex_formatFloat ex_Marshal
           ex_digest ex_Unmarshal_strings _ "/registry" "chain-A" ex_config
           (ex_world ex_disk_empty) (heightPath ex_rdir 99) H1 H2).
Defined.

Lemma binaries_written_witness :
  ex_run = (Returned None, ex_run.2)
  /\ disk ex_run.2 !! binariesPath ex_rdir
     = Some (File (Config_Binary ex_config)).
Proof.
  assert (ex_run = (Returned None, ex_run.2)) as Hr.
  { apply outcome_eta. vm_compute. reflexivity. }
  split; [exact Hr|].
  exact (binaries_written ex_parseFloat ex_formatFloat ex_Marshal ex_digest
           ex_Unmarshal_strings _ _ _ _ _ _ Hr).
Defined.

Lemma DumpInfo_stale_error_sticks_witness :
  eg (ex_world_stale ex_disk_empty)
  = Some (Errorf "commit: connection refused")
  /\ (ex_DumpInfo (ex_env (ex_client ex_genesis "AB") [2; 0; 1] [])
        (ex_world_stale ex_disk_empty)).1
     = Returned (Some (Errorf ("fetching: " +:+ "commit: connection refused")))
  /\ disk (ex_DumpInfo (ex_env (ex_client ex_genesis "AB") [2; 0; 1] [])
             (ex_world_stale ex_disk_empty)).2
     = ex_disk_empty.
Proof.
  split; [reflexivity|].
  destruct (DumpInfo_stale_error_sticks ex_parseFloat ex_formatFloat ex_Marshal
              ex_digest ex_Unmarshal_strings
              (ex_env (ex_client ex_genesis "AB") [2; 0; 1] [])
              "/registry" "chain-A" ex_config (ex_world_stale ex_disk_empty)
              (ex_client ex_genesis "AB") (ex_status "chain-A") _
              eq_refl eq_refl eq_refl eq_refl eq_refl) as (H1 & H2 & _).
  split; [exact H1|exact H2].
Defined.


(** Discharge the premises of [H] one after the other by evaluation. *)
Ltac by_evaluation H :=
  repeat lazymatch type of H with
         | ?A -> _ =>
             let Ha := fresh "Hpremise" in
             assert A as Ha
               by first [ vm_compute; reflexivity
                        | intros ?; vm_compute; discriminate
                        | vm_compute; discriminate ];
             specialize (H Ha)
         end.

Lemma DumpInfo_populates_witness :
  parent_state ex_disk_empty (chainPath ex_rdir) = PDir
  /\ ex_disk_empty !! genesisPath ex_rdir = None
  /\ ex_disk_empty !! peersPath ex_rdir = None
  /\ exists w',
       ex_DumpInfo (ex_env (ex_client ex_genesis "AB") [2; 0; 1] [4; 1; 3; 0; 4])
         (ex_world ex_disk_empty)
       = (Returned None, w')
       /\ disk w' !! genesisPath ex_rdir
          = Some (File (MarshalIndent ex_formatFloat
                          (VMap (<["genesis_time" := VString "2020-09-01T00:00:00Z"]>
                                   (<["chain_id" := VString "chain-A"]>
                                      (<["app_state" :=
                                           VMap (<["staking" :=
                                                     VMap {["bond" := VString "uatom"]}]>
                                                   {["auth" := VSlice [VBool true; VNil]]})]>
                                         ∅))))))
       /\ disk w' !! peersPath ex_rdir
          = Some (File (MarshalIndent_strings (stringsFromPeers ex_peers))).
Proof.
  split; [vm_compute; reflexivity|]. split; [vm_compute; reflexivity|].
  split; [vm_compute; reflexivity|].
  pose proof (DumpInfo_populates ex_parseFloat ex_formatFloat ex_Marshal ex_digest
                ex_Unmarshal_strings
                (ex_env (ex_client ex_genesis "AB") [2; 0; 1] [4; 1; 3; 0; 4])
                "/registry" "chain-A" ex_config (ex_world ex_disk_empty)
                (ex_client ex_genesis "AB") (ex_status "chain-A") ex_genesis
                (ex_header "AB" 100) {| Header_Height := 100 |}
                {| Commit_BlockID_Hash := "AB" |} ex_peers ex_genesis
                (VMap (<["genesis_time" := VString "2020-09-01T00:00:00Z"]>
                         (<["chain_id" := VString "chain-A"]>
                            (<["app_state" :=
                                 VMap (<["staking" :=
                                           VMap {["bond" := VString "uatom"]}]>
                                         {["auth" := VSlice [VBool true; VNil]]})]>
                               ∅))))) as H.
  cbv zeta in H. by_evaluation H.
  destruct H as (w' & Hr & _ & _ & _ & _ & _ & Hg & _ & Hp).
  exists w'. split; [exact Hr|]. split; [exact Hg|exact Hp].
Defined.

Lemma DumpInfo_rerun_witness :
  ex_disk_full !! genesisPath ex_rdir = Some (File "{}")
  /\ ex_Unmarshal_strings (MarshalIndent_strings ex_prior) = Ok ex_prior
  /\ exists w',
       ex_DumpInfo (ex_env (ex_client ex_genesis_other "AB") [1] [3; 4; 3; 4])
         (ex_world ex_disk_full)
       = (Returned None, w')
       /\ disk w' !! genesisPath ex_rdir = Some (File "{}")
       /\ disk w' !! peersPath ex_rdir
          = Some (File (MarshalIndent_strings
                          (merge_peers ex_order ex_prior
                             (stringsFromPeers ex_peers)))).
Proof.
  split; [vm_compute; reflexivity|]. split; [vm_compute; reflexivity|].
  pose proof (DumpInfo_rerun ex_parseFloat ex_formatFloat ex_Marshal ex_digest
                ex_Unmarshal_strings
                (ex_env (ex_client ex_genesis_other "AB") [1] [3; 4; 3; 4])
                "/registry" "chain-A" ex_config (ex_world ex_disk_full)
                (ex_client ex_genesis_other "AB") (ex_status "chain-A")
                ex_genesis_other (ex_header "AB" 100) {| Header_Height := 100 |}
                {| Commit_BlockID_Hash := "AB" |} ex_peers
                (File "{}") (MarshalIndent_strings ex_prior) ex_prior) as H.
  cbv zeta in H. by_evaluation H.
  destruct H as (w' & Hr & Hg & _ & Hp & _).
  exists w'. split; [exact Hr|]. split; [exact Hg|exact Hp].
Defined.

Lemma DumpInfo_missing_base_witness :
  parent_state (∅ : FS) (chainPath ex_rdir) = PMissing
  /\ node_at (∅ : FS) (chainPath ex_rdir) = None
  /\ (ex_DumpInfo (ex_env (ex_client ex_genesis "AB") [2; 0; 1] [])
        (ex_world ∅)).1
     = Returned (Some (Errorf ("making dir " +:+ chainPath ex_rdir
                               +:+ ": mkdir " +:+ chainPath ex_rdir
                               +:+ ": no such file or directory"))).
Proof.
  assert (parent_state (disk (ex_world ∅)) (chainPath ex_rdir) = PMissing)
    as H1 by (vm_compute; reflexivity).
  assert (node_at (disk (ex_world ∅)) (chainPath ex_rdir) = None)
    as H2 by (vm_compute; reflexivity).
  split; [exact H1|]. split; [exact H2|].
  exact (proj1 (DumpInfo_missing_base ex_parseFloat ex_formatFloat ex_Marshal
                  ex_digest ex_Unmarshal_strings
                  (ex_env (ex_client ex_genesis "AB") [2; 0; 1] [])
                  "/registry" "chain-A" ex_config (ex_world ∅)
                  (ex_client ex_genesis "AB") (ex_status "chain-A") ex_genesis
                  (ex_header "AB" 100) ex_peers
                  eq_refl eq_refl eq_refl eq_refl eq_refl eq_refl eq_refl
                  eq_refl H1 H2)).
Defined.

Lemma DumpInfo_corrupt_peers_kept_witness :
  ex_disk_peers_corrupt !! peersPath ex_rdir = Some (File "not json")
  /\ exists w',
       ex_DumpInfo (ex_env (ex_client ex_genesis "AB") [0; 2] [4; 3; 4; 3])
         (ex_world (<[genesisPath ex_rdir := File "{}"]> ex_disk_peers_corrupt))
       = (Returned (Some (Errorf
            ("unmarshaling peer strings: "
             +:+ "invalid character 'o' in literal null (expecting 'u')"))),
          w')
       /\ disk w' !! peersPath ex_rdir = Some (File "not json")
       /\ disk w' !! genesisPath ex_rdir = Some (File "{}").
Proof.
  split; [vm_compute; reflexivity|].
  pose proof (DumpInfo_corrupt_peers_kept ex_parseFloat ex_formatFloat
                ex_Marshal ex_digest ex_Unmarshal_strings
                (ex_env (ex_client ex_genesis "AB") [0; 2] [4; 3; 4; 3])
                "/registry" "chain-A" ex_config
                (ex_world (<[genesisPath ex_rdir := File "{}"]>
                             ex_disk_peers_corrupt))
                (ex_client ex_genesis "AB") (ex_status "chain-A")
                ex_genesis (ex_header "AB" 100) {| Header_Height := 100 |}
                {| Commit_BlockID_Hash := "AB" |} ex_peers
                (File "{}") "not json"
                (Errorf "invalid character 'o' in literal null (expecting 'u')"))
    as H.
  cbv zeta in H. by_evaluation H.
  destruct H as (w' & Hr & Hp & Hg & _).
  exists w'. split; [exact Hr|]. split; [exact Hp|exact Hg].
Defined.

Lemma DumpInfo_unsortable_genesis_witness :
  sortedGenesis ex_parseFloat_strict ex_formatFloat ex_Marshal ex_digest
    ex_genesis_overflow
  = Err (Errorf ("json: cannot unmarshal number " +:+ "1e999"
                 +:+ " into Go value of type float64"))
  /\ exists w',
       DumpInfo ex_parseFloat_strict ex_formatFloat ex_Marshal ex_digest
         ex_Unmarshal_strings
         (ex_env (ex_client ex_genesis_overflow "AB") [] [3; 4; 3; 0])
         "/registry" "chain-A" ex_config (ex_world ex_disk_empty)
       = (Returned (Some (Errorf
            ("sorting genesis file: "
             +:+ ("json: cannot unmarshal number " +:+ "1e999"
                  +:+ " into Go value of type float64")))),
          w')
       /\ disk w' !! genesisPath ex_rdir = None
       /\ disk w' !! peersPath ex_rdir
          = Some (File (MarshalIndent_strings (stringsFromPeers ex_peers))).
Proof.
  split; [vm_compute; reflexivity|].
  pose proof (DumpInfo_unsortable_genesis ex_parseFloat_strict ex_formatFloat
                ex_Marshal ex_digest ex_Unmarshal_strings
                (ex_env (ex_client ex_genesis_overflow "AB") [] [3; 4; 3; 0])
                "/registry" "chain-A" ex_config (ex_world ex_disk_empty)
                (ex_client ex_genesis_overflow "AB") (ex_status "chain-A")
                ex_genesis_overflow (ex_header "AB" 100) {| Header_Height := 100 |}
                {| Commit_BlockID_Hash := "AB" |} ex_peers
                (Errorf ("json: cannot unmarshal number " +:+ "1e999"
                         +:+ " into Go value of type float64")))
    as H.
  cbv zeta in H. by_evaluation H.
  destruct H as (w' & Hr & Hg & _ & Hp & _).
  exists w'. split; [exact Hr|]. split; [exact Hg|exact Hp].
Defined.

Lemma nil_return_means_fetched_witness :
  ex_run = (Returned None, ex_run.2)
  /\ exists client stat sh peers,
       dial (ex_env (ex_client ex_genesis "AB") [2; 0; 1] [4; 1; 3; 0; 4])
       = Ok client
       /\ Status client = Ok stat
       /\ NodeInfo_Network stat = "chain-A"
       /\ SyncInfo_CatchingUp stat = false
       /\ Commit client (SyncInfo_LatestBlockHeight stat) = Ok sh
       /\ NetInfo client = Ok peers
       /\ eg ex_run.2 = None /\ commit ex_run.2 = Some sh
       /\ netInfo ex_run.2 = Some peers.
Proof.
  assert (ex_run = (Returned None, ex_run.2)) as Hr.
  { apply outcome_eta. vm_compute. reflexivity. }
  split; [exact Hr|].
  exact (nil_return_means_fetched ex_parseFloat ex_formatFloat ex_Marshal
           ex_digest ex_Unmarshal_strings _ _ _ _ _ _ Hr).
Defined.

Lemma nil_return_lists_discovered_peers_witness :
  ex_run = (Returned None, ex_run.2)
  /\ exists client peers l,
       dial (ex_env (ex_client ex_genesis "AB") [2; 0; 1] [4; 1; 3; 0; 4])
       = Ok client
       /\ NetInfo client = Ok peers
       /\ disk ex_run.2 !! peersPath {| dir := "/registry"; chainID := "chain-A" |}
          = Some (File (MarshalIndent_strings l))
       /\ forall x, x ∈ stringsFromPeers peers -> x ∈ l.
Proof.
  assert (ex_run = (Returned None, ex_run.2)) as Hr.
  { apply outcome_eta. vm_compute. reflexivity. }
  split; [exact Hr|].
  exact (nil_return_lists_discovered_peers ex_parseFloat ex_formatFloat
           ex_Marshal ex_digest ex_Unmarshal_strings _ _ _ _ _ _ Hr).
Defined.

Lemma DumpInfo_node_down_witness :
  Genesis ex_client_down = Err (Errorf "connection refused")
  /\ (exists prefix e,
         prefix ∈ ["genesis file: "; "commit: "; "net-info: "]
         /\ e ∈ [Errorf "connection refused";
                 Errorf "connection reset by peer";
                 Errorf "context deadline exceeded"]
         /\ (ex_DumpInfo (ex_env ex_client_down [1; 0; 0; 2] [])
               (ex_world ex_disk_empty)).1
            = Returned (Some (Errorf ("fetching: " +:+ prefix +:+ Error e))))
  /\ disk (ex_DumpInfo (ex_env ex_client_down [1; 0; 0; 2] [])
             (ex_world ex_disk_empty)).2
     = disk (ex_world ex_disk_empty).
Proof.
  split; [reflexivity|].
  exact (DumpInfo_node_down ex_parseFloat ex_formatFloat ex_Marshal ex_digest
           ex_Unmarshal_strings (ex_env ex_client_down [1; 0; 0; 2] [])
           "/registry" "chain-A" ex_config (ex_world ex_disk_empty)
           ex_client_down (ex_status "chain-A") _ _ _
           eq_refl eq_refl eq_refl eq_refl eq_refl eq_refl eq_refl eq_refl).
Defined.

